(** * vs/base/node/zip.ts: extraction of ZIP archives

    A shallow embedding of [src/vs/base/node/zip.ts] and the properties of
    it that the specification states.

    - Pure helpers ([modeFromEntry], [toExtractError], the entry filter built
      from [sourcePathRegex]) are Rocq functions.
    - The event-driven parts ([extractZip], [read], [buffer]) are state
      machines: one handler per callback registered in the source, driven by
      the events the archive handle and the file system deliver.
    - JavaScript numbers that hold 32-bit words are [Z] with the [ToInt32]
      wrap-around of the bit operators written out; strings are [string]
      (code units restricted to 8 bits). *)

From Stdlib Require Import ZArith Lia Ascii String.
From stdpp Require Import base option list sorting strings.

Local Open Scope string_scope.
Local Open Scope list_scope.
Local Open Scope Z_scope.

(** ** JavaScript numeric operators used by the source *)

Module JS.

(** [ToInt32]: the conversion every bit operator applies to its operands. *)
Definition ToInt32 (x : Z) : Z :=
  let m := x mod 2 ^ 32 in
  if m <? 2 ^ 31 then m else m - 2 ^ 32.

(** [x >> n]: sign-propagating shift of the 32-bit integer value. *)
Definition shr (x n : Z) : Z := Z.shiftr (ToInt32 x) (Z.land n 31).

(** [x & y]. *)
Definition band (x y : Z) : Z := ToInt32 (Z.land (ToInt32 x) (ToInt32 y)).

(** [x || d] on numbers: [0] is the falsy number. *)
Definition or_else (x d : Z) : Z := if x =? 0 then d else x.

(** Truthiness of an optional string ([undefined] and [""] are falsy). *)
Definition truthy_string (s : option string) : bool :=
  match s with
  | None => false
  | Some s => negb (String.eqb s "")
  end.

(** Truthiness of an optional boolean. *)
Definition truthy_bool (b : option bool) : bool :=
  match b with
  | None => false
  | Some b => b
  end.

End JS.

(** ** Regular expressions

    The fragment of JavaScript regular expressions that the source needs:
    a sequence of single-character atoms (a literal character or [.]),
    optionally anchored with [^] at the start and [$] at the end.  Every atom
    consumes exactly one code unit, so matching needs no backtracking. *)

Module RegExp.

Inductive atom : Type :=
| Lit (c : ascii)
| Dot.

Record t : Type := mk {
  anchorStart : bool;
  atoms : list atom;
  anchorEnd : bool
}.

(** Line terminators (the ones representable in 8 bits): [.] refuses them. *)
Definition isLineTerminator (c : ascii) : bool :=
  Ascii.eqb c "010" || Ascii.eqb c "013".

Definition atomMatches (a : atom) (c : ascii) : bool :=
  match a with
  | Lit d => Ascii.eqb c d
  | Dot => negb (isLineTerminator c)
  end.

(** Match the atoms at the head of [s]; the result is what follows the
    match. *)
Fixpoint matchHere (ats : list atom) (toEnd : bool) (s : string) : option string :=
  match ats with
  | [] =>
      if toEnd then
        match s with
        | EmptyString => Some EmptyString
        | String _ _ => None
        end
      else Some s
  | a :: ats' =>
      match s with
      | EmptyString => None
      | String c s' => if atomMatches a c then matchHere ats' toEnd s' else None
      end
  end.

(** Leftmost match of an unanchored pattern: (text before, text after). *)
Fixpoint search (ats : list atom) (toEnd : bool) (s : string) : option (string * string) :=
  match matchHere ats toEnd s with
  | Some rest => Some (EmptyString, rest)
  | None =>
      match s with
      | EmptyString => None
      | String c s' =>
          match search ats toEnd s' with
          | Some (before, after) => Some (String c before, after)
          | None => None
          end
      end
  end.

(** [RegExp.prototype.exec], reduced to the text around the match. *)
Definition exec (r : t) (s : string) : option (string * string) :=
  if anchorStart r then
    match matchHere (atoms r) (anchorEnd r) s with
    | Some rest => Some (EmptyString, rest)
    | None => None
    end
  else search (atoms r) (anchorEnd r) s.

(** [regex.test(s)]. *)
Definition test (r : t) (s : string) : bool :=
  match exec r s with
  | Some _ => true
  | None => false
  end.

(** [s.replace(regex, replacement)] for a regex without the [g] flag and
    a replacement without [$] patterns: the first match is replaced. *)
Definition replace (r : t) (s replacement : string) : string :=
  match exec r s with
  | Some (before, after) => before +:+ replacement +:+ after
  | None => s
  end.

(** Characters with a syntactic role in a pattern. *)
Definition isSyntaxCharacter (c : ascii) : bool :=
  existsb (Ascii.eqb c) (list_ascii_of_string "^$\.*+?()[]{}|").

(** The atoms of a pattern body and whether it ends with [$]. *)
Fixpoint parseAtoms (src : string) : option (list atom * bool) :=
  match src with
  | EmptyString => Some ([], false)
  | String c rest =>
      if Ascii.eqb c "$" then
        match rest with
        | EmptyString => Some ([], true)
        | String _ _ => None
        end
      else if Ascii.eqb c "." then
        match parseAtoms rest with
        | Some (ats, e) => Some (Dot :: ats, e)
        | None => None
        end
      else if isSyntaxCharacter c then None
      else
        match parseAtoms rest with
        | Some (ats, e) => Some (Lit c :: ats, e)
        | None => None
        end
  end.

(** [new RegExp(src)].  [None] stands for a pattern outside the fragment
    (a [SyntaxError], or a construct this model does not cover). *)
Definition new (src : string) : option t :=
  match src with
  | String "^" body =>
      match parseAtoms body with
      | Some (ats, e) => Some (mk true ats e)
      | None => None
      end
  | _ =>
      match parseAtoms src with
      | Some (ats, e) => Some (mk false ats e)
      | None => None
      end
  end.

(** A pattern made of literal characters only, unanchored. *)
Definition literal (text : string) : t :=
  mk false (map Lit (list_ascii_of_string text)) false.

End RegExp.

(** ** Data model *)

(** [Entry] of yauzl, reduced to the fields the source reads. *)
Record Entry : Type := mkEntry {
  fileName : string;
  externalFileAttributes : Z
}.

(** [enum ExtractErrorType]. *)
Inductive ExtractErrorType : Type :=
| Undefined
| CorruptZip.

(** JavaScript errors: a plain [Error], or the [ExtractError] subclass with
    its two extra fields. *)
Inductive Error : Type :=
| mkError (message : string)
| mkExtractError (message : string) (type : ExtractErrorType) (cause : Error).

Definition message (e : Error) : string :=
  match e with
  | mkError m => m
  | mkExtractError m _ _ => m
  end.

(** [ExtractError]'s constructor. *)
Definition ExtractError (type : ExtractErrorType) (cause : Error) : Error :=
  let message := message cause in
  let message :=
    match type with
    | CorruptZip => "Corrupt ZIP: " +:+ message
    | Undefined => message
    end in
  mkExtractError message type cause.

(** [modeFromEntry]. *)
Definition modeFromEntry (entry : Entry) : Z :=
  let attr := JS.or_else (JS.shr (externalFileAttributes entry) 16) 33188 in
  fold_left (fun a b => a + b)
    (map (fun mask => JS.band attr mask) [448; 56; 7])
    (JS.band attr 61440).

(** The pattern of the classifier in [toExtractError]. *)
Definition endOfCentralDirectoryRegex : RegExp.t :=
  RegExp.literal "end of central directory record signature not found".

(** [toExtractError]. *)
Definition toExtractError (err : Error) : Error :=
  let type := CorruptZip in
  let type :=
    if RegExp.test endOfCentralDirectoryRegex (message err) then CorruptZip else type in
  ExtractError type err.

(** ** Entry filter *)

(** [IExtractOptions]: both fields are optional. *)
Record IExtractOptions : Type := mkOptions {
  overwrite : option bool;
  sourcePath : option string
}.

(** The pattern text built at the head of [extract]:
    [options.sourcePath ? `^${options.sourcePath}` : '']. *)
Definition sourcePathPattern (options : IExtractOptions) : string :=
  match sourcePath options with
  | Some p => if JS.truthy_string (Some p) then "^" +:+ p else ""
  | None => ""
  end.

(** [IOptions]. *)
Record IOptions : Type := mkIOptions {
  sourcePathRegex : RegExp.t
}.

(** [new RegExp(...)] at the head of [extract]. *)
Definition newSourcePathRegex (options : IExtractOptions) : option RegExp.t :=
  RegExp.new (sourcePathPattern options).

(** The filter at the head of the [entry] handler of [extractZip]: an entry
    the pattern refuses is skipped, the others get the match removed. *)
Definition relativeFileName (re : RegExp.t) (entryName : string) : option string :=
  if negb (RegExp.test re entryName) then None
  else Some (RegExp.replace re entryName "").

(** The pattern [/\/$/] of the directory test. *)
Definition endsWithSlash : RegExp.t := RegExp.mk false [RegExp.Lit "/"] true.

(** The entry filter as the specification words it: a literal prefix test,
    and the prefix dropped. *)
Fixpoint stripPrefix (p s : string) : option string :=
  match p with
  | EmptyString => Some s
  | String c p' =>
      match s with
      | EmptyString => None
      | String d s' => if Ascii.eqb c d then stripPrefix p' s' else None
      end
  end.

Definition filter_spec (entryName : string) (sourcePath : option string) : option string :=
  match sourcePath with
  | None => Some entryName
  | Some p => stripPrefix p entryName
  end.

(** ** Promises *)

(** Modelled from the spec: [TPromise] of [vs/base/common/winjs.base], whose
    source is not part of [src/].  A future is pending or settled; it
    settles once, as fulfilled, as rejected with an error, or as cancelled
    (the specification keeps the cancelled state apart from failure). *)
Inductive outcome (A : Type) : Type :=
| Fulfilled (a : A)
| Rejected (e : Error)
| Canceled.
Arguments Fulfilled {A} a.
Arguments Rejected {A} e.
Arguments Canceled {A}.

(** The state of a promise. *)
Inductive promise (A : Type) : Type :=
| Pending
| Settled (o : outcome A).
Arguments Pending {A}.
Arguments Settled {A} o.

(** The completion of a Node-style callback [(err) => ...]. *)
Definition ofCallback (r : option Error) : outcome unit :=
  match r with
  | None => Fulfilled tt
  | Some e => Rejected e
  end.

(** [p.then(null, err => TPromise.wrapError(toExtractError(err)))]. *)
Definition wrapExtractError {A : Type} (p : promise A) : promise A :=
  match p with
  | Settled (Rejected e) => Settled (Rejected (toExtractError e))
  | _ => p
  end.

(** ** Effects on the outside world, in the order they are issued *)

(** The calls [zip.ts] makes to its collaborators: yauzl's [open],
    [rimraf], [mkdirp], [zipfile.openReadStream], [createWriteStream],
    [stream.pipe], [istream.close] and [zipfile.close].  [ETaskStart]
    records that the throttler has called the task of an operation. *)
Inductive effect : Type :=
| EOpenZip (zipPath : string)
| ERimraf (path : string)
| EMkdirp (path : string)
| EOpenReadStream (entryName : string)
| ETaskStart (id : nat)
| ECreateWriteStream (id : nat) (path : string) (mode : Z)
| EPipe (id : nat)
| ECloseSink (id : nat)
| EZipClose.

(** ** Scheduled operations of one extraction *)

(** Where a throttled file task stands: in the queue of the throttler,
    its body not yet called ([Queued]); called and waiting for the read
    stream, [stream.then(...)] ([AwaitStream]); in [extractEntry], waiting
    for [mkdirp] ([MakingDir]); sink created and stream piped, waiting for
    [close] or [error] ([Piping]); over ([Done]). *)
Inductive phase : Type :=
| Queued
| AwaitStream
| MakingDir
| Piping
| Done (o : outcome unit).

(** The task [() => stream.then(stream => extractEntry(stream, fileName,
    mode, targetPath, options))] queued for a file entry, with the state of
    the promise [stream] of its read stream. *)
Record fileTask : Type := mkTask {
  taskFileName : string;
  taskMode : Z;
  taskStream : promise unit;
  taskPhase : phase
}.

(** What [last] can refer to: the [mkdirp] of a directory entry, or the
    throttled extraction of a file entry. *)
Inductive op : Type :=
| DirOp (path : string) (p : promise unit)
| FileOp (t : fileTask).

(** The body of the task has been called and is not over. *)
Definition executing (t : fileTask) : bool :=
  match taskPhase t with
  | AwaitStream | MakingDir | Piping => true
  | Queued | Done _ => false
  end.

(** The promise an operation stands for. *)
Definition opPromise (o : op) : promise unit :=
  match o with
  | DirOp _ p => p
  | FileOp t =>
      match taskPhase t with
      | Done o => Settled o
      | _ => Pending
      end
  end.

Definition withPhase (ph : phase) (t : fileTask) : fileTask :=
  mkTask (taskFileName t) (taskMode t) (taskStream t) ph.

Definition withStream (s : promise unit) (t : fileTask) : fileTask :=
  mkTask (taskFileName t) (taskMode t) s (taskPhase t).

Definition withOutcome (o : outcome unit) (x : op) : op :=
  match x with
  | DirOp path _ => DirOp path (Settled o)
  | FileOp t => FileOp (withPhase (Done o) t)
  end.

(** ** State of [extractZip] *)

(** The variables [isCanceled] and [last] of [extractZip] ([None] is the
    initial [TPromise.wrap(null)], [Some id] the operation of rank [id]);
    [outer], the promise built by [new TPromise((c, e) => ...)];
    [closeFired] and [errorFired], whether the two [once] handlers have
    run; [joined], the operation [last.then(c, e)] waits for when [last]
    was pending at [close]; [ops], the operations scheduled so far, by rank
    of arrival; [running] and [fifo], the throttler; [effects], the calls
    made so far. *)
Record state : Type := mkState {
  isCanceled : bool;
  last : option nat;
  outer : promise unit;
  closeFired : bool;
  errorFired : bool;
  joined : option nat;
  ops : list op;
  running : bool;
  fifo : list nat;
  effects : list effect
}.

Definition setCanceled (b : bool) (st : state) : state :=
  mkState b (last st) (outer st) (closeFired st) (errorFired st) (joined st)
    (ops st) (running st) (fifo st) (effects st).

Definition setLast (l : option nat) (st : state) : state :=
  mkState (isCanceled st) l (outer st) (closeFired st) (errorFired st) (joined st)
    (ops st) (running st) (fifo st) (effects st).

Definition setOuter (p : promise unit) (st : state) : state :=
  mkState (isCanceled st) (last st) p (closeFired st) (errorFired st) (joined st)
    (ops st) (running st) (fifo st) (effects st).

Definition setCloseFired (b : bool) (st : state) : state :=
  mkState (isCanceled st) (last st) (outer st) b (errorFired st) (joined st)
    (ops st) (running st) (fifo st) (effects st).

Definition setErrorFired (b : bool) (st : state) : state :=
  mkState (isCanceled st) (last st) (outer st) (closeFired st) b (joined st)
    (ops st) (running st) (fifo st) (effects st).

Definition setJoined (j : option nat) (st : state) : state :=
  mkState (isCanceled st) (last st) (outer st) (closeFired st) (errorFired st) j
    (ops st) (running st) (fifo st) (effects st).

Definition setOps (os : list op) (st : state) : state :=
  mkState (isCanceled st) (last st) (outer st) (closeFired st) (errorFired st) (joined st)
    os (running st) (fifo st) (effects st).

Definition setRunning (b : bool) (st : state) : state :=
  mkState (isCanceled st) (last st) (outer st) (closeFired st) (errorFired st) (joined st)
    (ops st) b (fifo st) (effects st).

Definition setFifo (q : list nat) (st : state) : state :=
  mkState (isCanceled st) (last st) (outer st) (closeFired st) (errorFired st) (joined st)
    (ops st) (running st) q (effects st).

Definition emit (e : effect) (st : state) : state :=
  mkState (isCanceled st) (last st) (outer st) (closeFired st) (errorFired st) (joined st)
    (ops st) (running st) (fifo st) (effects st ++ [e]).

(** ** [extractZip]

    [path.join] and [path.dirname] belong to Node; the development is
    parametric in them. *)

Section Extraction.

Variable join : string -> string -> string.
Variable dirname : string -> string.

(** State at the return of [extractZip]: nothing scheduled, [last] is
    [TPromise.wrap(null)] (written [None]), both [once] handlers armed.
    [log] holds what [extract] did before. *)
Definition initial (log : list effect) : state :=
  mkState false None Pending false false None [] false [] log.

(** The promise [last] refers to. *)
Definition lastPromise (st : state) : promise unit :=
  match last st with
  | None => Settled (Fulfilled tt)
  | Some id =>
      match ops st !! id with
      | Some o => opPromise o
      | None => Pending
      end
  end.

(** [c] and [e] of the promise built by [extractZip]: a settled promise
    stays as it is. *)
Definition settleOuter (o : outcome unit) (st : state) : state :=
  match outer st with
  | Pending => setOuter (Settled o) st
  | Settled _ => st
  end.

(** Operation [id] settles; the subscription [last.then(c, e)] made at
    [close], if it is on [id], passes the outcome on. *)
Definition settleOp (id : nat) (o : outcome unit) (st : state) : state :=
  match ops st !! id with
  | Some x =>
      let st := setOps (<[id := withOutcome o x]> (ops st)) st in
      if decide (joined st = Some id) then settleOuter o st else st
  | None => st
  end.

(** Replace the task record of operation [id]. *)
Definition setTask (id : nat) (t : fileTask) (st : state) : state :=
  setOps (<[id := FileOp t]> (ops st)) st.

(** Head of [extractEntry]: [mkdirp(targetDirName)] is issued. *)
Definition extractEntry (id : nat) (t : fileTask) (targetPath : string) (st : state) : state :=
  let dirName := dirname (taskFileName t) in
  let targetDirName := join targetPath dirName in
  setTask id (withPhase MakingDir t) (emit (EMkdirp targetDirName) st).

(** Second half of [extractEntry], run when [mkdirp] has resolved: the write
    sink is created and the entry's stream piped into it. *)
Definition openSink (id : nat) (t : fileTask) (targetPath : string) (st : state) : state :=
  let targetFileName := join targetPath (taskFileName t) in
  let st := emit (ECreateWriteStream id targetFileName (taskMode t)) st in
  let st := emit (EPipe id) st in
  setTask id (withPhase Piping t) st.

(** The throttler calls the task queued for [id], that is
    [() => stream.then(stream => extractEntry(...))].  The boolean tells
    whether the task is still running when the call returns: it is not when
    the read stream has already failed. *)
Definition startTask (id : nat) (targetPath : string) (st : state) : state * bool :=
  match ops st !! id with
  | Some (FileOp t) =>
      match taskPhase t with
      | Queued =>
          let st := emit (ETaskStart id) st in
          match taskStream t with
          | Pending => (setTask id (withPhase AwaitStream t) st, true)
          | Settled (Fulfilled _) => (extractEntry id t targetPath st, true)
          | Settled (Rejected e) => (settleOp id (Rejected e) st, false)
          | Settled Canceled => (settleOp id Canceled st, false)
          end
      | _ => (st, false)
      end
  | _ => (st, false)
  end.

(** Modelled from the spec: [SimpleThrottler] of [vs/base/common/async],
    whose source is not part of [src/].  A FIFO of tasks not yet started and
    a flag telling that a task is running; when the running task is over the
    next queued task is taken and started, and the flag is cleared when the
    queue is empty. *)
Fixpoint throttlerNext (q : list nat) (targetPath : string) (st : state) : state :=
  match q with
  | [] => setRunning false (setFifo [] st)
  | id :: q' =>
      let (st', busy) := startTask id targetPath (setFifo q' st) in
      if busy then st' else throttlerNext q' targetPath st'
  end.

(** Modelled from the spec: [SimpleThrottler.queue].  Queuing on an idle
    throttler starts the task at once, queuing on a busy one appends it. *)
Definition throttlerQueue (id : nat) (targetPath : string) (st : state) : state :=
  if running st then setFifo (fifo st ++ [id]) st
  else
    let (st', busy) := startTask id targetPath (setRunning true st) in
    if busy then st' else throttlerNext (fifo st') targetPath st'.

(** The running task [id] is over with outcome [o]. *)
Definition taskDone (id : nat) (o : outcome unit) (targetPath : string) (st : state) : state :=
  let st := settleOp id o st in
  throttlerNext (fifo st) targetPath st.

(** A new operation; its id is its rank of arrival. *)
Definition newOp (x : op) (st : state) : nat * state :=
  (length (ops st), setOps (ops st ++ [x]) st).

(** The [entry] handler of [extractZip]. *)
Definition onEntry (entry : Entry) (targetPath : string) (options : IOptions) (st : state) : state :=
  let entryName := fileName entry in
  if isCanceled st then st
  else
    match relativeFileName (sourcePathRegex options) entryName with
    | None => st
    | Some fileName =>
        if RegExp.test endsWithSlash fileName then
          let targetFileName := join targetPath fileName in
          let st := emit (EMkdirp targetFileName) st in
          let (id, st) := newOp (DirOp targetFileName Pending) st in
          setLast (Some id) st
        else
          let st := emit (EOpenReadStream entryName) st in
          let mode := modeFromEntry entry in
          let (id, st) := newOp (FileOp (mkTask fileName mode Pending Queued)) st in
          let st := throttlerQueue id targetPath st in
          setLast (Some id) st
    end.

(** The [close] handler, registered with [once]: [last.then(c, e)]. *)
Definition onClose (st : state) : state :=
  if closeFired st then st
  else
    let st := setCloseFired true st in
    match lastPromise st with
    | Settled o => settleOuter o st
    | Pending => setJoined (last st) st
    end.

(** The [error] handler, registered with [once]: [e]. *)
Definition onError (err : Error) (st : state) : state :=
  if errorFired st then st
  else settleOuter (Rejected err) (setErrorFired true st).

(** [zipfile.openReadStream] calls back for the entry of task [id]. *)
Definition onStreamOpened (id : nat) (r : option Error) (targetPath : string) (st : state) : state :=
  match ops st !! id with
  | Some (FileOp t) =>
      match taskStream t with
      | Settled _ => st
      | Pending =>
          let t := withStream (Settled (ofCallback r)) t in
          match taskPhase t with
          | AwaitStream =>
              match r with
              | None => extractEntry id t targetPath st
              | Some e => taskDone id (Rejected e) targetPath (setTask id t st)
              end
          | _ => setTask id t st
          end
      end
  | _ => st
  end.

(** [mkdirp] of operation [id] is over: the directory of a directory entry,
    or the parent directory made by [extractEntry]. *)
Definition onMkdirpDone (id : nat) (r : option Error) (targetPath : string) (st : state) : state :=
  match ops st !! id with
  | Some (DirOp _ Pending) => settleOp id (ofCallback r) st
  | Some (FileOp t) =>
      match taskPhase t with
      | MakingDir =>
          match r with
          | None => openSink id t targetPath st
          | Some e => taskDone id (Rejected e) targetPath st
          end
      | _ => st
      end
  | _ => st
  end.

(** [istream.once('close', () => c(null))]. *)
Definition onSinkClose (id : nat) (targetPath : string) (st : state) : state :=
  match ops st !! id with
  | Some (FileOp t) =>
      match taskPhase t with
      | Piping => taskDone id (Fulfilled tt) targetPath st
      | _ => st
      end
  | _ => st
  end.

(** [istream.once('error', e)] and [stream.once('error', e)]. *)
Definition onPipeError (id : nat) (err : Error) (targetPath : string) (st : state) : state :=
  match ops st !! id with
  | Some (FileOp t) =>
      match taskPhase t with
      | Piping => taskDone id (Rejected err) targetPath st
      | _ => st
      end
  | _ => st
  end.

(** Modelled from the spec: [cancel] of the futures [last] can hold, whose
    classes are not part of [src/].  A settled promise ignores it.  A
    pending [mkdirp] is cancelled.  A throttled task that has not started
    is taken out of the queue and never starts; a running one is cancelled
    where it stands, and the cancel handler of [extractEntry]
    ([if (istream) istream.close()]) closes the sink once it exists. *)
Definition cancelOp (id : nat) (targetPath : string) (st : state) : state :=
  match ops st !! id with
  | Some (DirOp _ Pending) => settleOp id Canceled st
  | Some (FileOp t) =>
      match taskPhase t with
      | Queued =>
          settleOp id Canceled (setFifo (filter (fun j => j <> id) (fifo st)) st)
      | AwaitStream | MakingDir => taskDone id Canceled targetPath st
      | Piping => taskDone id Canceled targetPath (emit (ECloseSink id) st)
      | Done _ => st
      end
  | _ => st
  end.

(** The cancel handler of the promise built by [extractZip].  It runs only
    while that promise is pending; the promise ends cancelled. *)
Definition onCancel (targetPath : string) (st : state) : state :=
  match outer st with
  | Settled _ => st
  | Pending =>
      let st := setCanceled true st in
      let st :=
        match last st with
        | Some id => cancelOp id targetPath st
        | None => st
        end in
      let st := emit EZipClose st in
      setOuter (Settled Canceled) st
  end.

(** What can happen to a running extraction: the three signals of the
    archive handle, the completions of the calls made for operation [id],
    and the cancellation of the returned promise by its owner. *)
Inductive event : Type :=
| ZipEntry (entry : Entry)
| ZipClose
| ZipError (err : Error)
| StreamOpened (id : nat) (r : option Error)
| MkdirpDone (id : nat) (r : option Error)
| SinkClose (id : nat)
| SinkError (id : nat) (err : Error)
| StreamError (id : nat) (err : Error)
| Cancel.

(** One event reaches its handler. *)
Definition step (targetPath : string) (options : IOptions) (st : state) (ev : event) : state :=
  match ev with
  | ZipEntry entry => onEntry entry targetPath options st
  | ZipClose => onClose st
  | ZipError err => onError err st
  | StreamOpened id r => onStreamOpened id r targetPath st
  | MkdirpDone id r => onMkdirpDone id r targetPath st
  | SinkClose id => onSinkClose id targetPath st
  | SinkError id err => onPipeError id err targetPath st
  | StreamError id err => onPipeError id err targetPath st
  | Cancel => onCancel targetPath st
  end.

(** The events reach the handlers in the order of their arrival. *)
Definition run (targetPath : string) (options : IOptions) (evs : list event) (st : state) : state :=
  fold_left (step targetPath options) evs st.

(** The promise [extractZip] returns: the one it builds, followed by
    [.then(null, err => TPromise.wrapError(toExtractError(err)))]. *)
Definition returned (st : state) : promise unit := wrapExtractError (outer st).

End Extraction.

(** ** [openZip] and [extract] *)

(** [openZip]: [nfcall(_openZip, zipFile)] calls back with [r]; a failure is
    mapped through [toExtractError]. *)
Definition openZip (r : option Error) : promise unit :=
  wrapExtractError (Settled (ofCallback r)).

(** What the outside world answers during one call of [extract]: the
    callback of yauzl's [open], the completion of [rimraf], and the events
    delivered to [extractZip]. *)
Record environment : Type := mkEnv {
  openResult : option Error;
  rimrafResult : option Error;
  events : list event
}.

(** [extractZip] as a whole: the handlers are registered, the events [evs]
    (what the archive handle [zipfile] and the scheduled operations
    deliver) arrive, and the promise returned is read off with the effects
    issued. *)
Definition extractZip (join : string -> string -> string) (dirname : string -> string)
    (evs : list event) (log : list effect) (targetPath : string) (options : IOptions)
    : promise unit * list effect :=
  let st := run join dirname targetPath options evs (initial log) in
  (returned st, effects st).

(** [extract].  The result is the promise returned and the effects issued;
    [None] when [new RegExp] is given a pattern outside the modelled
    fragment. *)
Definition extract (join : string -> string -> string) (dirname : string -> string)
    (env : environment) (zipPath targetPath : string) (options : IExtractOptions)
    : option (promise unit * list effect) :=
  match newSourcePathRegex options with
  | None => None
  | Some sourcePathRegex =>
      let log := [EOpenZip zipPath] in
      Some
        match openZip (openResult env) with
        | Settled (Fulfilled _) =>
            if JS.truthy_bool (overwrite options) then
              let log := log ++ [ERimraf targetPath] in
              match ofCallback (rimrafResult env) with
              | Fulfilled _ =>
                  extractZip join dirname (events env) log targetPath (mkIOptions sourcePathRegex)
              | o => (Settled o, log)
              end
            else
              extractZip join dirname (events env) log targetPath (mkIOptions sourcePathRegex)
        | p => (p, log)
        end
  end.

(** ** [read] and [buffer] *)

(** Modelled from the spec: [nls.localize] of [vs/nls], whose source is not
    part of [src/]; the placeholder [{0}] of the message is replaced by the
    argument, so that the error names the requested entry path. *)
Fixpoint format0 (fmt arg : string) : string :=
  match fmt with
  | String "{" (String "0" (String "}" rest)) => arg +:+ format0 rest arg
  | String c rest => String c (format0 rest arg)
  | EmptyString => EmptyString
  end.

Definition localize (key fmt arg : string) : string := format0 fmt arg.

(** The error of the [close] handler of [read]. *)
Definition notFound (filePath : string) : Error :=
  mkError (localize "notFound" "{0} not found inside zip." filePath).

Definition Buffer : Type := list Byte.byte.

(** State of one call of [buffer]: the promise of [read] (a read stream is
    named by the rank of the [openReadStream] call that opens it), the
    number of read streams asked for, the [once] flags, the chunks pushed
    so far and the promise returned. *)
Record readState : Type := mkReadState {
  readPromise : promise nat;
  opened : nat;
  readCloseFired : bool;
  streamErrorFired : bool;
  buffers : list Buffer;
  bufferPromise : promise Buffer
}.

Definition readInitial : readState :=
  mkReadState Pending 0%nat false false [] Pending.

(** What the archive handle and the read streams deliver to the handlers
    [read] and [buffer] register.  Neither function registers a cancel
    handler; what a cancellation by the owner of the returned promise does
    is the business of [TPromise] alone and is not among the events. *)
Inductive readEvent : Type :=
| REntry (entry : Entry)
| RClose
| ROpened (k : nat) (r : option Error)
| RData (k : nat) (b : Buffer)
| REnd (k : nat)
| RError (k : nat) (err : Error).

(** [c] and [e] of the promise of [read]; [buffer] chains on it with
    [then], so a rejection of [read] is the rejection of [buffer]. *)
Definition settleRead (o : outcome nat) (st : readState) : readState :=
  match readPromise st with
  | Settled _ => st
  | Pending =>
      let chained :=
        match o with
        | Fulfilled _ => bufferPromise st
        | Rejected e => Settled (Rejected e)
        | Canceled => Settled Canceled
        end in
      mkReadState (Settled o) (opened st) (readCloseFired st) (streamErrorFired st)
        (buffers st) chained
  end.

(** [c] and [e] of the promise built in [buffer]. *)
Definition settleBuffer (o : outcome Buffer) (st : readState) : readState :=
  match bufferPromise st with
  | Settled _ => st
  | Pending =>
      mkReadState (readPromise st) (opened st) (readCloseFired st) (streamErrorFired st)
        (buffers st) (Settled o)
  end.

(** Is [k] the stream [read] resolved with, the one [buffer] listens to? *)
Definition listening (k : nat) (st : readState) : bool :=
  match readPromise st with
  | Settled (Fulfilled k') => Nat.eqb k k'
  | _ => false
  end.

Definition readStep (filePath : string) (st : readState) (ev : readEvent) : readState :=
  match ev with
  | REntry entry =>
      (* zipfile.on('entry', ...) *)
      if String.eqb (fileName entry) filePath then
        mkReadState (readPromise st) (S (opened st)) (readCloseFired st)
          (streamErrorFired st) (buffers st) (bufferPromise st)
      else st
  | ROpened k r =>
      (* .done(stream => c(stream), err => e(err)) *)
      if Nat.ltb k (opened st) then
        match r with
        | None => settleRead (Fulfilled k) st
        | Some err => settleRead (Rejected err) st
        end
      else st
  | RClose =>
      (* zipfile.once('close', () => e(new Error(...))) *)
      if readCloseFired st then st
      else
        settleRead (Rejected (notFound filePath))
          (mkReadState (readPromise st) (opened st) true (streamErrorFired st)
             (buffers st) (bufferPromise st))
  | RData k b =>
      (* stream.on('data', b => buffers.push(b)) *)
      if listening k st then
        mkReadState (readPromise st) (opened st) (readCloseFired st)
          (streamErrorFired st) (buffers st ++ [b]) (bufferPromise st)
      else st
  | REnd k =>
      (* stream.on('end', () => c(Buffer.concat(buffers))) *)
      if listening k st then settleBuffer (Fulfilled (concat (buffers st))) st
      else st
  | RError k err =>
      (* stream.once('error', e) *)
      if listening k st && negb (streamErrorFired st) then
        settleBuffer (Rejected err)
          (mkReadState (readPromise st) (opened st) (readCloseFired st) true
             (buffers st) (bufferPromise st))
      else st
  end.

(** [buffer]: [openZip] first; the events reach the handlers only when the
    archive has been opened. *)
Definition buffer (r : option Error) (evs : list readEvent) (filePath : string) : promise Buffer :=
  match openZip r with
  | Settled (Fulfilled _) => bufferPromise (fold_left (readStep filePath) evs readInitial)
  | Settled (Rejected e) => Settled (Rejected e)
  | Settled Canceled => Settled Canceled
  | Pending => Pending
  end.

(** [read], under the same convention. *)
Definition read (r : option Error) (evs : list readEvent) (filePath : string) : promise nat :=
  match openZip r with
  | Settled (Fulfilled _) => readPromise (fold_left (readStep filePath) evs readInitial)
  | Settled (Rejected e) => Settled (Rejected e)
  | Settled Canceled => Settled Canceled
  | Pending => Pending
  end.

(** * Vocabulary of the properties *)

(** The attribute word after [>> 16 || 33188], reduced to its low 16 bits. *)
Definition storedMode (a : Z) : Z :=
  if Z.shiftr a 16 =? 0 then 33188 else Z.shiftr a 16.

(** The [type] field, when the error is an [ExtractError]. *)
Definition errorType (e : Error) : option ExtractErrorType :=
  match e with
  | mkError _ => None
  | mkExtractError _ t _ => Some t
  end.

(** The [cause] field, when the error is an [ExtractError]. *)
Definition errorCause (e : Error) : option Error :=
  match e with
  | mkError _ => None
  | mkExtractError _ _ c => Some c
  end.

(** A source path without any pattern syntax character. *)
Definition plainPath (p : string) : bool :=
  forallb (fun c => negb (RegExp.isSyntaxCharacter c)) (list_ascii_of_string p).

(** The handlers of [read] and [buffer] run on a sequence of events. *)
Definition readRun (filePath : string) (evs : list readEvent) (st : readState) : readState :=
  fold_left (readStep filePath) evs st.

(** An event that is not an entry named [filePath]. *)
Definition noMatch (filePath : string) (ev : readEvent) : bool :=
  match ev with
  | REntry entry => negb (String.eqb (fileName entry) filePath)
  | _ => true
  end.

(** While no entry has matched, no read stream has been asked for and both
    promises are pending until [close], rejected as not found after it. *)
Definition scanning (filePath : string) (st : readState) : Prop :=
  opened st = 0%nat /\
  if readCloseFired st then
    readPromise st = Settled (Rejected (notFound filePath))
    /\ bufferPromise st = Settled (Rejected (notFound filePath))
  else readPromise st = Pending /\ bufferPromise st = Pending.

(** The events of read stream [k]. *)
Definition ofStream (k : nat) (ev : readEvent) : bool :=
  match ev with
  | RData k' _ | REnd k' | RError k' _ => Nat.eqb k' k
  | _ => false
  end.

(** What stream [k] emits in a sequence of events. *)
Definition streamTrace (k : nat) (evs : list readEvent) : list readEvent :=
  List.filter (ofStream k) evs.

(** Before [read] settles nothing has been pushed and [buffer] is pending. *)
Definition unread (st : readState) : Prop :=
  readPromise st = Pending ->
  bufferPromise st = Pending /\ buffers st = [] /\ streamErrorFired st = false.

(** The promise of operation [id]. *)
Definition promiseAt (st : state) (id : nat) : promise unit :=
  match ops st !! id with
  | Some o => opPromise o
  | None => Pending
  end.

(** The task of operation [id], when it is a file operation. *)
Definition taskAt (st : state) (id : nat) : option fileTask :=
  match ops st !! id with
  | Some (FileOp t) => Some t
  | _ => None
  end.

(** Effects [extractZip] can issue: all but opening the archive and
    deleting the target. *)
Definition driverEffect (e : effect) : bool :=
  match e with
  | EOpenZip _ | ERimraf _ => false
  | _ => true
  end.

(** [st'] is [st] after some progress of the scheduled operations: the
    control fields are the same, settled promises are kept, the promise of
    [extractZip] moves only together with the operation [close] joined it
    to, and effects are only added. *)
Record advances (st st' : state) : Prop := mkAdvances {
  adv_canceled : isCanceled st' = isCanceled st;
  adv_last : last st' = last st;
  adv_close : closeFired st' = closeFired st;
  adv_error : errorFired st' = errorFired st;
  adv_joined : joined st' = joined st;
  adv_length : length (ops st') = length (ops st);
  adv_settled : forall id o, promiseAt st id = Settled o -> promiseAt st' id = Settled o;
  adv_outer : forall o, outer st = Settled o -> outer st' = Settled o;
  adv_link :
    outer st = Pending ->
    (outer st' = Pending
     /\ forall l, joined st = Some l -> promiseAt st l = Pending -> promiseAt st' l = Pending)
    \/ (exists l o, joined st = Some l /\ promiseAt st l = Pending
                    /\ promiseAt st' l = Settled o /\ outer st' = Settled o);
  adv_effects :
    exists more, effects st' = effects st ++ more /\ forallb driverEffect more = true
}.

(** [st'] comes after [st] in an extraction: cancellation, settled promises
    and issued effects are all kept. *)
Record extends (st st' : state) : Prop := mkExtends {
  ext_canceled : isCanceled st = true -> isCanceled st' = true;
  ext_outer : forall o, outer st = Settled o -> outer st' = Settled o;
  ext_settled : forall id o, promiseAt st id = Settled o -> promiseAt st' id = Settled o;
  ext_length : (length (ops st) <= length (ops st'))%nat;
  ext_effects :
    exists more, effects st' = effects st ++ more /\ forallb driverEffect more = true
}.

(** The events that report the progress of a scheduled operation. *)
Definition isCompletion (ev : event) : bool :=
  match ev with
  | StreamOpened _ _ | MkdirpDone _ _ | SinkClose _ | SinkError _ _ | StreamError _ _ => true
  | ZipEntry _ | ZipClose | ZipError _ | Cancel => false
  end.

(** The promise behind a value of [last]. *)
Definition promiseOf (st : state) (l : option nat) : promise unit :=
  match l with
  | None => Settled (Fulfilled tt)
  | Some id => promiseAt st id
  end.

(** [last] always names an operation that has been scheduled. *)
Definition lastValid (st : state) : Prop :=
  forall l, last st = Some l -> (l < length (ops st))%nat.

(** What [extract] has done when it calls [extractZip]. *)
Definition extractLog (zipPath targetPath : string) (options : IExtractOptions) : list effect :=
  if JS.truthy_bool (overwrite options)
  then [EOpenZip zipPath; ERimraf targetPath]
  else [EOpenZip zipPath].

(** The tasks whose body was started, in the order of the starts. *)
Definition taskStarts (effs : list effect) : list nat :=
  flat_map (fun e => match e with ETaskStart id => [id] | _ => [] end) effs.

(** No task body is executing. *)
Definition idle (st : state) : Prop :=
  forall i t, taskAt st i = Some t -> executing t = false.

(** The invariant of the throttler, for a queue [q]: at most one task body
    executes, and only while the flag is set; the queue holds tasks that
    have not started, in the order of their arrival and after every task
    already started; the starts so far are in the order of arrival. *)
Record throttled (q : list nat) (st : state) : Prop := mkThrottled {
  th_unique :
    forall i j ti tj,
      taskAt st i = Some ti -> taskAt st j = Some tj ->
      executing ti = true -> executing tj = true -> i = j;
  th_flag : forall i t, taskAt st i = Some t -> executing t = true -> running st = true;
  th_queued : forall id, id ∈ q -> exists t, taskAt st id = Some t /\ taskPhase t = Queued;
  th_sorted : StronglySorted lt q;
  th_starts_sorted : StronglySorted lt (taskStarts (effects st));
  th_starts_before : forall s id, s ∈ taskStarts (effects st) -> id ∈ q -> (s < id)%nat;
  th_starts_bound : forall s, s ∈ taskStarts (effects st) -> (s < length (ops st))%nat;
  th_idle_empty : running st = false -> q = []
}.

(** The invariant, for the queue of the state. *)
Definition serialized (st : state) : Prop := throttled (fifo st) st.

(** ** Concrete inputs

    [path.join] and [path.dirname] are parameters of the development; the
    concrete runs at the end use the two functions below. *)

(** A stand-in for [path.join] and [path.dirname] in the runs below: the
    parts are glued with a slash, and the directory is what comes before
    the last slash. *)
Definition sampleJoin (a b : string) : string := a +:+ "/" +:+ b.

Fixpoint sampleDirname (s : string) : string :=
  match s with
  | EmptyString => EmptyString
  | String c rest =>
      if existsb (Ascii.eqb "/") (list_ascii_of_string rest)
      then String c (sampleDirname rest)
      else EmptyString
  end.

(** [a.txt] comes in two chunks, with the [close] of the archive between
    them. *)
Definition twoChunks : list readEvent :=
  [RData 0 [Byte.x61; Byte.x62]; RClose; RData 0 [Byte.x63]; REnd 0].

(** The options [extract] builds when no source path is given. *)
Definition everyEntry : IOptions := mkIOptions (RegExp.mk false [] false).

(** A directory, then a file whose write fails while the archive is
    already closed. *)
Definition beforeClose : list event :=
  [ZipEntry (mkEntry "d/" 0); ZipEntry (mkEntry "d/a.txt" 0); StreamOpened 1 None].

Definition afterClose : list event :=
  [MkdirpDone 1 None; SinkError 1 (mkError "ENOSPC")].

(** A file is being piped when the extraction is cancelled. *)
Definition untilPiping : list event :=
  [ZipEntry (mkEntry "a.txt" 0); StreamOpened 0 None; MkdirpDone 0 None].

(** The creation of the directory [d/] fails; the archive closes. *)
Definition mkdirpFails : environment :=
  mkEnv None None
    [ZipEntry (mkEntry "d/" 0); MkdirpDone 0 (Some (mkError "EACCES")); ZipClose].

(** The creation of [d/] fails, the creation of [e/], scheduled after it,
    succeeds; the archive closes. *)
Definition earlierMkdirpFails : environment :=
  mkEnv None None
    [ZipEntry (mkEntry "d/" 0); ZipEntry (mkEntry "e/" 0);
     MkdirpDone 0 (Some (mkError "EACCES")); MkdirpDone 1 None; ZipClose].

(** A corrupt archive, and [overwrite] set. *)
Definition corruptArchive : environment :=
  mkEnv (Some (mkError "end of central directory record signature not found")) None [].

(** Two files and a directory; the second file waits for the first. *)
Definition twoFiles : list event :=
  [ZipEntry (mkEntry "a.txt" 0); ZipEntry (mkEntry "b.txt" 0); ZipEntry (mkEntry "d/" 0);
   StreamOpened 1 None; StreamOpened 0 None; MkdirpDone 0 None; SinkClose 0].

(** * Vocabulary of the further properties *)

(** The special permission bits: set-user-id, set-group-id and sticky
    (octal 7000). *)
Definition specialBits : Z := 3584.

(** The bits [modeFromEntry] can keep: the file type and the nine
    permission bits (octal 170777). *)
Definition keptBits : Z := 61951.

(** A source path made of dots and of characters without a role in a
    pattern, as most paths are. *)
Definition dottedPath (p : string) : bool :=
  forallb (fun c => Ascii.eqb c "." || negb (RegExp.isSyntaxCharacter c))
    (list_ascii_of_string p).

(** The atom [new RegExp] reads for a character of a dotted path. *)
Definition atomOf (c : ascii) : RegExp.atom :=
  if Ascii.eqb c "." then RegExp.Dot else RegExp.Lit c.

(** The number of entries named [filePath] among the events. *)
Definition matchCount (filePath : string) (evs : list readEvent) : nat :=
  length (List.filter (fun ev => negb (noMatch filePath ev)) evs).

(** Where a rejection of [read] or [buffer] can come from, once the archive
    is open: the [close] handler, the failure to open a read stream, or an
    error event of a read stream. *)
Definition explained (filePath : string) (evs : list readEvent) (e : Error) : Prop :=
  e = notFound filePath
  \/ (exists k, In (ROpened k (Some e)) evs)
  \/ (exists k, In (RError k e) evs).

(** An event other than the cancellation of the extraction. *)
Definition notCancel (ev : event) : bool :=
  match ev with
  | Cancel => false
  | _ => true
  end.

(** An event other than the close signal of the archive. *)
Definition notClose (ev : event) : bool :=
  match ev with
  | ZipClose => false
  | _ => true
  end.

(** Before the first [close]: the handler has not run, the promise of
    [extractZip] waits for no operation and is not fulfilled. *)
Definition beforeFirstClose (st : state) : Prop :=
  closeFired st = false /\ joined st = None /\ outer st <> Settled (Fulfilled tt).

(** After the first [close], where [last] was [l0]: the promise of
    [extractZip] can only wait for [l0], and is fulfilled only if [l0]
    is. *)
Definition afterFirstClose (l0 : option nat) (st : state) : Prop :=
  closeFired st = true
  /\ (forall l, joined st = Some l -> l0 = Some l)
  /\ (outer st = Settled (Fulfilled tt) -> promiseOf st l0 = Settled (Fulfilled tt)).

(** An event other than an error of the archive and the cancellation of
    the extraction, the two events that settle the promise of
    [extractZip] without a look at [last]. *)
Definition undisturbed (ev : event) : bool :=
  match ev with
  | ZipError _ | Cancel => false
  | _ => true
  end.

(** The [close] handler has subscribed the promise of [extractZip] to the
    operation [l0]: the promise is pending and waits for [l0] as long as
    [l0] is pending, and has the outcome of [l0] once [l0] is settled. *)
Definition follows (l0 : option nat) (st : state) : Prop :=
  closeFired st = true
  /\ (forall l, l0 = Some l -> (l < length (ops st))%nat)
  /\ ((outer st = Pending /\ joined st = l0 /\ promiseOf st l0 = Pending)
      \/ exists o, outer st = Settled o /\ promiseOf st l0 = Settled o).

(** The entries the archive has delivered. *)
Definition entriesOf (evs : list event) : list Entry :=
  flat_map (fun ev => match ev with ZipEntry entry => [entry] | _ => [] end) evs.

(** The task [t] is the one queued for an entry of [seen] that is in scope
    and is not a directory: its name is the relative name of the entry and
    its mode the one [modeFromEntry] gives. *)
Definition fromEntry (re : RegExp.t) (seen : list Entry) (t : fileTask) : Prop :=
  exists entry,
    In entry seen
    /\ relativeFileName re (fileName entry) = Some (taskFileName t)
    /\ RegExp.test endsWithSlash (taskFileName t) = false
    /\ taskMode t = modeFromEntry entry.

(** The effect is accounted for by an entry of [seen] that is in scope: a
    directory is made at the place of a directory entry or at the parent
    of a file entry, a read stream is opened for a file entry, and a sink
    is created at the place of a file entry with the mode of that entry.
    Opening the archive and deleting the target belong to [extract], and
    starting a task, piping and closing touch no new path. *)
Definition accountedEffect (join : string -> string -> string) (dirname : string -> string)
    (targetPath : string) (re : RegExp.t) (seen : list Entry) (e : effect) : Prop :=
  match e with
  | EMkdirp p =>
      exists entry name,
        In entry seen
        /\ relativeFileName re (fileName entry) = Some name
        /\ p = join targetPath
                 (if RegExp.test endsWithSlash name then name else dirname name)
  | EOpenReadStream n =>
      exists entry name,
        In entry seen /\ fileName entry = n
        /\ relativeFileName re (fileName entry) = Some name
        /\ RegExp.test endsWithSlash name = false
  | ECreateWriteStream _ p m =>
      exists entry name,
        In entry seen
        /\ relativeFileName re (fileName entry) = Some name
        /\ RegExp.test endsWithSlash name = false
        /\ p = join targetPath name
        /\ m = modeFromEntry entry
  | EOpenZip _ | ERimraf _ | ETaskStart _ | EPipe _ | ECloseSink _ | EZipClose => True
  end.

(** Every task and every effect of the state is accounted for by [seen]. *)
Definition accounted (join : string -> string -> string) (dirname : string -> string)
    (targetPath : string) (re : RegExp.t) (seen : list Entry) (st : state) : Prop :=
  (forall id t, taskAt st id = Some t -> fromEntry re seen t)
  /\ Forall (accountedEffect join dirname targetPath re seen) (effects st).

(** The errors the archive handle and the file system have delivered. *)
Definition deliveredErrors (evs : list event) : list Error :=
  flat_map
    (fun ev =>
       match ev with
       | ZipError err | SinkError _ err | StreamError _ err => [err]
       | StreamOpened _ (Some err) | MkdirpDone _ (Some err) => [err]
       | _ => []
       end) evs.

(** Every error held by the state (by the promise of [extractZip], by the
    promise of an operation, by the promise of a read stream) is one of
    [known]. *)
Definition knownErrors (known : list Error) (st : state) : Prop :=
  (forall e, outer st = Settled (Rejected e) -> In e known)
  /\ (forall id e, promiseAt st id = Settled (Rejected e) -> In e known)
  /\ (forall id t e,
        taskAt st id = Some t -> taskStream t = Settled (Rejected e) -> In e known).

(** ** Further concrete inputs *)

(** The attribute word of a file of mode 104755 (set-user-id) written on
    Unix. *)
Definition setuidAttributes : Z := 2314010624.

(** A matching entry whose read stream is still being opened. *)
Definition matched : list readEvent := [REntry (mkEntry "a.txt" 0)].

(** One directory, made before the archive closes. *)
Definition oneDirectory : list event :=
  [ZipEntry (mkEntry "d/" 0); MkdirpDone 0 None; ZipClose].

(** An error of the archive and the failure of a directory, and no
    cancellation. *)
Definition twoFailures : list event :=
  [ZipEntry (mkEntry "d/" 0); ZipError (mkError "EBADF");
   MkdirpDone 0 (Some (mkError "EACCES"))].

(** An error of the archive after the only directory has been made. *)
Definition errorBeforeClose : list event :=
  [ZipEntry (mkEntry "d/" 0); MkdirpDone 0 None; ZipError (mkError "EBADF")].

(** What may still arrive after the promise of [extractZip] is settled. *)
Definition lateEvents : list event :=
  [ZipError (mkError "EBADF"); ZipClose; MkdirpDone 0 None; Cancel].

(** A directory and an executable under [src/], and a file elsewhere. *)
Definition scopedArchive : environment :=
  mkEnv None None
    [ZipEntry (mkEntry "src/d/" 0); ZipEntry (mkEntry "other/b.txt" 0);
     ZipEntry (mkEntry "src/run" 2179792896); StreamOpened 1 None; MkdirpDone 1 None;
     SinkClose 1; MkdirpDone 0 None; ZipClose].

(** The pattern [new RegExp] reads from [^src/]. *)
Definition underSrc : RegExp.t :=
  RegExp.mk true [RegExp.Lit "s"; RegExp.Lit "r"; RegExp.Lit "c"; RegExp.Lit "/"] false.

(** The deletion of the target fails. *)
Definition rimrafFails : environment := mkEnv None (Some (mkError "EPERM")) [ZipClose].

(** * Properties *)

(** ** Mode translation *)

Lemma ToInt32_small (x : Z) : - 2 ^ 31 <= x < 2 ^ 31 -> JS.ToInt32 x = x.
Proof.
  intros Hx. unfold JS.ToInt32.
  destruct (Z.neg_nonneg_cases x) as [Hneg | Hpos].
  - replace (x mod 2 ^ 32) with (x + 2 ^ 32).
    + destruct (Z.ltb_spec (x + 2 ^ 32) (2 ^ 31)); lia.
    + apply Z.mod_unique with (q := -1); lia.
  - rewrite Z.mod_small by lia.
    destruct (Z.ltb_spec x (2 ^ 31)); lia.
Qed.

(** Only the low 16 bits of [x] meet a mask below [2 ^ 16]. *)
Lemma land_low16 (x m : Z) :
  0 <= m < 2 ^ 16 -> Z.land x m = Z.land (x mod 2 ^ 16) m.
Proof.
  intros Hm.
  assert (Hones : Z.land m (Z.ones 16) = m).
  { rewrite Z.land_ones by lia. apply Z.mod_small. lia. }
  rewrite <- Hones at 1.
  rewrite (Z.land_comm m), Z.land_assoc, Z.land_ones by lia.
  reflexivity.
Qed.

Lemma land_mask_range (x m : Z) :
  0 <= m < 2 ^ 16 -> 0 <= Z.land x m < 2 ^ 16.
Proof.
  intros Hm.
  assert (Hones : Z.land m (Z.ones 16) = m).
  { rewrite Z.land_ones by lia. apply Z.mod_small. lia. }
  rewrite <- Hones, Z.land_assoc, Z.land_ones by lia.
  apply Z.mod_pos_bound. lia.
Qed.

Lemma band_mask (x m : Z) :
  - 2 ^ 31 <= x < 2 ^ 31 -> 0 <= m < 2 ^ 16 ->
  JS.band x m = Z.land (x mod 2 ^ 16) m.
Proof.
  intros Hx Hm. unfold JS.band.
  rewrite (ToInt32_small x) by exact Hx.
  rewrite (ToInt32_small m) by lia.
  rewrite ToInt32_small.
  - apply land_low16. exact Hm.
  - pose proof (land_mask_range x m Hm). lia.
Qed.

(** [a >> 16] on an unsigned 32-bit word: the high half, read as signed. *)
Lemma shr16_word (a : Z) :
  0 <= a < 2 ^ 32 ->
  JS.shr a 16 = if a <? 2 ^ 31 then Z.shiftr a 16 else Z.shiftr a 16 - 2 ^ 16.
Proof.
  intros Ha. unfold JS.shr, JS.ToInt32.
  change (Z.land 16 31) with 16.
  rewrite Z.mod_small by lia.
  destruct (Z.ltb_spec a (2 ^ 31)); [reflexivity |].
  rewrite !Z.shiftr_div_pow2 by lia.
  replace (a - 2 ^ 32) with (a + (- 2 ^ 16) * 2 ^ 16) by lia.
  rewrite Z.div_add by lia. lia.
Qed.

Lemma high16_range (a : Z) : 0 <= a < 2 ^ 32 -> 0 <= Z.shiftr a 16 < 2 ^ 16.
Proof.
  intros Ha. rewrite Z.shiftr_div_pow2 by lia. split.
  - apply Z.div_pos; lia.
  - apply Z.div_lt_upper_bound; lia.
Qed.

(** Disjoint masks: adding the two selections selects with the union. *)
Lemma land_add_disjoint (h m1 m2 : Z) :
  Z.land m1 m2 = 0 -> Z.land h m1 + Z.land h m2 = Z.land h (Z.lor m1 m2).
Proof.
  intros Hd.
  assert (Hz : Z.land (Z.land h m1) (Z.land h m2) = 0).
  { rewrite <- Z.land_assoc, (Z.land_comm m1), <- (Z.land_assoc h m2 m1).
    rewrite (Z.land_comm m2 m1), Hd, Z.land_0_r, Z.land_0_r. reflexivity. }
  rewrite Z.add_nocarry_lxor by exact Hz.
  rewrite Z.lxor_lor by exact Hz.
  rewrite Z.land_lor_distr_r. reflexivity.
Qed.

Lemma attr_low16 (a : Z) :
  0 <= a < 2 ^ 32 ->
  - 2 ^ 31 <= JS.or_else (JS.shr a 16) 33188 < 2 ^ 31 /\
  JS.or_else (JS.shr a 16) 33188 mod 2 ^ 16 = storedMode a.
Proof.
  intros Ha. pose proof (high16_range a Ha) as Hh.
  rewrite shr16_word by exact Ha. unfold JS.or_else, storedMode.
  destruct (Z.ltb_spec a (2 ^ 31)) as [Hlt | Hge].
  - destruct (Z.eqb_spec (Z.shiftr a 16) 0) as [E | E].
    + split; [lia | reflexivity].
    + split; [lia | apply Z.mod_small; lia].
  - assert (Hnz : Z.shiftr a 16 <> 0).
    { rewrite Z.shiftr_div_pow2 by lia. intros E.
      apply Z.div_small_iff in E; lia. }
    destruct (Z.eqb_spec (Z.shiftr a 16 - 2 ^ 16) 0) as [E | E]; [lia |].
    destruct (Z.eqb_spec (Z.shiftr a 16) 0) as [E' | E']; [lia |].
    split; [lia |].
    symmetry. apply Z.mod_unique with (q := -1); lia.
Qed.

(** C4: for every 32-bit attribute word [a], [modeFromEntry] is the sum of
    the file-type bits and the three permission groups of [h], where [h] is
    the high half of [a], or 33188 when that half is zero; that is, [h] with
    exactly the type and owner/group/other bits kept. *)
Theorem modeFromEntry_masks (name : string) (a : Z) :
  0 <= a < 2 ^ 32 ->
  let h := if Z.shiftr a 16 =? 0 then 33188 else Z.shiftr a 16 in
  modeFromEntry (mkEntry name a)
    = Z.land h 61440 + Z.land h 448 + Z.land h 56 + Z.land h 7
  /\ modeFromEntry (mkEntry name a) = Z.land h (61440 + 448 + 56 + 7).
Proof.
  intros Ha h.
  destruct (attr_low16 a Ha) as [Hr Hm].
  assert (Hsum : modeFromEntry (mkEntry name a)
            = Z.land h 61440 + Z.land h 448 + Z.land h 56 + Z.land h 7).
  { unfold modeFromEntry. cbn [externalFileAttributes map fold_left].
    rewrite !band_mask by (exact Hr || lia).
    rewrite Hm. reflexivity. }
  split; [exact Hsum |].
  rewrite Hsum.
  rewrite (land_add_disjoint h 61440 448) by reflexivity.
  rewrite (land_add_disjoint h _ 56) by reflexivity.
  rewrite (land_add_disjoint h _ 7) by reflexivity.
  reflexivity.
Qed.

(** ** Error mapping *)

Lemma toExtractError_eq (e : Error) :
  toExtractError e = mkExtractError ("Corrupt ZIP: " +:+ message e) CorruptZip e.
Proof.
  unfold toExtractError.
  destruct (RegExp.test endOfCentralDirectoryRegex (message e)); reflexivity.
Qed.

(** C5: whatever the raw error, and whether or not its message matches the
    end-of-central-directory pattern, [toExtractError] gives an
    [ExtractError] of type [CorruptZip], with the message prefixed by
    "Corrupt ZIP: " and the raw error as cause. *)
Theorem toExtractError_corrupt (e : Error) (matched : bool) :
  RegExp.test endOfCentralDirectoryRegex (message e) = matched ->
  errorType (toExtractError e) = Some CorruptZip
  /\ message (toExtractError e) = "Corrupt ZIP: " +:+ message e
  /\ errorCause (toExtractError e) = Some e.
Proof.
  intros _. rewrite toExtractError_eq. repeat split.
Qed.

(** ** Entry filter *)

Lemma matchHere_literal (p s : string) :
  RegExp.matchHere (map RegExp.Lit (list_ascii_of_string p)) false s = stripPrefix p s.
Proof.
  revert s. induction p as [| c p IH]; intros s; cbn.
  - reflexivity.
  - destruct s as [| d s]; [reflexivity |].
    rewrite (Ascii.eqb_sym d c).
    destruct (Ascii.eqb c d); [apply IH | reflexivity].
Qed.

Lemma parseAtoms_plain (p : string) :
  plainPath p = true ->
  RegExp.parseAtoms p = Some (map RegExp.Lit (list_ascii_of_string p), false).
Proof.
  unfold plainPath. induction p as [| c p IH]; cbn [list_ascii_of_string forallb map].
  - reflexivity.
  - intros H. apply andb_true_iff in H as [Hc Hp].
    cbn [RegExp.parseAtoms].
    destruct (Ascii.eqb_spec c "$") as [-> | _]; [discriminate Hc |].
    destruct (Ascii.eqb_spec c ".") as [-> | _]; [discriminate Hc |].
    apply negb_true_iff in Hc. rewrite Hc, (IH Hp). reflexivity.
Qed.

(** With no source path every entry is kept under its own name. *)
Lemma relativeFileName_absent (ow : option bool) (entryName : string) :
  exists re,
    newSourcePathRegex (mkOptions ow None) = Some re
    /\ relativeFileName re entryName = Some entryName.
Proof.
  eexists. split; [reflexivity |].
  unfold relativeFileName, RegExp.test, RegExp.replace, RegExp.exec.
  cbn. destruct entryName; reflexivity.
Qed.

(** On a source path free of pattern syntax the filter of the code is the
    literal prefix filter. *)
Lemma relativeFileName_plain (ow : option bool) (p entryName : string) :
  plainPath p = true ->
  exists re,
    newSourcePathRegex (mkOptions ow (Some p)) = Some re
    /\ relativeFileName re entryName = filter_spec entryName (Some p).
Proof.
  intros Hp. destruct p as [| c p].
  - eexists. split; [reflexivity |].
    unfold relativeFileName, RegExp.test, RegExp.replace, RegExp.exec.
    cbn. destruct entryName; reflexivity.
  - exists (RegExp.mk true (map RegExp.Lit (list_ascii_of_string (String c p))) false).
    split.
    + unfold newSourcePathRegex, sourcePathPattern. cbn [sourcePath JS.truthy_string].
      cbn [String.eqb negb]. change ("^" +:+ String c p) with (String "^" (String c p)).
      cbn [RegExp.new]. rewrite (parseAtoms_plain _ Hp). reflexivity.
    + unfold relativeFileName, RegExp.test, RegExp.replace, RegExp.exec.
      cbn [RegExp.anchorStart RegExp.atoms RegExp.anchorEnd filter_spec].
      rewrite matchHere_literal.
      destruct (stripPrefix (String c p) entryName); reflexivity.
Qed.

(** C2: the pattern is built from the source path without escaping it, so a
    source path with a pattern character is not compared as a literal
    string: [a.b] lets the entry [axb/f] in, although [axb/f] does not
    start with [a.b]. *)
Theorem sourcePath_read_as_pattern :
  exists re,
    newSourcePathRegex (mkOptions None (Some "a.b")) = Some re
    /\ relativeFileName re "axb/f" = Some "/f"
    /\ filter_spec "axb/f" (Some "a.b") = None.
Proof.
  eexists. split; [reflexivity |]. split; reflexivity.
Qed.

(** ** Single-entry reader and buffer reader *)

Lemma readRun_cons (filePath : string) (ev : readEvent) (evs : list readEvent) (st : readState) :
  readRun filePath (ev :: evs) st = readRun filePath evs (readStep filePath st ev).
Proof. reflexivity. Qed.

Lemma scanning_step (filePath : string) (st : readState) (ev : readEvent) :
  noMatch filePath ev = true -> scanning filePath st ->
  scanning filePath (readStep filePath st ev).
Proof.
  intros Hev [Hopen Hst].
  assert (Hlisten : forall k, listening k st = false).
  { intros k. unfold listening.
    destruct (readCloseFired st); destruct Hst as [-> _]; reflexivity. }
  destruct ev as [entry | | k r | k b | k | k err]; cbn [readStep noMatch] in *.
  - apply negb_true_iff in Hev. rewrite Hev. split; assumption.
  - destruct (readCloseFired st) eqn:Hfired.
    + split; [assumption |]. rewrite Hfired. assumption.
    + destruct Hst as [Hr Hb]. unfold settleRead. cbn. rewrite Hr.
      split; [assumption |]. cbn. split; reflexivity.
  - rewrite Hopen. cbn. split; assumption.
  - rewrite Hlisten. split; assumption.
  - rewrite Hlisten. split; assumption.
  - rewrite Hlisten. cbn. split; assumption.
Qed.

Lemma scanning_run (filePath : string) (evs : list readEvent) (st : readState) :
  forallb (noMatch filePath) evs = true -> scanning filePath st ->
  scanning filePath (readRun filePath evs st).
Proof.
  revert st. induction evs as [| ev evs IH]; intros st Hall Hst; cbn in *.
  - exact Hst.
  - apply andb_true_iff in Hall as [Hev Hall].
    apply IH; [exact Hall |]. apply scanning_step; assumption.
Qed.

Lemma scanning_close (filePath : string) (st : readState) :
  scanning filePath st ->
  readPromise (readStep filePath st RClose) = Settled (Rejected (notFound filePath))
  /\ bufferPromise (readStep filePath st RClose) = Settled (Rejected (notFound filePath)).
Proof.
  intros Hst.
  destruct (scanning_step filePath st RClose eq_refl Hst) as [_ Hafter].
  assert (Hfired : readCloseFired (readStep filePath st RClose) = true).
  { cbn. destruct (readCloseFired st) eqn:E; [exact E |].
    unfold settleRead. cbn. destruct (readPromise st); reflexivity. }
  rewrite Hfired in Hafter. exact Hafter.
Qed.

(** C8: when the archive closes and no entry named [filePath] has come,
    [read], and [buffer] with it, reject with the not-found error, whose
    message names [filePath]. *)
Theorem read_not_found (filePath : string) (evs : list readEvent) :
  forallb (noMatch filePath) evs = true ->
  read None (evs ++ [RClose]) filePath = Settled (Rejected (notFound filePath))
  /\ buffer None (evs ++ [RClose]) filePath = Settled (Rejected (notFound filePath))
  /\ message (notFound filePath) = filePath +:+ " not found inside zip.".
Proof.
  intros Hall.
  assert (Hscan : scanning filePath (readRun filePath evs readInitial)).
  { apply scanning_run; [exact Hall |]. split; [reflexivity |]. cbn. split; reflexivity. }
  destruct (scanning_close filePath _ Hscan) as [Hr Hb].
  unfold read, buffer. cbn [openZip ofCallback wrapExtractError].
  rewrite fold_left_app. cbn [fold_left].
  split; [exact Hr |]. split; [exact Hb |]. reflexivity.
Qed.

Lemma unread_step (filePath : string) (st : readState) (ev : readEvent) :
  unread st -> unread (readStep filePath st ev).
Proof.
  intros Hst.
  destruct (readPromise st) as [| o] eqn:Hr.
  - destruct (Hst Hr) as (Hb & Hbs & He).
    assert (Hlisten : forall k, listening k st = false).
    { intros k. unfold listening. rewrite Hr. reflexivity. }
    destruct ev as [entry | | k r | k b | k | k err]; cbn [readStep].
    + destruct (String.eqb _ _); intros _; cbn; auto.
    + destruct (readCloseFired st); [intros _; auto |].
      unfold settleRead. cbn. rewrite Hr. cbn. discriminate.
    + destruct (Nat.ltb k (opened st)); [| intros _; auto].
      destruct r; unfold settleRead; rewrite Hr; cbn; discriminate.
    + rewrite Hlisten. intros _; auto.
    + rewrite Hlisten. intros _; auto.
    + rewrite Hlisten. cbn. intros _; auto.
  - assert (Hkeep : readPromise (readStep filePath st ev) = Settled o).
    { destruct ev as [entry | | k r | k b | k | k err]; cbn [readStep].
      + destruct (String.eqb _ _); first [exact Hr | reflexivity].
      + destruct (readCloseFired st); [first [exact Hr | reflexivity] |].
        unfold settleRead. cbn. rewrite Hr. cbn. first [exact Hr | reflexivity].
      + destruct (Nat.ltb k (opened st)); [| first [exact Hr | reflexivity]].
        destruct r; unfold settleRead; rewrite Hr; first [exact Hr | reflexivity].
      + destruct (listening k st); first [exact Hr | reflexivity].
      + destruct (listening k st); [| first [exact Hr | reflexivity]].
        unfold settleBuffer. destruct (bufferPromise st); first [exact Hr | reflexivity].
      + destruct (listening k st && negb (streamErrorFired st)); [| first [exact Hr | reflexivity]].
        unfold settleBuffer. cbn. destruct (bufferPromise st); first [exact Hr | reflexivity]. }
    intros E. rewrite Hkeep in E. discriminate E.
Qed.

Lemma unread_run (filePath : string) (evs : list readEvent) (st : readState) :
  unread st -> unread (readRun filePath evs st).
Proof.
  revert st. induction evs as [| ev evs IH]; intros st Hst; cbn.
  - exact Hst.
  - apply IH. apply unread_step. exact Hst.
Qed.

(** A settled [buffer] promise is not touched once [read] is fulfilled. *)
Lemma buffer_settled_run (filePath : string) (evs : list readEvent) (st : readState)
    (k : nat) (o : outcome Buffer) :
  readPromise st = Settled (Fulfilled k) -> bufferPromise st = Settled o ->
  bufferPromise (readRun filePath evs st) = Settled o.
Proof.
  revert st. induction evs as [| ev evs IH]; intros st Hr Hb; cbn.
  - first [exact Hb | reflexivity | congruence].
  - apply IH.
    + destruct ev as [entry | | k' r | k' b | k' | k' err]; cbn [readStep].
      * destruct (String.eqb _ _); first [exact Hr | reflexivity].
      * destruct (readCloseFired st); [first [exact Hr | reflexivity] |].
        unfold settleRead. cbn. rewrite Hr. cbn. first [exact Hr | reflexivity].
      * destruct (Nat.ltb k' (opened st)); [| first [exact Hr | reflexivity]].
        destruct r; unfold settleRead; rewrite Hr; first [exact Hr | reflexivity].
      * destruct (listening k' st); first [exact Hr | reflexivity].
      * destruct (listening k' st); [| first [exact Hr | reflexivity]].
        unfold settleBuffer. rewrite Hb. first [exact Hr | reflexivity].
      * destruct (listening k' st && negb (streamErrorFired st)); [| first [exact Hr | reflexivity]].
        unfold settleBuffer. cbn. rewrite Hb. first [exact Hr | reflexivity].
    + destruct ev as [entry | | k' r | k' b | k' | k' err]; cbn [readStep].
      * destruct (String.eqb _ _); first [exact Hb | reflexivity | congruence].
      * destruct (readCloseFired st); [first [exact Hb | reflexivity | congruence] |].
        unfold settleRead. cbn. rewrite Hr. cbn. first [exact Hb | reflexivity | congruence].
      * destruct (Nat.ltb k' (opened st)); [| first [exact Hb | reflexivity | congruence]].
        destruct r; unfold settleRead; rewrite Hr; first [exact Hb | reflexivity | congruence].
      * destruct (listening k' st); first [exact Hb | reflexivity | congruence].
      * destruct (listening k' st); [| first [exact Hb | reflexivity | congruence]].
        unfold settleBuffer. rewrite Hb. first [exact Hb | reflexivity | congruence].
      * destruct (listening k' st && negb (streamErrorFired st)); [| first [exact Hb | reflexivity | congruence]].
        unfold settleBuffer. cbn. rewrite Hb. first [exact Hb | reflexivity | congruence].
Qed.

(** Events that are not of stream [k] leave what [buffer] collects alone. *)
Lemma step_other_stream (filePath : string) (k : nat) (st : readState) (ev : readEvent) :
  ofStream k ev = false -> readPromise st = Settled (Fulfilled k) ->
  readPromise (readStep filePath st ev) = readPromise st
  /\ bufferPromise (readStep filePath st ev) = bufferPromise st
  /\ buffers (readStep filePath st ev) = buffers st
  /\ streamErrorFired (readStep filePath st ev) = streamErrorFired st.
Proof.
  intros Hev Hr.
  assert (Hlisten : forall k', Nat.eqb k' k = false -> listening k' st = false).
  { intros k' E. unfold listening. rewrite Hr. exact E. }
  destruct ev as [entry | | k' r | k' b | k' | k' err]; cbn [readStep ofStream] in *.
  - destruct (String.eqb _ _); auto.
  - destruct (readCloseFired st); [auto |].
    unfold settleRead. cbn. rewrite Hr. cbn. auto.
  - destruct (Nat.ltb k' (opened st)); [| auto].
    destruct r; unfold settleRead; rewrite Hr; auto.
  - rewrite (Hlisten _ Hev). auto.
  - rewrite (Hlisten _ Hev). auto.
  - rewrite (Hlisten _ Hev). cbn. auto.
Qed.

Lemma listening_self (k : nat) (st : readState) :
  readPromise st = Settled (Fulfilled k) -> listening k st = true.
Proof. intros Hr. unfold listening. rewrite Hr. apply Nat.eqb_refl. Qed.

(** The chunks of stream [k] are pushed in arrival order and joined at
    [end]. *)
Lemma collect_until_end (filePath : string) (k : nat) (post : list readEvent) :
  forall (st : readState) (chunks : list Buffer),
  readPromise st = Settled (Fulfilled k) -> bufferPromise st = Pending ->
  streamTrace k post = map (RData k) chunks ++ [REnd k] ->
  bufferPromise (readRun filePath post st)
    = Settled (Fulfilled (concat (buffers st ++ chunks))).
Proof.
  induction post as [| ev post IH]; intros st chunks Hr Hb Htrace.
  - destruct chunks; discriminate Htrace.
  - rewrite readRun_cons. unfold streamTrace in Htrace. cbn [List.filter] in Htrace.
    destruct (ofStream k ev) eqn:Hev.
    + destruct ev as [entry | | k' r | k' b | k' | k' err]; try discriminate Hev;
        cbn [ofStream] in Hev; apply Nat.eqb_eq in Hev; subst k'.
      * destruct chunks as [| c cs]; [discriminate Htrace |].
        cbn [map app] in Htrace. injection Htrace as -> Htrace.
        cbn [readStep]. rewrite (listening_self _ _ Hr).
        rewrite (IH _ cs); [| exact Hr | exact Hb | exact Htrace].
        cbn [buffers]. rewrite <- app_assoc. reflexivity.
      * destruct chunks as [| c cs]; [| discriminate Htrace].
        cbn [readStep]. rewrite (listening_self _ _ Hr).
        unfold settleBuffer. rewrite Hb.
        rewrite (buffer_settled_run filePath post _ k (Fulfilled (concat (buffers st))));
          [rewrite app_nil_r; reflexivity | exact Hr | reflexivity].
      * destruct chunks as [| c cs]; discriminate Htrace.
    + destruct (step_other_stream filePath k st ev Hev Hr) as (Er & Eb & Ebs & _).
      rewrite (IH _ chunks); [| congruence | congruence | exact Htrace].
      rewrite Ebs. reflexivity.
Qed.

(** An error of stream [k] that comes before its end rejects [buffer]. *)
Lemma collect_until_error (filePath : string) (k : nat) (post : list readEvent) :
  forall (st : readState) (chunks : list Buffer) (err : Error) (rest : list readEvent),
  readPromise st = Settled (Fulfilled k) -> bufferPromise st = Pending ->
  streamErrorFired st = false ->
  streamTrace k post = map (RData k) chunks ++ RError k err :: rest ->
  bufferPromise (readRun filePath post st) = Settled (Rejected err).
Proof.
  induction post as [| ev post IH]; intros st chunks err rest Hr Hb He Htrace.
  - destruct chunks; discriminate Htrace.
  - rewrite readRun_cons. unfold streamTrace in Htrace. cbn [List.filter] in Htrace.
    destruct (ofStream k ev) eqn:Hev.
    + destruct ev as [entry | | k' r | k' b | k' | k' err']; try discriminate Hev;
        cbn [ofStream] in Hev; apply Nat.eqb_eq in Hev; subst k'.
      * destruct chunks as [| c cs]; [discriminate Htrace |].
        cbn [map app] in Htrace. injection Htrace as -> Htrace.
        cbn [readStep]. rewrite (listening_self _ _ Hr).
        apply (IH _ cs err rest); [exact Hr | exact Hb | exact He | exact Htrace].
      * destruct chunks as [| c cs]; discriminate Htrace.
      * destruct chunks as [| c cs]; [| discriminate Htrace].
        cbn [map app] in Htrace. injection Htrace as -> _.
        cbn [readStep]. rewrite (listening_self _ _ Hr), He. cbn [negb andb].
        unfold settleBuffer. cbn. rewrite Hb.
        apply (buffer_settled_run filePath post _ k); [exact Hr | reflexivity].
    + destruct (step_other_stream filePath k st ev Hev Hr) as (Er & Eb & _ & Ee).
      apply (IH _ chunks err rest); [congruence | congruence | congruence | exact Htrace].
Qed.

(** C9: once [read] has resolved with a stream, [buffer] resolves with the
    chunks of that stream joined in arrival order when the stream ends, and
    rejects with the stream's error when the error comes before the end. *)
Theorem buffer_collects (filePath : string) (pre post : list readEvent) (k : nat)
    (chunks : list Buffer) :
  readPromise (readRun filePath pre readInitial) = Pending ->
  (k < opened (readRun filePath pre readInitial))%nat ->
  (streamTrace k post = map (RData k) chunks ++ [REnd k] ->
   buffer None (pre ++ ROpened k None :: post) filePath
     = Settled (Fulfilled (concat chunks)))
  /\ (forall err rest,
        streamTrace k post = map (RData k) chunks ++ RError k err :: rest ->
        buffer None (pre ++ ROpened k None :: post) filePath = Settled (Rejected err)).
Proof.
  intros Hpending Hopened.
  set (st0 := readRun filePath pre readInitial) in *.
  assert (Hun : unread st0).
  { apply unread_run. intros _. repeat split. }
  destruct (Hun Hpending) as (Hb & Hbs & He).
  set (st1 := readStep filePath st0 (ROpened k None)).
  assert (H1 : readPromise st1 = Settled (Fulfilled k)
               /\ bufferPromise st1 = Pending /\ buffers st1 = []
               /\ streamErrorFired st1 = false).
  { subst st1. cbn [readStep].
    apply Nat.ltb_lt in Hopened. rewrite Hopened.
    unfold settleRead. rewrite Hpending. cbn. auto. }
  destruct H1 as (Hr1 & Hb1 & Hbs1 & He1).
  assert (Hrun : bufferPromise (fold_left (readStep filePath) (pre ++ ROpened k None :: post) readInitial)
                 = bufferPromise (readRun filePath post st1)).
  { rewrite fold_left_app. reflexivity. }
  unfold buffer. cbn [openZip ofCallback wrapExtractError]. rewrite Hrun.
  split.
  - intros Htrace.
    rewrite (collect_until_end filePath k post st1 chunks Hr1 Hb1 Htrace).
    rewrite Hbs1. reflexivity.
  - intros err rest Htrace.
    apply (collect_until_error filePath k post st1 chunks err rest Hr1 Hb1 He1 Htrace).
Qed.

(** ** The extraction driver *)

Lemma advances_refl (st : state) : advances st st.
Proof.
  constructor; try reflexivity; auto.
  exists []. rewrite app_nil_r. split; reflexivity.
Qed.

Lemma promise_pending_or_settled (p : promise unit) :
  p = Pending \/ exists o, p = Settled o.
Proof. destruct p as [| o]; [left; reflexivity | right; exists o; reflexivity]. Qed.

Lemma advances_trans (st1 st2 st3 : state) :
  advances st1 st2 -> advances st2 st3 -> advances st1 st3.
Proof.
  intros A B. constructor.
  - rewrite (adv_canceled _ _ B). apply A.
  - rewrite (adv_last _ _ B). apply A.
  - rewrite (adv_close _ _ B). apply A.
  - rewrite (adv_error _ _ B). apply A.
  - rewrite (adv_joined _ _ B). apply A.
  - rewrite (adv_length _ _ B). apply A.
  - intros id o H. apply (adv_settled _ _ B), (adv_settled _ _ A), H.
  - intros o H. apply (adv_outer _ _ B), (adv_outer _ _ A), H.
  - intros Hp. destruct (adv_link _ _ A Hp) as [[Hp2 Hkeep] | (l & o & Hj & Hl & Hl2 & Ho2)].
    + destruct (adv_link _ _ B Hp2) as [[Hp3 Hkeep3] | (l & o & Hj & Hl & Hl3 & Ho3)].
      * left. split; [exact Hp3 |]. intros l Hj Hl.
        apply Hkeep3; [rewrite (adv_joined _ _ A); exact Hj |]. apply Hkeep; assumption.
      * right. exists l, o. rewrite (adv_joined _ _ A) in Hj.
        split; [exact Hj |]. split; [| split; assumption].
        destruct (promise_pending_or_settled (promiseAt st1 l)) as [E | [o' E]]; [exact E |].
        rewrite (adv_settled _ _ A _ _ E) in Hl. discriminate Hl.
    + right. exists l, o. split; [exact Hj |]. split; [exact Hl |]. split.
      * apply (adv_settled _ _ B), Hl2.
      * apply (adv_outer _ _ B), Ho2.
  - destruct (adv_effects _ _ A) as (m1 & E1 & F1).
    destruct (adv_effects _ _ B) as (m2 & E2 & F2).
    exists (m1 ++ m2). split.
    + rewrite E2, E1, app_assoc. reflexivity.
    + rewrite forallb_app, F1, F2. reflexivity.
Qed.

(** Changes that touch neither the operations nor the two promises. *)
Lemma advances_same_ops (st st' : state) (more : list effect) :
  isCanceled st' = isCanceled st -> last st' = last st ->
  closeFired st' = closeFired st -> errorFired st' = errorFired st ->
  joined st' = joined st -> ops st' = ops st -> outer st' = outer st ->
  effects st' = effects st ++ more -> forallb driverEffect more = true ->
  advances st st'.
Proof.
  intros Hc Hl Hcl He Hj Hops Ho Heff Hmore.
  assert (Hp : forall id, promiseAt st' id = promiseAt st id).
  { intros id. unfold promiseAt. rewrite Hops. reflexivity. }
  constructor; try assumption.
  - rewrite Hops. reflexivity.
  - intros id o H. rewrite Hp. exact H.
  - intros o H. rewrite Ho. exact H.
  - intros H. left. split; [rewrite Ho; exact H |]. intros l _ Hpl. rewrite Hp. exact Hpl.
  - exists more. split; assumption.
Qed.

Lemma advances_emit (e : effect) (st : state) :
  driverEffect e = true -> advances st (emit e st).
Proof.
  intros He. apply (advances_same_ops st (emit e st) [e]); try reflexivity.
  cbn. rewrite He. reflexivity.
Qed.

Lemma advances_setFifo (q : list nat) (st : state) : advances st (setFifo q st).
Proof.
  apply (advances_same_ops st (setFifo q st) []); try reflexivity.
  cbn. rewrite app_nil_r. reflexivity.
Qed.

Lemma advances_setRunning (b : bool) (st : state) : advances st (setRunning b st).
Proof.
  apply (advances_same_ops st (setRunning b st) []); try reflexivity.
  cbn. rewrite app_nil_r. reflexivity.
Qed.

Lemma promiseAt_insert (st : state) (id i : nat) (x : op) :
  (id < length (ops st))%nat ->
  promiseAt (setOps (<[id := x]> (ops st)) st) i
    = if decide (id = i) then opPromise x else promiseAt st i.
Proof.
  intros Hlt. unfold promiseAt. cbn [ops setOps].
  destruct (decide (id = i)) as [-> | Hne].
  - rewrite list_lookup_insert_eq by exact Hlt. reflexivity.
  - rewrite list_lookup_insert_ne by exact Hne. reflexivity.
Qed.

(** A task is replaced by a task that stands for the same promise: every
    promise stays as it is. *)
Lemma advances_setTask (id : nat) (t t' : fileTask) (st : state) :
  taskAt st id = Some t ->
  opPromise (FileOp t') = opPromise (FileOp t) ->
  advances st (setTask id t' st).
Proof.
  intros Ht Hp.
  assert (Hlook : ops st !! id = Some (FileOp t)).
  { unfold taskAt in Ht. destruct (ops st !! id) as [[? ? | t0] |]; congruence. }
  assert (Hlt : (id < length (ops st))%nat) by (eapply lookup_lt_Some; exact Hlook).
  assert (Hsame : forall i, promiseAt (setTask id t' st) i = promiseAt st i).
  { intros i. unfold setTask. rewrite promiseAt_insert by exact Hlt.
    destruct (decide (id = i)) as [<- | _]; [| reflexivity].
    unfold promiseAt. rewrite Hlook. exact Hp. }
  constructor; try reflexivity.
  - unfold setTask. cbn. apply length_insert.
  - intros i o H. rewrite Hsame. exact H.
  - intros o H. exact H.
  - intros H. left. split; [exact H |]. intros l _ Hl. rewrite Hsame. exact Hl.
  - exists []. cbn. rewrite app_nil_r. split; reflexivity.
Qed.

(** A pending operation settles. *)
Lemma advances_settleOp (id : nat) (o : outcome unit) (st : state) :
  promiseAt st id = Pending -> advances st (settleOp id o st).
Proof.
  intros Hp. unfold settleOp.
  destruct (ops st !! id) as [x |] eqn:Hlook; [| apply advances_refl].
  assert (Hlt : (id < length (ops st))%nat) by (eapply lookup_lt_Some; exact Hlook).
  set (st1 := setOps (<[id := withOutcome o x]> (ops st)) st).
  assert (Hx : opPromise (withOutcome o x) = Settled o) by (destruct x; reflexivity).
  assert (Hat : forall i, promiseAt st1 i = if decide (id = i) then Settled o else promiseAt st i).
  { intros i. subst st1. rewrite promiseAt_insert by exact Hlt. rewrite Hx. reflexivity. }
  assert (Hkeep : forall i o', promiseAt st i = Settled o' -> promiseAt st1 i = Settled o').
  { intros i o' H. rewrite Hat. destruct (decide (id = i)) as [<- | _]; [congruence | exact H]. }
  cbn [joined setOps] in *. change (joined st1) with (joined st).
  destruct (decide (joined st = Some id)) as [Hj | Hj].
  - unfold settleOuter. change (outer st1) with (outer st).
    destruct (outer st) as [| oo] eqn:Ho.
    + constructor; try reflexivity.
      * cbn. apply length_insert.
      * exact Hkeep.
      * intros o' H. rewrite Ho in H. discriminate H.
      * intros _. right. exists id, o. split; [exact Hj |]. split; [exact Hp |].
        split; [| reflexivity].
        change (promiseAt (setOuter (Settled o) st1) id) with (promiseAt st1 id).
        rewrite Hat. destruct (decide (id = id)); [reflexivity | contradiction].
      * exists []. cbn. rewrite app_nil_r. split; reflexivity.
    + constructor; try reflexivity.
      * cbn. apply length_insert.
      * exact Hkeep.
      * intros o' H. subst st1. cbn. rewrite Ho in *. exact H.
      * intros H. rewrite Ho in H. discriminate H.
      * exists []. cbn. rewrite app_nil_r. split; reflexivity.
  - constructor; try reflexivity.
    + cbn. apply length_insert.
    + exact Hkeep.
    + intros o' H. exact H.
    + intros H. left. split; [exact H |]. intros l Hl Hpl.
      rewrite Hat. destruct (decide (id = l)) as [<- | _]; [contradiction | exact Hpl].
    + exists []. cbn. rewrite app_nil_r. split; reflexivity.
Qed.

Lemma taskAt_lookup (st : state) (id : nat) (t : fileTask) :
  taskAt st id = Some t <-> ops st !! id = Some (FileOp t).
Proof.
  unfold taskAt. split.
  - destruct (ops st !! id) as [[? ? | t0] |]; congruence.
  - intros ->. reflexivity.
Qed.

Lemma taskAt_promiseAt (st : state) (id : nat) (t : fileTask) :
  taskAt st id = Some t -> promiseAt st id = opPromise (FileOp t).
Proof.
  intros H. apply taskAt_lookup in H. unfold promiseAt. rewrite H. reflexivity.
Qed.

Lemma taskAt_setTask (id i : nat) (t t' : fileTask) (st : state) :
  taskAt st id = Some t ->
  taskAt (setTask id t' st) i = if decide (id = i) then Some t' else taskAt st i.
Proof.
  intros H. apply taskAt_lookup in H.
  assert (Hlt : (id < length (ops st))%nat) by (eapply lookup_lt_Some; exact H).
  unfold taskAt, setTask. cbn [ops setOps].
  destruct (decide (id = i)) as [-> | Hne].
  - rewrite list_lookup_insert_eq by exact Hlt. reflexivity.
  - rewrite list_lookup_insert_ne by exact Hne. reflexivity.
Qed.

(** Split off the effect issued first. *)
Ltac emit_first :=
  cbv zeta;
  match goal with
  | |- advances ?st ?rhs =>
      match rhs with
      | context [emit ?e st] =>
          apply (advances_trans st (emit e st)); [apply advances_emit; reflexivity |]
      end
  end.

Section ExtractionProperties.

Variable join : string -> string -> string.
Variable dirname : string -> string.
Variable targetPath : string.

Lemma advances_extractEntry (id : nat) (t0 t : fileTask) (st : state) :
  taskAt st id = Some t0 -> opPromise (FileOp t0) = Pending ->
  advances st (extractEntry join dirname id t targetPath st).
Proof.
  intros Ht Hp. unfold extractEntry.
  emit_first.
  apply (advances_setTask id t0); [exact Ht | rewrite Hp; reflexivity].
Qed.

Lemma advances_openSink (id : nat) (t0 t : fileTask) (st : state) :
  taskAt st id = Some t0 -> opPromise (FileOp t0) = Pending ->
  advances st (openSink join id t targetPath st).
Proof.
  intros Ht Hp. unfold openSink.
  emit_first.
  emit_first.
  apply (advances_setTask id t0); [exact Ht | rewrite Hp; reflexivity].
Qed.

Lemma advances_startTask (id : nat) (st : state) :
  advances st (fst (startTask join dirname id targetPath st)).
Proof.
  unfold startTask.
  destruct (ops st !! id) as [[path p | t] |] eqn:Hlook; try apply advances_refl.
  assert (Ht : taskAt st id = Some t) by (apply taskAt_lookup; exact Hlook).
  destruct (taskPhase t) eqn:Hph; try apply advances_refl.
  assert (Hp : opPromise (FileOp t) = Pending) by (cbn; rewrite Hph; reflexivity).
  destruct (taskStream t) as [| [u | e |]]; cbn [fst].
  - emit_first.
    apply (advances_setTask id t); [exact Ht | rewrite Hp; reflexivity].
  - emit_first.
    apply (advances_extractEntry id t); [exact Ht | exact Hp].
  - emit_first.
    apply advances_settleOp. rewrite <- Hp. apply taskAt_promiseAt. exact Ht.
  - emit_first.
    apply advances_settleOp. rewrite <- Hp. apply taskAt_promiseAt. exact Ht.
Qed.

Lemma advances_throttlerNext (q : list nat) (st : state) :
  advances st (throttlerNext join dirname q targetPath st).
Proof.
  revert st. induction q as [| id q IH]; intros st; cbn [throttlerNext].
  - eapply advances_trans; [apply advances_setFifo | apply advances_setRunning].
  - pose proof (advances_startTask id (setFifo q st)) as Hs.
    destruct (startTask join dirname id targetPath (setFifo q st)) as [st' busy].
    cbn [fst] in Hs.
    assert (H0 : advances st st').
    { eapply advances_trans; [apply advances_setFifo | exact Hs]. }
    destruct busy; [exact H0 |].
    eapply advances_trans; [exact H0 | apply IH].
Qed.

Lemma advances_throttlerQueue (id : nat) (st : state) :
  advances st (throttlerQueue join dirname id targetPath st).
Proof.
  unfold throttlerQueue. destruct (running st).
  - apply advances_setFifo.
  - pose proof (advances_startTask id (setRunning true st)) as Hs.
    destruct (startTask join dirname id targetPath (setRunning true st)) as [st' busy].
    cbn [fst] in Hs.
    assert (H0 : advances st st').
    { eapply advances_trans; [apply advances_setRunning | exact Hs]. }
    destruct busy; [exact H0 |].
    eapply advances_trans; [exact H0 | apply advances_throttlerNext].
Qed.

Lemma advances_taskDone (id : nat) (o : outcome unit) (st : state) :
  promiseAt st id = Pending ->
  advances st (taskDone join dirname id o targetPath st).
Proof.
  intros Hp. unfold taskDone.
  eapply advances_trans; [apply advances_settleOp; exact Hp |].
  apply advances_throttlerNext.
Qed.

Lemma advances_onStreamOpened (id : nat) (r : option Error) (st : state) :
  advances st (onStreamOpened join dirname id r targetPath st).
Proof.
  unfold onStreamOpened.
  destruct (ops st !! id) as [[path p | t] |] eqn:Hlook; try apply advances_refl.
  assert (Ht : taskAt st id = Some t) by (apply taskAt_lookup; exact Hlook).
  destruct (taskStream t) as [| so]; [| apply advances_refl].
  cbn [taskPhase withStream].
  destruct (taskPhase t) eqn:Hph;
    try (apply (advances_setTask id t); [exact Ht | cbn; rewrite Hph; reflexivity]).
  assert (Hp : opPromise (FileOp t) = Pending) by (cbn; rewrite Hph; reflexivity).
  destruct r as [e |].
  - eapply advances_trans.
    + apply (advances_setTask id t (withStream (Settled (ofCallback (Some e))) t));
        [exact Ht | cbn; rewrite Hph; reflexivity].
    + apply advances_taskDone.
      erewrite taskAt_promiseAt.
      2: { rewrite (taskAt_setTask id id t) by exact Ht.
           destruct (decide (id = id)); [reflexivity | contradiction]. }
      cbn. rewrite Hph. reflexivity.
  - apply (advances_extractEntry id t); [exact Ht | exact Hp].
Qed.

Lemma advances_onMkdirpDone (id : nat) (r : option Error) (st : state) :
  advances st (onMkdirpDone join dirname id r targetPath st).
Proof.
  unfold onMkdirpDone.
  destruct (ops st !! id) as [[path p | t] |] eqn:Hlook; try apply advances_refl.
  - destruct p; [| apply advances_refl].
    apply advances_settleOp. unfold promiseAt. rewrite Hlook. reflexivity.
  - assert (Ht : taskAt st id = Some t) by (apply taskAt_lookup; exact Hlook).
    destruct (taskPhase t) eqn:Hph; try apply advances_refl.
    assert (Hp : opPromise (FileOp t) = Pending) by (cbn; rewrite Hph; reflexivity).
    destruct r as [e |].
    + apply advances_taskDone. rewrite (taskAt_promiseAt _ _ _ Ht). exact Hp.
    + apply (advances_openSink id t); [exact Ht | exact Hp].
Qed.

Lemma advances_piping (id : nat) (o : outcome unit) (st : state) :
  advances st
    match ops st !! id with
    | Some (FileOp t) =>
        match taskPhase t with
        | Piping => taskDone join dirname id o targetPath st
        | _ => st
        end
    | _ => st
    end.
Proof.
  destruct (ops st !! id) as [[path p | t] |] eqn:Hlook; try apply advances_refl.
  assert (Ht : taskAt st id = Some t) by (apply taskAt_lookup; exact Hlook).
  destruct (taskPhase t) eqn:Hph; try apply advances_refl.
  apply advances_taskDone. rewrite (taskAt_promiseAt _ _ _ Ht). cbn. rewrite Hph. reflexivity.
Qed.

Lemma advances_cancelOp (id : nat) (st : state) :
  advances st (cancelOp join dirname id targetPath st).
Proof.
  unfold cancelOp.
  destruct (ops st !! id) as [[path p | t] |] eqn:Hlook; try apply advances_refl.
  - destruct p; [| apply advances_refl].
    apply advances_settleOp. unfold promiseAt. rewrite Hlook. reflexivity.
  - assert (Ht : taskAt st id = Some t) by (apply taskAt_lookup; exact Hlook).
    destruct (taskPhase t) eqn:Hph; try apply advances_refl.
    + eapply advances_trans; [apply advances_setFifo |].
      apply advances_settleOp. unfold promiseAt. cbn. rewrite Hlook. cbn. rewrite Hph. reflexivity.
    + apply advances_taskDone. unfold promiseAt. rewrite Hlook. cbn. rewrite Hph. reflexivity.
    + apply advances_taskDone. unfold promiseAt. rewrite Hlook. cbn. rewrite Hph. reflexivity.
    + emit_first.
      apply advances_taskDone. unfold promiseAt. cbn. rewrite Hlook. cbn. rewrite Hph. reflexivity.
Qed.

End ExtractionProperties.

Lemma extends_refl (st : state) : extends st st.
Proof.
  constructor; auto. exists []. rewrite app_nil_r. split; reflexivity.
Qed.

Lemma extends_trans (st1 st2 st3 : state) :
  extends st1 st2 -> extends st2 st3 -> extends st1 st3.
Proof.
  intros A B. constructor.
  - intros H. apply (ext_canceled _ _ B), (ext_canceled _ _ A), H.
  - intros o H. apply (ext_outer _ _ B), (ext_outer _ _ A), H.
  - intros id o H. apply (ext_settled _ _ B), (ext_settled _ _ A), H.
  - pose proof (ext_length _ _ A). pose proof (ext_length _ _ B). lia.
  - destruct (ext_effects _ _ A) as (m1 & E1 & F1).
    destruct (ext_effects _ _ B) as (m2 & E2 & F2).
    exists (m1 ++ m2). split.
    + rewrite E2, E1, app_assoc. reflexivity.
    + rewrite forallb_app, F1, F2. reflexivity.
Qed.

Lemma advances_extends (st st' : state) : advances st st' -> extends st st'.
Proof.
  intros A. constructor.
  - intros H. rewrite (adv_canceled _ _ A). exact H.
  - apply A.
  - apply A.
  - rewrite (adv_length _ _ A). lia.
  - apply A.
Qed.

(** Changes of the control fields and of the promise of [extractZip] that
    keep a settled promise. *)
Lemma extends_control (st st' : state) (more : list effect) :
  (isCanceled st = true -> isCanceled st' = true) ->
  (forall o, outer st = Settled o -> outer st' = Settled o) ->
  ops st' = ops st ->
  effects st' = effects st ++ more -> forallb driverEffect more = true ->
  extends st st'.
Proof.
  intros Hc Ho Hops Heff Hmore. constructor; try assumption.
  - intros id o. unfold promiseAt. rewrite Hops. auto.
  - rewrite Hops. lia.
  - exists more. split; assumption.
Qed.

Lemma extends_settleOuter (o : outcome unit) (st : state) : extends st (settleOuter o st).
Proof.
  unfold settleOuter. destruct (outer st) eqn:Ho; [| apply extends_refl].
  apply (extends_control _ _ []); cbn; auto.
  - intros o' H. rewrite Ho in H. discriminate H.
  - rewrite app_nil_r. reflexivity.
Qed.

(** A new operation leaves the old ones where they are. *)
Lemma extends_newOp (x : op) (st : state) : extends st (snd (newOp x st)).
Proof.
  unfold newOp. cbn [snd]. constructor; cbn; auto.
  - intros id o. unfold promiseAt. cbn [ops setOps].
    destruct (ops st !! id) as [y |] eqn:Hlook; [| discriminate].
    rewrite lookup_app_l by (eapply lookup_lt_Some; exact Hlook).
    rewrite Hlook. auto.
  - rewrite length_app. lia.
  - exists []. rewrite app_nil_r. split; reflexivity.
Qed.

Section DriverSteps.

Variable join : string -> string -> string.
Variable dirname : string -> string.
Variable targetPath : string.
Variable options : IOptions.

Local Abbreviation dstep := (step join dirname targetPath options).
Local Abbreviation drun := (run join dirname targetPath options).

Lemma run_cons (ev : event) (evs : list event) (st : state) :
  drun (ev :: evs) st = drun evs (dstep st ev).
Proof. reflexivity. Qed.

Lemma run_app (evs1 evs2 : list event) (st : state) :
  drun (evs1 ++ evs2) st = drun evs2 (drun evs1 st).
Proof. unfold run. apply fold_left_app. Qed.

Lemma advances_completion (ev : event) (st : state) :
  isCompletion ev = true -> advances st (dstep st ev).
Proof.
  destruct ev; try discriminate; intros _; cbn [step].
  - apply advances_onStreamOpened.
  - apply advances_onMkdirpDone.
  - apply (advances_piping join dirname targetPath id (Fulfilled tt)).
  - apply (advances_piping join dirname targetPath id (Rejected err)).
  - apply (advances_piping join dirname targetPath id (Rejected err)).
Qed.

Lemma advances_completions (evs : list event) (st : state) :
  forallb isCompletion evs = true -> advances st (drun evs st).
Proof.
  revert st. induction evs as [| ev evs IH]; intros st Hall.
  - apply advances_refl.
  - cbn [forallb] in Hall. apply andb_true_iff in Hall as [Hev Hall].
    rewrite run_cons. eapply advances_trans; [apply advances_completion; exact Hev |].
    apply IH. exact Hall.
Qed.

Lemma extends_onEntry (entry : Entry) (st : state) :
  extends st (onEntry join dirname entry targetPath options st).
Proof.
  unfold onEntry. cbv zeta.
  destruct (isCanceled st); [apply extends_refl |].
  destruct (relativeFileName _ _) as [name |]; [| apply extends_refl].
  destruct (RegExp.test endsWithSlash name).
  - apply extends_trans with (emit (EMkdirp (join targetPath name)) st).
    { apply advances_extends, advances_emit. reflexivity. }
    pose proof (extends_newOp (DirOp (join targetPath name) Pending)
                  (emit (EMkdirp (join targetPath name)) st)) as Hn.
    destruct (newOp _ _) as [id st1]. cbn [snd] in Hn.
    eapply extends_trans; [exact Hn |].
    apply (extends_control _ _ []); cbn; auto. rewrite app_nil_r. reflexivity.
  - apply extends_trans with (emit (EOpenReadStream (fileName entry)) st).
    { apply advances_extends, advances_emit. reflexivity. }
    pose proof (extends_newOp (FileOp (mkTask name (modeFromEntry entry) Pending Queued))
                  (emit (EOpenReadStream (fileName entry)) st)) as Hn.
    destruct (newOp _ _) as [id st1]. cbn [snd] in Hn.
    eapply extends_trans; [exact Hn |].
    eapply extends_trans.
    { apply advances_extends, (advances_throttlerQueue join dirname targetPath id). }
    apply (extends_control _ _ []); cbn; auto. rewrite app_nil_r. reflexivity.
Qed.

Lemma extends_onClose (st : state) : extends st (onClose st).
Proof.
  unfold onClose. destruct (closeFired st); [apply extends_refl |].
  apply extends_trans with (setCloseFired true st).
  { apply (extends_control _ _ []); cbn; auto. rewrite app_nil_r. reflexivity. }
  destruct (lastPromise (setCloseFired true st)).
  - apply (extends_control _ _ []); cbn; auto. rewrite app_nil_r. reflexivity.
  - apply extends_settleOuter.
Qed.

Lemma extends_onError (err : Error) (st : state) : extends st (onError err st).
Proof.
  unfold onError. destruct (errorFired st); [apply extends_refl |].
  apply extends_trans with (setErrorFired true st).
  { apply (extends_control _ _ []); cbn; auto. rewrite app_nil_r. reflexivity. }
  apply extends_settleOuter.
Qed.

Lemma extends_onCancel (st : state) : extends st (onCancel join dirname targetPath st).
Proof.
  unfold onCancel. destruct (outer st) eqn:Ho; [| apply extends_refl].
  set (st1 := setCanceled true st).
  assert (H1 : extends st st1).
  { apply (extends_control _ _ []); cbn; auto. rewrite app_nil_r. reflexivity. }
  set (st2 := match last st1 with
              | Some id => cancelOp join dirname id targetPath st1
              | None => st1
              end).
  assert (H2 : advances st1 st2).
  { subst st2. destruct (last st1); [apply advances_cancelOp | apply advances_refl]. }
  assert (H12 : extends st st2).
  { eapply extends_trans; [exact H1 | apply advances_extends; exact H2]. }
  constructor.
  - intros _. cbn. rewrite (adv_canceled _ _ H2). reflexivity.
  - intros o H. rewrite Ho in H. discriminate H.
  - intros id o H. apply (ext_settled _ _ H12) in H. exact H.
  - apply (ext_length _ _ H12).
  - destruct (ext_effects _ _ H12) as (more & E & F).
    exists (more ++ [EZipClose]). split.
    + cbn. rewrite E, app_assoc. reflexivity.
    + rewrite forallb_app, F. reflexivity.
Qed.

Lemma extends_step (ev : event) (st : state) : extends st (dstep st ev).
Proof.
  destruct (isCompletion ev) eqn:Hc.
  - apply advances_extends, advances_completion, Hc.
  - destruct ev; try discriminate Hc; cbn [step].
    + apply extends_onEntry.
    + apply extends_onClose.
    + apply extends_onError.
    + apply extends_onCancel.
Qed.

Lemma extends_run (evs : list event) (st : state) : extends st (drun evs st).
Proof.
  revert st. induction evs as [| ev evs IH]; intros st.
  - apply extends_refl.
  - rewrite run_cons. eapply extends_trans; [apply extends_step | apply IH].
Qed.

(** What the [close] handler does while the promise of [extractZip] is
    pending: it settles the promise with the outcome of [last] when there
    is one, and joins the promise to [last] otherwise. *)
Lemma onClose_pending (st : state) :
  outer st = Pending -> closeFired st = false ->
  match promiseOf st (last st) with
  | Settled o => outer (onClose st) = Settled o
  | Pending => outer (onClose st) = Pending /\ joined (onClose st) = last st
  end
  /\ ops (onClose st) = ops st.
Proof.
  intros Ho Hc. unfold onClose. rewrite Hc.
  change (lastPromise (setCloseFired true st)) with (promiseOf st (last st)).
  destruct (promiseOf st (last st)) as [| o].
  - cbn. auto.
  - unfold settleOuter. cbn. rewrite Ho. cbn. auto.
Qed.

(** After [close], and as long as only the scheduled operations move, the
    promise of [extractZip] is the promise [last] referred to at [close]. *)
Lemma close_then_completions (st : state) (post : list event) :
  outer st = Pending -> closeFired st = false ->
  forallb isCompletion post = true ->
  outer (drun (ZipClose :: post) st) = promiseOf (drun (ZipClose :: post) st) (last st).
Proof.
  intros Ho Hc Hpost. rewrite run_cons. cbn [step].
  destruct (onClose_pending st Ho Hc) as [Hclose Hops].
  pose proof (advances_completions post (onClose st) Hpost) as A.
  set (st1 := onClose st) in *. set (st2 := drun post st1) in *.
  assert (Hsame : promiseOf st1 (last st) = promiseOf st (last st)).
  { destruct (last st) as [l |]; [| reflexivity]. unfold promiseOf, promiseAt.
    rewrite Hops. reflexivity. }
  destruct (promiseOf st (last st)) as [| o] eqn:Hl.
  - destruct Hclose as [Ho1 Hj1].
    destruct (last st) as [l |] eqn:Hlast; [| discriminate Hl].
    cbn [promiseOf] in *.
    destruct (adv_link _ _ A Ho1) as [[Ho2 Hkeep] | (l' & o & Hj & Hl1 & Hl2 & Ho2)].
    + rewrite Ho2. symmetry. apply Hkeep; [exact Hj1 | exact Hsame].
    + rewrite Hj1 in Hj. injection Hj as <-. rewrite Ho2, Hl2. reflexivity.
  - rewrite (adv_outer _ _ A _ Hclose).
    destruct (last st) as [l |]; cbn [promiseOf] in *.
    + symmetry. apply (adv_settled _ _ A). exact Hsame.
    + symmetry. exact Hl.
Qed.

Lemma lastValid_advances (st st' : state) :
  advances st st' -> lastValid st -> lastValid st'.
Proof.
  intros A H l Hl. rewrite (adv_last _ _ A) in Hl. rewrite (adv_length _ _ A). auto.
Qed.

Lemma lastValid_onEntry (entry : Entry) (st : state) :
  lastValid st -> lastValid (onEntry join dirname entry targetPath options st).
Proof.
  intros H. unfold onEntry. cbv zeta.
  destruct (isCanceled st); [exact H |].
  destruct (relativeFileName _ _) as [name |]; [| exact H].
  destruct (RegExp.test endsWithSlash name).
  - unfold newOp. intros l Hl. cbn in Hl. injection Hl as <-.
    cbn. rewrite length_app. cbn. lia.
  - unfold newOp. intros l Hl. cbn [last setLast] in Hl. injection Hl as <-.
    cbn [ops setLast].
    rewrite (adv_length _ _ (advances_throttlerQueue join dirname targetPath _ _)).
    cbn. rewrite length_app. cbn. lia.
Qed.

Lemma lastValid_step (ev : event) (st : state) :
  lastValid st -> lastValid (dstep st ev).
Proof.
  intros H. destruct (isCompletion ev) eqn:Hc.
  - eapply lastValid_advances; [apply advances_completion; exact Hc | exact H].
  - destruct ev; try discriminate Hc; cbn [step].
    + apply lastValid_onEntry. exact H.
    + unfold onClose. destruct (closeFired st); [exact H |].
      destruct (lastPromise _); [exact H |].
      unfold settleOuter. destruct (outer _); exact H.
    + unfold onError. destruct (errorFired st); [exact H |].
      unfold settleOuter. destruct (outer _); exact H.
    + unfold onCancel. destruct (outer st); [| exact H].
      intros l Hl. cbn [last setOuter emit] in Hl. cbn [ops setOuter emit].
      destruct (last (setCanceled true st)) as [id |] eqn:Hid.
      * pose proof (advances_cancelOp join dirname targetPath id (setCanceled true st)) as A.
        rewrite (adv_last _ _ A) in Hl. rewrite (adv_length _ _ A). apply H. exact Hl.
      * apply H. exact Hl.
Qed.

Lemma lastValid_run (evs : list event) (st : state) :
  lastValid st -> lastValid (drun evs st).
Proof.
  revert st. induction evs as [| ev evs IH]; intros st H.
  - exact H.
  - rewrite run_cons. apply IH, lastValid_step, H.
Qed.

Lemma lastValid_initial (log : list effect) : lastValid (initial log).
Proof. intros l Hl. discriminate Hl. Qed.

Lemma promiseAt_settleOp_self (id : nat) (o : outcome unit) (st : state) :
  (id < length (ops st))%nat -> promiseAt (settleOp id o st) id = Settled o.
Proof.
  intros Hlt. unfold settleOp.
  destruct (ops st !! id) as [x |] eqn:Hlook.
  - assert (Hx : opPromise (withOutcome o x) = Settled o) by (destruct x; reflexivity).
    assert (E : promiseAt (setOps (<[id := withOutcome o x]> (ops st)) st) id = Settled o).
    { rewrite promiseAt_insert by exact Hlt.
      destruct (decide (id = id)); [exact Hx | contradiction]. }
    cbn [joined setOps]. destruct (decide (joined st = Some id)); [| exact E].
    unfold settleOuter. destruct (outer _); exact E.
  - apply lookup_ge_None in Hlook. lia.
Qed.

Lemma promiseAt_taskDone_self (id : nat) (o : outcome unit) (st : state) :
  (id < length (ops st))%nat ->
  promiseAt (taskDone join dirname id o targetPath st) id = Settled o.
Proof.
  intros Hlt. unfold taskDone.
  apply (adv_settled _ _ (advances_throttlerNext join dirname targetPath _ _)).
  apply promiseAt_settleOp_self. exact Hlt.
Qed.

(** [last.cancel()] on a pending operation cancels it. *)
Lemma cancelOp_cancels (id : nat) (st : state) :
  (id < length (ops st))%nat -> promiseAt st id = Pending ->
  promiseAt (cancelOp join dirname id targetPath st) id = Settled Canceled.
Proof.
  intros Hlt Hp. unfold cancelOp. unfold promiseAt in Hp.
  destruct (ops st !! id) as [[path p | t] |] eqn:Hlook.
  - cbn in Hp. subst p. apply promiseAt_settleOp_self. exact Hlt.
  - cbn in Hp. destruct (taskPhase t) eqn:Hph; try discriminate Hp.
    + apply promiseAt_settleOp_self. exact Hlt.
    + apply promiseAt_taskDone_self. exact Hlt.
    + apply promiseAt_taskDone_self. exact Hlt.
    + apply promiseAt_taskDone_self. exact Hlt.
  - apply lookup_ge_None in Hlook. lia.
Qed.

(** The cancel handler of [extractEntry]: a task cancelled while it pipes
    has its sink closed. *)
Lemma cancelOp_closes_sink (id : nat) (t : fileTask) (st : state) :
  taskAt st id = Some t -> taskPhase t = Piping ->
  In (ECloseSink id) (effects (cancelOp join dirname id targetPath st)).
Proof.
  intros Ht Hph. apply taskAt_lookup in Ht. unfold cancelOp. rewrite Ht, Hph.
  assert (A : advances (emit (ECloseSink id) st)
                (taskDone join dirname id Canceled targetPath (emit (ECloseSink id) st))).
  { apply advances_taskDone. unfold promiseAt. cbn. rewrite Ht. cbn. rewrite Hph. reflexivity. }
  destruct (adv_effects _ _ A) as (more & E & _).
  rewrite E. cbn. rewrite !in_app_iff. left. right. left. reflexivity.
Qed.

(** C7: cancelling an extraction that has not settled sets [isCanceled], so
    that every later [entry] event leaves the state as it is (nothing is
    scheduled, no effect is issued); the operation [last] refers to is
    cancelled; the archive is closed; and a task cancelled while it pipes
    has its write sink closed. *)
Theorem cancel_stops_extraction (log : list effect) (pre : list event) :
  let st := drun pre (initial log) in
  let st' := dstep st Cancel in
  outer st = Pending ->
  isCanceled st' = true
  /\ (forall post entry, dstep (drun post st') (ZipEntry entry) = drun post st')
  /\ (promiseOf st (last st) = Pending -> promiseOf st' (last st) = Settled Canceled)
  /\ (exists before, effects st' = before ++ [EZipClose])
  /\ (forall l t, last st = Some l -> taskAt st l = Some t -> taskPhase t = Piping ->
      In (ECloseSink l) (effects st')).
Proof.
  intros st st' Ho.
  assert (Hvalid : lastValid st) by (apply lastValid_run, lastValid_initial).
  assert (Hc : isCanceled st' = true).
  { subst st'. cbn [step]. unfold onCancel. rewrite Ho. cbn.
    destruct (last st) as [l |]; [| reflexivity].
    rewrite (adv_canceled _ _ (advances_cancelOp join dirname targetPath l _)). reflexivity. }
  split; [exact Hc |]. split; [| split; [| split]].
  - intros post entry. cbn [step]. unfold onEntry. cbv zeta.
    rewrite (ext_canceled _ _ (extends_run post st') Hc). reflexivity.
  - intros Hp. subst st'. cbn [step]. unfold onCancel. rewrite Ho.
    destruct (last st) as [l |] eqn:Hl; [| discriminate Hp].
    cbn [promiseOf] in *. cbn [last setCanceled].
    rewrite Hl.
    change (promiseAt (setOuter (Settled Canceled)
              (emit EZipClose (cancelOp join dirname l targetPath (setCanceled true st)))) l)
      with (promiseAt (cancelOp join dirname l targetPath (setCanceled true st)) l).
    apply cancelOp_cancels; [apply Hvalid; exact Hl | exact Hp].
  - subst st'. cbn [step]. unfold onCancel. rewrite Ho. cbn [effects setOuter emit].
    eexists. reflexivity.
  - intros l t Hl Ht Hph. subst st'. cbn [step]. unfold onCancel. rewrite Ho.
    cbn [last setCanceled]. rewrite Hl. cbn [effects setOuter emit].
    apply in_app_iff. left.
    apply (cancelOp_closes_sink l t); [exact Ht | exact Hph].
Qed.

End DriverSteps.

(** ** [extract] as a whole *)

Section ExtractProperties.

Variable join : string -> string -> string.
Variable dirname : string -> string.

(** When the archive opens and the deletion, if any, succeeds, [extract] is
    [extractZip] run on the events of the environment. *)
Lemma extract_runs_extractZip (env : environment) (zipPath targetPath : string)
    (options : IExtractOptions) (re : RegExp.t) :
  newSourcePathRegex options = Some re ->
  openResult env = None ->
  (JS.truthy_bool (overwrite options) = true -> rimrafResult env = None) ->
  extract join dirname env zipPath targetPath options
    = Some (extractZip join dirname (events env) (extractLog zipPath targetPath options)
              targetPath (mkIOptions re)).
Proof.
  intros Hre Hopen Hrm. unfold extract, extractLog. rewrite Hre, Hopen. cbn.
  destruct (JS.truthy_bool (overwrite options)); [| reflexivity].
  rewrite (Hrm eq_refl). reflexivity.
Qed.

Lemma extract_open_fails (env : environment) (zipPath targetPath : string)
    (options : IExtractOptions) (re : RegExp.t) (err : Error) :
  newSourcePathRegex options = Some re ->
  openResult env = Some err ->
  extract join dirname env zipPath targetPath options
    = Some (Settled (Rejected (toExtractError err)), [EOpenZip zipPath]).
Proof.
  intros Hre Hopen. unfold extract. rewrite Hre, Hopen. reflexivity.
Qed.

(** C1, as the code has it: a failure that reaches the promise of [extract]
    through [extractZip] is wrapped by [toExtractError]; this holds for the
    failure of the operation [last] refers to when the archive closes (a
    directory creation, the opening of a sink, a write) as it holds for a
    failure to open the archive and for an error of the archive stream.
    The promise rejects with an [ExtractError] of type [CorruptZip] whose
    cause is the raw error, not with the raw error. *)
Theorem extract_rejects_wrapped (env : environment) (zipPath targetPath : string)
    (options : IExtractOptions) (re : RegExp.t) :
  newSourcePathRegex options = Some re ->
  (JS.truthy_bool (overwrite options) = true -> rimrafResult env = None) ->
  let start := initial (extractLog zipPath targetPath options) in
  let drun := run join dirname targetPath (mkIOptions re) in
  let result := fst <$> extract join dirname env zipPath targetPath options in
  let wrapped err :=
    Some (Settled (Rejected
      (mkExtractError ("Corrupt ZIP: " +:+ message err) CorruptZip err))) in
  (forall err, openResult env = Some err -> result = wrapped err)
  /\ (forall pre post err,
        openResult env = None ->
        events env = pre ++ ZipError err :: post ->
        outer (drun pre start) = Pending ->
        errorFired (drun pre start) = false ->
        result = wrapped err)
  /\ (forall pre post err,
        openResult env = None ->
        events env = pre ++ ZipClose :: post ->
        outer (drun pre start) = Pending ->
        closeFired (drun pre start) = false ->
        forallb isCompletion post = true ->
        promiseOf (drun (events env) start) (last (drun pre start)) = Settled (Rejected err) ->
        result = wrapped err).
Proof.
  intros Hre Hrm. cbv zeta.
  split; [| split].
  - intros err Hopen. rewrite (extract_open_fails _ _ _ _ re err Hre Hopen).
    cbn. rewrite toExtractError_eq. reflexivity.
  - intros pre post err Hopen Hev Ho He.
    rewrite (extract_runs_extractZip _ _ _ _ re Hre Hopen Hrm).
    unfold extractZip. cbn [fmap option_fmap option_map fst].
    rewrite Hev, run_app, run_cons. cbn [step].
    set (st := run join dirname targetPath (mkIOptions re) pre _) in *.
    assert (H1 : outer (onError err st) = Settled (Rejected err)).
    { unfold onError. rewrite He. unfold settleOuter. cbn. rewrite Ho. reflexivity. }
    pose proof (ext_outer _ _
      (extends_run join dirname targetPath (mkIOptions re) post _) _ H1) as H2.
    unfold returned. rewrite H2. cbn. rewrite toExtractError_eq. reflexivity.
  - intros pre post err Hopen Hev Ho Hc Hpost Hlast.
    rewrite (extract_runs_extractZip _ _ _ _ re Hre Hopen Hrm).
    unfold extractZip. cbn [fmap option_fmap option_map fst].
    pose proof (close_then_completions join dirname targetPath (mkIOptions re)
                  _ post Ho Hc Hpost) as H.
    rewrite <- run_app in H. rewrite <- Hev in H.
    unfold returned. rewrite H, Hlast. cbn. rewrite toExtractError_eq. reflexivity.
Qed.

(** C10: the target is deleted only when the archive has been opened, and
    then before anything else; when the archive cannot be opened [extract]
    rejects and has touched nothing. *)
Theorem rimraf_only_after_open (env : environment) (zipPath targetPath : string)
    (options : IExtractOptions) (p : promise unit) (log : list effect) :
  extract join dirname env zipPath targetPath options = Some (p, log) ->
  (forall err, openResult env = Some err ->
     p = Settled (Rejected (toExtractError err)) /\ log = [EOpenZip zipPath])
  /\ (forall path, In (ERimraf path) log ->
        openResult env = None /\ JS.truthy_bool (overwrite options) = true
        /\ path = targetPath)
  /\ (openResult env = None -> JS.truthy_bool (overwrite options) = true ->
      exists more, log = EOpenZip zipPath :: ERimraf targetPath :: more
                   /\ forallb driverEffect more = true).
Proof.
  unfold extract. destruct (newSourcePathRegex options) as [re |]; [| discriminate].
  intros H. injection H as H.
  assert (Hrun : forall l0, exists more,
            snd (extractZip join dirname (events env) l0 targetPath (mkIOptions re)) = l0 ++ more
            /\ forallb driverEffect more = true).
  { intros l0. unfold extractZip. cbn [snd].
    apply (ext_effects _ _
      (extends_run join dirname targetPath (mkIOptions re) (events env) (initial l0))). }
  assert (Hnot : forall more path, forallb driverEffect more = true -> ~ In (ERimraf path) more).
  { intros more path Hall Hin. rewrite forallb_forall in Hall.
    specialize (Hall _ Hin). discriminate Hall. }
  destruct (openResult env) as [err |] eqn:Hopen.
  - cbn in H. injection H as <- <-.
    split; [| split].
    + intros err' E. injection E as <-. split; reflexivity.
    + intros path [E | []]. discriminate E.
    + intros E. discriminate E.
  - cbn [openZip ofCallback wrapExtractError] in H.
    destruct (JS.truthy_bool (overwrite options)) eqn:Hov.
    + destruct (rimrafResult env) as [err |] eqn:Hrm; cbn [ofCallback] in H.
      * injection H as <- <-.
        split; [intros err' E; discriminate E |]. split.
        -- intros path [E | [E | []]]; [discriminate E |]. injection E as <-. auto.
        -- intros _ _. exists []. split; reflexivity.
      * destruct (Hrun [EOpenZip zipPath; ERimraf targetPath]) as (more & E & F).
        rewrite H in E. cbn [snd] in E. subst log.
        split; [intros err' E; discriminate E |]. split.
        -- intros path Hin. cbn in Hin.
           destruct Hin as [E | [E | Hin]]; [discriminate E | |].
           ++ injection E as <-. auto.
           ++ exfalso. exact (Hnot _ _ F Hin).
        -- intros _ _. exists more. split; [reflexivity | exact F].
    + destruct (Hrun [EOpenZip zipPath]) as (more & E & F).
      rewrite H in E. cbn [snd] in E. subst log.
      split; [intros err' E; discriminate E |]. split.
      * intros path Hin. cbn in Hin.
        destruct Hin as [E | Hin]; [discriminate E |].
        exfalso. exact (Hnot _ _ F Hin).
      * intros _ E. discriminate E.
Qed.

End ExtractProperties.

(** ** The write throttler *)

Lemma taskStarts_app (a b : list effect) :
  taskStarts (a ++ b) = taskStarts a ++ taskStarts b.
Proof. unfold taskStarts. apply flat_map_app. Qed.

Lemma taskAt_bound (st : state) (i : nat) (t : fileTask) :
  taskAt st i = Some t -> (i < length (ops st))%nat.
Proof. intros H. apply taskAt_lookup in H. eapply lookup_lt_Some. exact H. Qed.

(** The invariant survives a change that starts no task body and keeps the
    queued tasks queued. *)
Lemma throttled_shrink (q : list nat) (st st' : state) :
  (forall i t', taskAt st' i = Some t' -> executing t' = true ->
     exists t, taskAt st i = Some t /\ executing t = true) ->
  (forall id t, id ∈ q -> taskAt st id = Some t -> taskPhase t = Queued ->
     exists t', taskAt st' id = Some t' /\ taskPhase t' = Queued) ->
  running st' = running st ->
  (length (ops st) <= length (ops st'))%nat ->
  taskStarts (effects st') = taskStarts (effects st) ->
  throttled q st -> throttled q st'.
Proof.
  intros Hexec Hq Hrun Hlen Hstarts T. constructor.
  - intros i j ti tj Hi Hj Ei Ej.
    destruct (Hexec _ _ Hi Ei) as (ti0 & Hi0 & Ei0).
    destruct (Hexec _ _ Hj Ej) as (tj0 & Hj0 & Ej0).
    exact (th_unique _ _ T _ _ _ _ Hi0 Hj0 Ei0 Ej0).
  - intros i t Hi Ei. rewrite Hrun.
    destruct (Hexec _ _ Hi Ei) as (t0 & Hi0 & Ei0).
    exact (th_flag _ _ T _ _ Hi0 Ei0).
  - intros id Hid. destruct (th_queued _ _ T _ Hid) as (t & Ht & Hph).
    exact (Hq _ _ Hid Ht Hph).
  - exact (th_sorted _ _ T).
  - rewrite Hstarts. exact (th_starts_sorted _ _ T).
  - rewrite Hstarts. exact (th_starts_before _ _ T).
  - rewrite Hstarts. intros s Hs. pose proof (th_starts_bound _ _ T _ Hs). lia.
  - rewrite Hrun. exact (th_idle_empty _ _ T).
Qed.

(** Same tasks, same flag, same starts. *)
Lemma throttled_frame (q : list nat) (st st' : state) :
  (forall i, taskAt st' i = taskAt st i) ->
  running st' = running st ->
  (length (ops st) <= length (ops st'))%nat ->
  taskStarts (effects st') = taskStarts (effects st) ->
  throttled q st -> throttled q st'.
Proof.
  intros Hat. apply throttled_shrink.
  - intros i t' Hi Ei. exists t'. rewrite <- Hat. auto.
  - intros id t _ Ht Hph. exists t. rewrite Hat. auto.
Qed.

Lemma taskAt_insert (st : state) (id i : nat) (x : op) :
  (id < length (ops st))%nat ->
  taskAt (setOps (<[id := x]> (ops st)) st) i
    = if decide (id = i) then match x with FileOp t => Some t | DirOp _ _ => None end
      else taskAt st i.
Proof.
  intros Hlt. unfold taskAt. cbn [ops setOps].
  destruct (decide (id = i)) as [-> | Hne].
  - rewrite list_lookup_insert_eq by exact Hlt. destruct x; reflexivity.
  - rewrite list_lookup_insert_ne by exact Hne. reflexivity.
Qed.

(** What [settleOp] changes for the throttler: the task of [id], if any,
    is done. *)
Lemma settleOp_view (id : nat) (o : outcome unit) (st : state) :
  (forall i, taskAt (settleOp id o st) i
             = if decide (id = i) then withPhase (Done o) <$> taskAt st id
               else taskAt st i)
  /\ running (settleOp id o st) = running st
  /\ fifo (settleOp id o st) = fifo st
  /\ effects (settleOp id o st) = effects st
  /\ length (ops (settleOp id o st)) = length (ops st).
Proof.
  unfold settleOp. destruct (ops st !! id) as [x |] eqn:Hlook.
  - assert (Hlt : (id < length (ops st))%nat) by (eapply lookup_lt_Some; exact Hlook).
    set (st1 := setOps (<[id := withOutcome o x]> (ops st)) st).
    assert (H1 : forall i, taskAt st1 i
                   = if decide (id = i) then withPhase (Done o) <$> taskAt st id
                     else taskAt st i).
    { intros i. subst st1. rewrite taskAt_insert by exact Hlt.
      destruct (decide (id = i)); [| reflexivity].
      unfold taskAt. rewrite Hlook. destruct x; reflexivity. }
    assert (H2 : length (ops st1) = length (ops st)) by (subst st1; cbn; apply length_insert).
    destruct (decide (joined st1 = Some id)).
    + unfold settleOuter. destruct (outer st1); cbn; auto.
    + auto.
  - repeat split; try reflexivity.
    intros i. destruct (decide (id = i)) as [<- | _]; [| reflexivity].
    unfold taskAt. rewrite Hlook. reflexivity.
Qed.

Lemma throttled_settleOp (q : list nat) (id : nat) (o : outcome unit) (st : state) :
  id ∉ q -> throttled q st -> throttled q (settleOp id o st).
Proof.
  intros Hnot. destruct (settleOp_view id o st) as (Hat & Hrun & _ & Heff & Hlen).
  apply throttled_shrink.
  - intros i t' Hi Ei. rewrite Hat in Hi.
    destruct (decide (id = i)) as [<- | _]; [| exists t'; auto].
    destruct (taskAt st id) as [t |]; [| discriminate Hi].
    cbn in Hi. injection Hi as <-. discriminate Ei.
  - intros j t Hj Ht Hph. exists t. rewrite Hat.
    destruct (decide (id = j)) as [<- | _]; [contradiction | auto].
  - exact Hrun.
  - rewrite Hlen. lia.
  - rewrite Heff. reflexivity.
Qed.

(** When the one task that executes is done, none does. *)
Lemma idle_settleOp (q : list nat) (id : nat) (t : fileTask) (o : outcome unit) (st : state) :
  throttled q st -> taskAt st id = Some t -> executing t = true ->
  idle (settleOp id o st).
Proof.
  intros T Ht Et i t' Hi.
  destruct (settleOp_view id o st) as (Hat & _).
  rewrite Hat in Hi. destruct (decide (id = i)) as [<- | Hne].
  - rewrite Ht in Hi. cbn in Hi. injection Hi as <-. reflexivity.
  - destruct (executing t') eqn:Et'; [| reflexivity].
    exfalso. apply Hne. exact (th_unique _ _ T _ _ _ _ Ht Hi Et Et').
Qed.

Lemma idle_settleOp_idle (id : nat) (o : outcome unit) (st : state) :
  idle st -> idle (settleOp id o st).
Proof.
  intros Hidle i t' Hi.
  destruct (settleOp_view id o st) as (Hat & _).
  rewrite Hat in Hi. destruct (decide (id = i)) as [<- | Hne].
  - destruct (taskAt st id); [| discriminate Hi]. cbn in Hi. injection Hi as <-. reflexivity.
  - exact (Hidle _ _ Hi).
Qed.

Lemma throttled_setTask (q : list nat) (id : nat) (t t' : fileTask) (st : state) :
  taskAt st id = Some t ->
  executing t' = executing t ->
  (taskPhase t = Queued -> taskPhase t' = Queued) ->
  throttled q st -> throttled q (setTask id t' st).
Proof.
  intros Ht He Hq. apply throttled_shrink.
  - intros i t0 Hi Ei. rewrite (taskAt_setTask id i t) in Hi by exact Ht.
    destruct (decide (id = i)) as [<- | _]; [| exists t0; auto].
    injection Hi as <-. exists t. split; [exact Ht | congruence].
  - intros j t0 _ Hj Hph. rewrite (taskAt_setTask id j t) by exact Ht.
    destruct (decide (id = j)) as [<- | _]; [| exists t0; auto].
    exists t'. split; [reflexivity |]. apply Hq. congruence.
  - reflexivity.
  - unfold setTask. cbn. rewrite length_insert. lia.
  - reflexivity.
Qed.

(** The body of one task begins while none executes. *)
Lemma throttled_begin (q : list nat) (id : nat) (t t' : fileTask) (st : state) :
  idle st -> running st = true -> id ∉ q -> taskAt st id = Some t ->
  throttled q st -> throttled q (setTask id t' st).
Proof.
  intros Hidle Hrun Hnot Ht T.
  assert (Hat : forall i, taskAt (setTask id t' st) i
                  = if decide (id = i) then Some t' else taskAt st i).
  { intros i. apply (taskAt_setTask id i t). exact Ht. }
  assert (Hone : forall i ti, taskAt (setTask id t' st) i = Some ti ->
                   executing ti = true -> i = id).
  { intros i ti Hi Ei. rewrite Hat in Hi.
    destruct (decide (id = i)) as [<- | _]; [reflexivity |].
    rewrite (Hidle _ _ Hi) in Ei. discriminate Ei. }
  constructor.
  - intros i j ti tj Hi Hj Ei Ej.
    rewrite (Hone _ _ Hi Ei), (Hone _ _ Hj Ej). reflexivity.
  - intros _ _ _ _. exact Hrun.
  - intros j Hj. destruct (th_queued _ _ T _ Hj) as (tj & Htj & Hph).
    exists tj. rewrite Hat.
    destruct (decide (id = j)) as [<- | _]; [contradiction | auto].
  - exact (th_sorted _ _ T).
  - exact (th_starts_sorted _ _ T).
  - exact (th_starts_before _ _ T).
  - intros s Hs. unfold setTask. cbn. rewrite length_insert.
    exact (th_starts_bound _ _ T _ Hs).
  - intros E. cbn in E. congruence.
Qed.

(** The head of the queue is taken: its start is recorded. *)
Lemma throttled_dequeue (q : list nat) (id : nat) (st : state) :
  idle st -> running st = true -> throttled (id :: q) st ->
  throttled q (emit (ETaskStart id) st)
  /\ idle (emit (ETaskStart id) st)
  /\ id ∉ q.
Proof.
  intros Hidle Hrun T.
  pose proof (th_sorted _ _ T) as Hsorted.
  apply StronglySorted_cons in Hsorted as [Hhead Hsorted].
  rewrite Forall_forall in Hhead.
  assert (Hnot : id ∉ q).
  { intros Hin. specialize (Hhead _ Hin). lia. }
  destruct (th_queued _ _ T id) as (t & Ht & Hph); [left |].
  split; [| split; [exact Hidle | exact Hnot]].
  constructor.
  - intros i j ti tj Hi Hj Ei. rewrite (Hidle _ _ Hi) in Ei. discriminate Ei.
  - intros _ _ _ _. exact Hrun.
  - intros j Hj. apply (th_queued _ _ T). right. exact Hj.
  - exact Hsorted.
  - cbn [effects emit]. rewrite taskStarts_app. cbn [taskStarts flat_map app].
    apply StronglySorted_app. split; [| split].
    + intros s x Hs Hx. apply list_elem_of_singleton in Hx as ->.
      apply (th_starts_before _ _ T); [exact Hs | left].
    + exact (th_starts_sorted _ _ T).
    + repeat constructor.
  - cbn [effects emit]. rewrite taskStarts_app. cbn [taskStarts flat_map app].
    intros s j Hs Hj. apply elem_of_app in Hs as [Hs | Hs].
    + apply (th_starts_before _ _ T); [exact Hs | right; exact Hj].
    + apply list_elem_of_singleton in Hs as ->. apply Hhead. exact Hj.
  - cbn [effects emit ops]. rewrite taskStarts_app. cbn [taskStarts flat_map app].
    intros s Hs. apply elem_of_app in Hs as [Hs | Hs].
    + exact (th_starts_bound _ _ T _ Hs).
    + apply list_elem_of_singleton in Hs as ->. exact (taskAt_bound _ _ _ Ht).
  - intros E. cbn in E. congruence.
Qed.

Section ThrottlerProperties.

Variable join : string -> string -> string.
Variable dirname : string -> string.
Variable targetPath : string.

(** Starting the head of the queue keeps the invariant; when the call
    returns with the task already over, no task executes. *)
Lemma throttled_startTask (q : list nat) (id : nat) (st : state) :
  idle st -> running st = true -> throttled (id :: q) st ->
  let r := startTask join dirname id targetPath st in
  fifo (fst r) = fifo st /\ running (fst r) = true /\ throttled q (fst r)
  /\ (snd r = false -> idle (fst r)).
Proof.
  intros Hidle Hrun T.
  destruct (throttled_dequeue q id st Hidle Hrun T) as (T1 & Hidle1 & Hnot).
  destruct (th_queued _ _ T id) as (t & Ht & Hph); [left |].
  pose proof Ht as Hlook. apply taskAt_lookup in Hlook.
  unfold startTask. rewrite Hlook, Hph. cbv zeta.
  set (st1 := emit (ETaskStart id) st) in *.
  assert (Ht1 : taskAt st1 id = Some t) by exact Ht.
  destruct (taskStream t) as [| [u | e |]]; cbn [fst snd].
  - split; [reflexivity |]. split; [exact Hrun |]. split; [| discriminate].
    apply (throttled_begin q id t); assumption.
  - split; [reflexivity |]. split; [exact Hrun |]. split; [| discriminate].
    unfold extractEntry.
    apply (throttled_begin q id t); try assumption.
    eapply throttled_frame; [| | | | exact T1]; try reflexivity.
    cbn. rewrite taskStarts_app. cbn. rewrite app_nil_r. reflexivity.
  - destruct (settleOp_view id (Rejected e) st1) as (_ & Hr & Hf & _).
    split; [rewrite Hf; reflexivity |]. split; [rewrite Hr; exact Hrun |].
    split; [apply throttled_settleOp; assumption |].
    intros _. apply idle_settleOp_idle. exact Hidle1.
  - destruct (settleOp_view id Canceled st1) as (_ & Hr & Hf & _).
    split; [rewrite Hf; reflexivity |]. split; [rewrite Hr; exact Hrun |].
    split; [apply throttled_settleOp; assumption |].
    intros _. apply idle_settleOp_idle. exact Hidle1.
Qed.

(** The loop of the throttler ends in a state where the queue left is the
    queue of the state and the invariant holds. *)
Lemma throttled_throttlerNext (q : list nat) (st : state) :
  idle st -> running st = true -> throttled q st ->
  throttled (fifo (throttlerNext join dirname q targetPath st))
    (throttlerNext join dirname q targetPath st).
Proof.
  revert st. induction q as [| id q IH]; intros st Hidle Hrun T; cbn [throttlerNext].
  - cbn [fifo setRunning setFifo]. constructor.
    + intros i j ti tj Hi Hj Ei. rewrite (Hidle _ _ Hi) in Ei. discriminate Ei.
    + intros i t Hi Ei. rewrite (Hidle _ _ Hi) in Ei. discriminate Ei.
    + intros id Hid. apply elem_of_nil in Hid. contradiction.
    + constructor.
    + exact (th_starts_sorted _ _ T).
    + intros s id _ Hid. apply elem_of_nil in Hid. contradiction.
    + exact (th_starts_bound _ _ T).
    + reflexivity.
  - assert (T0 : throttled (id :: q) (setFifo q st)).
    { eapply throttled_frame; [| | | | exact T]; reflexivity. }
    pose proof (throttled_startTask q id (setFifo q st) Hidle Hrun T0) as H. cbv zeta in H.
    destruct (startTask join dirname id targetPath (setFifo q st)) as [st' busy].
    cbn [fst snd] in H. destruct H as (Hf & Hr & T' & Hidle').
    destruct busy.
    + rewrite Hf. exact T'.
    + apply IH; [apply Hidle'; reflexivity | exact Hr | exact T'].
Qed.

(** The task that executes is over. *)
Lemma throttled_taskDone (id : nat) (t : fileTask) (o : outcome unit) (st : state) :
  throttled (fifo st) st -> taskAt st id = Some t -> executing t = true ->
  throttled (fifo (taskDone join dirname id o targetPath st))
    (taskDone join dirname id o targetPath st).
Proof.
  intros T Ht Et. unfold taskDone.
  destruct (settleOp_view id o st) as (_ & Hr & Hf & _).
  assert (Hnot : id ∉ fifo st).
  { intros Hin. destruct (th_queued _ _ T _ Hin) as (t0 & Ht0 & Hph).
    rewrite Ht in Ht0. injection Ht0 as <-. unfold executing in Et.
    rewrite Hph in Et. discriminate Et. }
  apply throttled_throttlerNext.
  - exact (idle_settleOp _ _ _ _ _ T Ht Et).
  - rewrite Hr. exact (th_flag _ _ T _ _ Ht Et).
  - rewrite Hf. apply throttled_settleOp; assumption.
Qed.

Lemma StronglySorted_filter (P : nat -> Prop) `{!forall x, Decision (P x)} (l : list nat) :
  StronglySorted lt l -> StronglySorted lt (filter P l).
Proof.
  induction l as [| x l IH]; intros Hs.
  - constructor.
  - apply StronglySorted_cons in Hs as [Hx Hl]. rewrite filter_cons.
    destruct (decide (P x)); [| apply IH; exact Hl].
    apply StronglySorted_cons. split; [| apply IH; exact Hl].
    rewrite Forall_forall in *. intros y Hy.
    apply list_elem_of_filter in Hy as [_ Hy]. apply Hx. exact Hy.
Qed.

Lemma throttled_filter (P : nat -> Prop) `{!forall x, Decision (P x)} (q : list nat) (st : state) :
  throttled q st -> throttled (filter P q) st.
Proof.
  intros T. constructor.
  - exact (th_unique _ _ T).
  - exact (th_flag _ _ T).
  - intros id Hid. apply list_elem_of_filter in Hid as [_ Hid]. exact (th_queued _ _ T _ Hid).
  - apply StronglySorted_filter. exact (th_sorted _ _ T).
  - exact (th_starts_sorted _ _ T).
  - intros s id Hs Hid. apply list_elem_of_filter in Hid as [_ Hid].
    exact (th_starts_before _ _ T _ _ Hs Hid).
  - exact (th_starts_bound _ _ T).
  - intros E. rewrite (th_idle_empty _ _ T E). reflexivity.
Qed.

(** An effect that is not the start of a task. *)
Lemma throttled_emit (q : list nat) (e : effect) (st : state) :
  taskStarts [e] = [] -> throttled q st -> throttled q (emit e st).
Proof.
  intros He. apply throttled_frame; try reflexivity.
  cbn [effects emit]. rewrite taskStarts_app, He, app_nil_r. reflexivity.
Qed.

Lemma not_queued_dir (st : state) (id : nat) (path : string) (p : promise unit) :
  serialized st -> ops st !! id = Some (DirOp path p) -> id ∉ fifo st.
Proof.
  intros T Hlook Hin. destruct (th_queued _ _ T _ Hin) as (t & Ht & _).
  unfold taskAt in Ht. rewrite Hlook in Ht. discriminate Ht.
Qed.

Lemma serialized_settle_dir (st : state) (id : nat) (path : string) (p : promise unit)
    (o : outcome unit) :
  serialized st -> ops st !! id = Some (DirOp path p) -> serialized (settleOp id o st).
Proof.
  intros T Hlook. unfold serialized.
  destruct (settleOp_view id o st) as (_ & _ & Hf & _). rewrite Hf.
  apply throttled_settleOp; [eapply not_queued_dir; eassumption | exact T].
Qed.

Lemma serialized_onStreamOpened (id : nat) (r : option Error) (st : state) :
  serialized st -> serialized (onStreamOpened join dirname id r targetPath st).
Proof.
  intros T. unfold onStreamOpened.
  destruct (ops st !! id) as [[path p | t] |] eqn:Hlook; try exact T.
  assert (Ht : taskAt st id = Some t) by (apply taskAt_lookup; exact Hlook).
  destruct (taskStream t) as [| so]; [| exact T].
  assert (Hsame : forall s, serialized (setTask id (withStream s t) st)).
  { intros s. unfold serialized. cbn [fifo setTask setOps].
    apply (throttled_setTask _ id t); [exact Ht | reflexivity | auto | exact T]. }
  cbn [taskPhase withStream].
  destruct (taskPhase t) eqn:Hph; try apply Hsame.
  destruct r as [e |].
  - apply (throttled_taskDone id (withStream (Settled (ofCallback (Some e))) t));
      [apply Hsame | |].
    + rewrite (taskAt_setTask id id t) by exact Ht.
      destruct (decide (id = id)); [reflexivity | contradiction].
    + unfold executing. cbn. rewrite Hph. reflexivity.
  - unfold extractEntry, serialized. cbn [fifo setTask setOps emit].
    apply (throttled_setTask _ id t).
    + exact Ht.
    + unfold executing. cbn. rewrite Hph. reflexivity.
    + intros E. rewrite Hph in E. discriminate E.
    + apply throttled_emit; [reflexivity | exact T].
Qed.

Lemma serialized_onMkdirpDone (id : nat) (r : option Error) (st : state) :
  serialized st -> serialized (onMkdirpDone join dirname id r targetPath st).
Proof.
  intros T. unfold onMkdirpDone.
  destruct (ops st !! id) as [[path p | t] |] eqn:Hlook; try exact T.
  - destruct p; [| exact T]. eapply serialized_settle_dir; eassumption.
  - assert (Ht : taskAt st id = Some t) by (apply taskAt_lookup; exact Hlook).
    destruct (taskPhase t) eqn:Hph; try exact T.
    destruct r as [e |].
    + apply (throttled_taskDone id t); [exact T | exact Ht |].
      unfold executing. rewrite Hph. reflexivity.
    + unfold openSink, serialized. cbn [fifo setTask setOps emit].
      apply (throttled_setTask _ id t).
      * exact Ht.
      * unfold executing. cbn. rewrite Hph. reflexivity.
      * intros E. rewrite Hph in E. discriminate E.
      * apply throttled_emit; [reflexivity |].
        apply throttled_emit; [reflexivity | exact T].
Qed.

Lemma serialized_piping (id : nat) (o : outcome unit) (st : state) :
  serialized st ->
  serialized
    match ops st !! id with
    | Some (FileOp t) =>
        match taskPhase t with
        | Piping => taskDone join dirname id o targetPath st
        | _ => st
        end
    | _ => st
    end.
Proof.
  intros T.
  destruct (ops st !! id) as [[path p | t] |] eqn:Hlook; try exact T.
  assert (Ht : taskAt st id = Some t) by (apply taskAt_lookup; exact Hlook).
  destruct (taskPhase t) eqn:Hph; try exact T.
  apply (throttled_taskDone id t); [exact T | exact Ht |].
  unfold executing. rewrite Hph. reflexivity.
Qed.

Lemma serialized_cancelOp (id : nat) (st : state) :
  serialized st -> serialized (cancelOp join dirname id targetPath st).
Proof.
  intros T. unfold cancelOp.
  destruct (ops st !! id) as [[path p | t] |] eqn:Hlook; try exact T.
  - destruct p; [| exact T]. eapply serialized_settle_dir; eassumption.
  - assert (Ht : taskAt st id = Some t) by (apply taskAt_lookup; exact Hlook).
    destruct (taskPhase t) eqn:Hph; try exact T.
    + unfold serialized.
      destruct (settleOp_view id Canceled
                  (setFifo (filter (fun j => j <> id) (fifo st)) st)) as (_ & _ & Hf & _).
      rewrite Hf. cbn [fifo setFifo].
      apply throttled_settleOp.
      * intros Hin. apply list_elem_of_filter in Hin as [Hne _]. contradiction.
      * eapply throttled_frame; [| | | | apply throttled_filter; exact T]; reflexivity.
    + apply (throttled_taskDone id t); [exact T | exact Ht |].
      unfold executing. rewrite Hph. reflexivity.
    + apply (throttled_taskDone id t); [exact T | exact Ht |].
      unfold executing. rewrite Hph. reflexivity.
    + apply (throttled_taskDone id t).
      * unfold serialized. cbn [fifo emit]. apply throttled_emit; [reflexivity | exact T].
      * exact Ht.
      * unfold executing. rewrite Hph. reflexivity.
Qed.

Lemma taskAt_snoc (st : state) (x : op) (i : nat) :
  taskAt (setOps (ops st ++ [x]) st) i
    = if decide (i = length (ops st))
      then match x with FileOp t => Some t | DirOp _ _ => None end
      else taskAt st i.
Proof.
  unfold taskAt. cbn [ops setOps].
  destruct (decide (i = length (ops st))) as [-> | Hne].
  - rewrite list_lookup_middle by reflexivity. destruct x; reflexivity.
  - destruct (Nat.lt_ge_cases i (length (ops st))) as [Hlt | Hge].
    + rewrite lookup_app_l by exact Hlt. reflexivity.
    + assert (E1 : (ops st ++ [x]) !! i = None).
      { apply lookup_ge_None. rewrite length_app. cbn. lia. }
      assert (E2 : ops st !! i = None) by (apply lookup_ge_None; lia).
      rewrite E1, E2. reflexivity.
Qed.

(** A directory operation joins the operations: the throttler does not see
    it. *)
Lemma throttled_new_dir (q : list nat) (path : string) (st : state) :
  throttled q st -> throttled q (setOps (ops st ++ [DirOp path Pending]) st).
Proof.
  apply throttled_frame; try reflexivity.
  - intros i. rewrite taskAt_snoc.
    destruct (decide (i = length (ops st))) as [-> | _]; [| reflexivity].
    unfold taskAt.
    assert (E : ops st !! length (ops st) = None) by (apply lookup_ge_None; lia).
    rewrite E. reflexivity.
  - cbn. rewrite length_app. lia.
Qed.

(** A file task joins the operations and the tail of the queue. *)
Lemma throttled_enqueue (q : list nat) (t : fileTask) (st : state) :
  taskPhase t = Queued -> throttled q st ->
  throttled (q ++ [length (ops st)])
    (setRunning true (setOps (ops st ++ [FileOp t]) st)).
Proof.
  intros Hph T.
  set (st1 := setRunning true (setOps (ops st ++ [FileOp t]) st)).
  assert (Hat : forall i, taskAt st1 i
                  = if decide (i = length (ops st)) then Some t else taskAt st i).
  { intros i. subst st1. apply (taskAt_snoc st (FileOp t) i). }
  assert (Hexec : forall i ti, taskAt st1 i = Some ti -> executing ti = true ->
                    taskAt st i = Some ti).
  { intros i ti Hi Ei. rewrite Hat in Hi.
    destruct (decide (i = length (ops st))) as [-> | _]; [| exact Hi].
    injection Hi as <-. unfold executing in Ei. rewrite Hph in Ei. discriminate Ei. }
  constructor.
  - intros i j ti tj Hi Hj Ei Ej.
    exact (th_unique _ _ T _ _ _ _ (Hexec _ _ Hi Ei) (Hexec _ _ Hj Ej) Ei Ej).
  - intros _ _ _ _. reflexivity.
  - intros id Hid. apply elem_of_app in Hid as [Hid | Hid].
    + destruct (th_queued _ _ T _ Hid) as (tq & Htq & Hq).
      exists tq. rewrite Hat.
      destruct (decide (id = length (ops st))) as [-> | _]; [| auto].
      apply taskAt_bound in Htq. lia.
    + apply list_elem_of_singleton in Hid as ->. exists t. rewrite Hat.
      destruct (decide (length (ops st) = length (ops st))); [auto | contradiction].
  - apply StronglySorted_app. split; [| split].
    + intros x y Hx Hy. apply list_elem_of_singleton in Hy as ->.
      destruct (th_queued _ _ T _ Hx) as (tq & Htq & _).
      exact (taskAt_bound _ _ _ Htq).
    + exact (th_sorted _ _ T).
    + repeat constructor.
  - exact (th_starts_sorted _ _ T).
  - intros s id Hs Hid. apply elem_of_app in Hid as [Hid | Hid].
    + exact (th_starts_before _ _ T _ _ Hs Hid).
    + apply list_elem_of_singleton in Hid as ->. exact (th_starts_bound _ _ T _ Hs).
  - intros s Hs. subst st1. cbn. rewrite length_app.
    pose proof (th_starts_bound _ _ T _ Hs). lia.
  - intros E. discriminate E.
Qed.

Lemma idle_new_task (t : fileTask) (st : state) :
  taskPhase t = Queued -> idle st ->
  idle (setRunning true (setOps (ops st ++ [FileOp t]) st)).
Proof.
  intros Hph Hidle i ti Hi.
  change (taskAt (setOps (ops st ++ [FileOp t]) st) i = Some ti) in Hi.
  rewrite taskAt_snoc in Hi.
  destruct (decide (i = length (ops st))) as [-> | _].
  - injection Hi as <-. unfold executing. rewrite Hph. reflexivity.
  - exact (Hidle _ _ Hi).
Qed.

Lemma serialized_throttlerQueue (t : fileTask) (st : state) :
  taskPhase t = Queued -> serialized st ->
  serialized
    (throttlerQueue join dirname (length (ops st)) targetPath
       (setOps (ops st ++ [FileOp t]) st)).
Proof.
  intros Hph T. pose proof (throttled_enqueue _ t st Hph T) as T1.
  unfold throttlerQueue. cbn [running setOps fifo].
  destruct (running st) eqn:Hrun.
  - unfold serialized. cbn [fifo setFifo].
    eapply throttled_frame; [| | | | exact T1]; try reflexivity. cbn. exact Hrun.
  - rewrite (th_idle_empty _ _ T Hrun) in T1. cbn [app] in T1.
    assert (Hidle : idle st).
    { intros i ti Hi. destruct (executing ti) eqn:Ei; [| reflexivity].
      rewrite (th_flag _ _ T _ _ Hi Ei) in Hrun. discriminate Hrun. }
    pose proof (throttled_startTask [] (length (ops st)) _
                  (idle_new_task t st Hph Hidle) eq_refl T1) as H.
    cbv zeta in H.
    destruct (startTask join dirname (length (ops st)) targetPath
                (setRunning true (setOps (ops st ++ [FileOp t]) st))) as [st' busy].
    cbn [fst snd] in H. destruct H as (Hf & Hr & T' & Hidle').
    cbn [fifo setRunning setOps] in Hf. rewrite (th_idle_empty _ _ T Hrun) in Hf.
    destruct busy.
    + unfold serialized. rewrite Hf. exact T'.
    + apply throttled_throttlerNext; [apply Hidle'; reflexivity | exact Hr |].
      rewrite Hf. exact T'.
Qed.

Lemma serialized_onEntry (options : IOptions) (entry : Entry) (st : state) :
  serialized st -> serialized (onEntry join dirname entry targetPath options st).
Proof.
  intros T. unfold onEntry. cbv zeta.
  destruct (isCanceled st); [exact T |].
  destruct (relativeFileName _ _) as [name |]; [| exact T].
  destruct (RegExp.test endsWithSlash name); unfold newOp.
  - unfold serialized. cbn [fifo setLast setOps emit ops].
    eapply throttled_frame;
      [| | | | apply (throttled_new_dir (fifo st) (join targetPath name));
               apply (throttled_emit _ (EMkdirp (join targetPath name)));
               [reflexivity | exact T]]; reflexivity.
  - cbn [ops emit].
    set (t := mkTask name (modeFromEntry entry) Pending Queued).
    set (st0 := emit (EOpenReadStream (fileName entry)) st).
    assert (T0 : serialized st0).
    { unfold serialized. apply throttled_emit; [reflexivity | exact T]. }
    pose proof (serialized_throttlerQueue t st0 eq_refl T0) as H.
    unfold serialized in *. cbn [fifo setLast].
    eapply throttled_frame; [| | | | exact H]; reflexivity.
Qed.

Lemma serialized_onClose (st : state) : serialized st -> serialized (onClose st).
Proof.
  intros T. unfold onClose. destruct (closeFired st); [exact T |].
  destruct (lastPromise _).
  - unfold serialized. eapply throttled_frame; [| | | | exact T]; reflexivity.
  - unfold settleOuter. destruct (outer _);
      unfold serialized; (eapply throttled_frame; [| | | | exact T]; reflexivity).
Qed.

Lemma serialized_onError (err : Error) (st : state) :
  serialized st -> serialized (onError err st).
Proof.
  intros T. unfold onError. destruct (errorFired st); [exact T |].
  unfold settleOuter. destruct (outer _);
    unfold serialized; (eapply throttled_frame; [| | | | exact T]; reflexivity).
Qed.

Lemma serialized_onCancel (st : state) :
  serialized st -> serialized (onCancel join dirname targetPath st).
Proof.
  intros T. unfold onCancel. destruct (outer st); [| exact T].
  set (st1 := setCanceled true st).
  assert (T1 : serialized st1).
  { unfold serialized. eapply throttled_frame; [| | | | exact T]; reflexivity. }
  set (st2 := match last st1 with
              | Some id => cancelOp join dirname id targetPath st1
              | None => st1
              end).
  assert (T2 : serialized st2).
  { subst st2. destruct (last st1); [apply serialized_cancelOp |]; exact T1. }
  unfold serialized. cbn [fifo setOuter emit].
  eapply throttled_frame; [| | | | exact T2]; try reflexivity.
  cbn. rewrite taskStarts_app. cbn. rewrite app_nil_r. reflexivity.
Qed.

Lemma serialized_step (options : IOptions) (ev : event) (st : state) :
  serialized st -> serialized (step join dirname targetPath options st ev).
Proof.
  intros T. destruct ev; cbn [step].
  - apply serialized_onEntry. exact T.
  - apply serialized_onClose. exact T.
  - apply serialized_onError. exact T.
  - apply serialized_onStreamOpened. exact T.
  - apply serialized_onMkdirpDone. exact T.
  - apply (serialized_piping id (Fulfilled tt)). exact T.
  - apply (serialized_piping id (Rejected err)). exact T.
  - apply (serialized_piping id (Rejected err)). exact T.
  - apply serialized_onCancel. exact T.
Qed.

Lemma serialized_run (options : IOptions) (evs : list event) (st : state) :
  serialized st -> serialized (run join dirname targetPath options evs st).
Proof.
  revert st. induction evs as [| ev evs IH]; intros st T.
  - exact T.
  - rewrite run_cons. apply IH, serialized_step, T.
Qed.

Lemma serialized_initial (log : list effect) :
  taskStarts log = [] -> serialized (initial log).
Proof.
  intros Hlog. constructor; cbn -[taskStarts].
  - intros i j ti tj Hi. unfold taskAt in Hi. cbn in Hi. discriminate Hi.
  - intros i t Hi. unfold taskAt in Hi. cbn in Hi. discriminate Hi.
  - intros id Hid. apply elem_of_nil in Hid. contradiction.
  - constructor.
  - rewrite Hlog. constructor.
  - intros s id _ Hid. apply elem_of_nil in Hid. contradiction.
  - rewrite Hlog. intros s Hs. apply elem_of_nil in Hs. contradiction.
  - reflexivity.
Qed.

End ThrottlerProperties.

(** C6: in every state an extraction can reach, at most one file task body
    is executing; the task bodies have been started in the order of arrival
    of their entries (an operation is numbered by its rank of arrival); and
    a directory entry is handled without the throttler: its [mkdirp] is
    issued at once and the queue and the flag of the throttler stay as they
    are. *)
Theorem file_writes_serialized (join : string -> string -> string)
    (dirname : string -> string) (targetPath : string) (options : IOptions)
    (log : list effect) (evs : list event) :
  taskStarts log = [] ->
  let st := run join dirname targetPath options evs (initial log) in
  (forall i j ti tj,
     taskAt st i = Some ti -> taskAt st j = Some tj ->
     executing ti = true -> executing tj = true -> i = j)
  /\ StronglySorted lt (taskStarts (effects st))
  /\ (forall entry name,
        isCanceled st = false ->
        relativeFileName (sourcePathRegex options) (fileName entry) = Some name ->
        RegExp.test endsWithSlash name = true ->
        let st' := step join dirname targetPath options st (ZipEntry entry) in
        running st' = running st /\ fifo st' = fifo st
        /\ effects st' = effects st ++ [EMkdirp (join targetPath name)]
        /\ ops st' = ops st ++ [DirOp (join targetPath name) Pending]
        /\ last st' = Some (length (ops st))).
Proof.
  intros Hlog st.
  assert (T : serialized st).
  { apply serialized_run, serialized_initial, Hlog. }
  split; [exact (th_unique _ _ T) |]. split; [exact (th_starts_sorted _ _ T) |].
  intros entry name Hc Hname Hdir. cbv zeta. cbn [step]. unfold onEntry. cbv zeta.
  rewrite Hc, Hname, Hdir. cbn. auto.
Qed.

(** * Further properties *)

(** ** Mode translation *)

Lemma modeFromEntry_land (name : string) (a : Z) :
  0 <= a < 2 ^ 32 ->
  modeFromEntry (mkEntry name a) = Z.land (storedMode a) keptBits.
Proof.
  intros Ha. destruct (attr_low16 a Ha) as [Hr Hm].
  unfold modeFromEntry. cbn [externalFileAttributes map fold_left].
  rewrite !band_mask by (exact Hr || lia).
  rewrite Hm.
  rewrite (land_add_disjoint _ 61440 448) by reflexivity.
  rewrite (land_add_disjoint _ _ 56) by reflexivity.
  rewrite (land_add_disjoint _ _ 7) by reflexivity.
  reflexivity.
Qed.

(** Selecting bits of a mask that is not negative stays within the mask. *)
Lemma land_le_mask (x m : Z) : 0 <= m -> 0 <= Z.land x m <= m.
Proof.
  intros Hm. split; [apply Z.land_nonneg; right; exact Hm |].
  assert (Hsplit : Z.land m x + Z.land m (Z.lnot x) = m).
  { rewrite land_add_disjoint by apply Z.land_lnot_diag.
    rewrite Z.lor_lnot_diag. apply Z.land_m1_r. }
  assert (Hrest : 0 <= Z.land m (Z.lnot x)) by (apply Z.land_nonneg; left; exact Hm).
  rewrite (Z.land_comm x m). lia.
Qed.

Lemma modeFromEntry_range (name : string) (a : Z) :
  0 <= a < 2 ^ 32 -> 0 <= modeFromEntry (mkEntry name a) <= keptBits.
Proof.
  intros Ha. rewrite modeFromEntry_land by exact Ha.
  apply land_le_mask. unfold keptBits. lia.
Qed.

(** X1: an attribute word without a Unix mode (its high half is zero, as
    in archives written on DOS or Windows) gives the regular file mode
    33188, octal 100644. *)
Theorem modeFromEntry_default (name : string) (a : Z) :
  0 <= a < 2 ^ 16 -> modeFromEntry (mkEntry name a) = 33188.
Proof.
  intros Ha. rewrite modeFromEntry_land by lia.
  unfold storedMode. rewrite Z.shiftr_div_pow2 by lia.
  rewrite Z.div_small by lia. reflexivity.
Qed.

(** X2: whatever the attribute word, the mode has none of the set-user-id,
    set-group-id and sticky bits, and lies within the file type and
    permission bits. *)
Theorem modeFromEntry_no_special_bits (name : string) (a : Z) :
  0 <= a < 2 ^ 32 ->
  Z.land (modeFromEntry (mkEntry name a)) specialBits = 0
  /\ 0 <= modeFromEntry (mkEntry name a) <= keptBits.
Proof.
  intros Ha. rewrite modeFromEntry_land by exact Ha. split.
  - rewrite <- Z.land_assoc. change (Z.land keptBits specialBits) with 0.
    apply Z.land_0_r.
  - rewrite <- (modeFromEntry_land name a Ha). apply modeFromEntry_range. exact Ha.
Qed.

(** X3: the translation is a projection.  An entry that stores, as its
    Unix mode, the mode computed for another entry gets that same mode;
    the one exception is the mode 0, which reads as "no Unix mode" and
    gives the default 33188. *)
Theorem modeFromEntry_projection (name name' : string) (a : Z) :
  0 <= a < 2 ^ 32 ->
  let mode := modeFromEntry (mkEntry name a) in
  modeFromEntry (mkEntry name' (Z.shiftl mode 16))
    = if mode =? 0 then 33188 else mode.
Proof.
  intros Ha mode.
  pose proof (modeFromEntry_range name a Ha) as Hrange.
  fold mode in Hrange. unfold keptBits in Hrange.
  assert (Hword : 0 <= Z.shiftl mode 16 < 2 ^ 32).
  { rewrite Z.shiftl_mul_pow2 by lia. lia. }
  assert (Hback : Z.shiftr (Z.shiftl mode 16) 16 = mode).
  { rewrite Z.shiftr_shiftl_l by lia. apply Z.shiftl_0_r. }
  rewrite modeFromEntry_land by exact Hword.
  unfold storedMode. rewrite Hback.
  destruct (Z.eqb_spec mode 0) as [E | E]; [reflexivity |].
  subst mode. rewrite (modeFromEntry_land name a Ha).
  rewrite <- Z.land_assoc. reflexivity.
Qed.

(** ** Entry filter *)

Lemma stripPrefix_spec (p s r : string) :
  stripPrefix p s = Some r <-> s = p +:+ r.
Proof.
  revert s. induction p as [| c p IH]; intros s; cbn.
  - split; [intros H; injection H as ->; reflexivity | intros ->; reflexivity].
  - destruct s as [| d s].
    + split; intros H; discriminate H.
    + destruct (Ascii.eqb_spec c d) as [-> | Hne].
      * rewrite IH. split; [intros ->; reflexivity | intros H; injection H as ->; reflexivity].
      * split; [intros H; discriminate H | intros H; injection H as -> _; contradiction].
Qed.

(** X4: without a source path, or with the empty one, every entry is in
    scope and keeps its name. *)
Theorem no_sourcePath_keeps_every_entry (ow : option bool) (sp : option string) :
  JS.truthy_string sp = false ->
  exists re,
    newSourcePathRegex (mkOptions ow sp) = Some re
    /\ forall entryName, relativeFileName re entryName = Some entryName.
Proof.
  intros Hsp.
  assert (Hpat : sourcePathPattern (mkOptions ow sp) = "").
  { unfold sourcePathPattern. cbn [sourcePath]. destruct sp as [p |]; [| reflexivity].
    rewrite Hsp. reflexivity. }
  exists (RegExp.mk false [] false). split.
  - unfold newSourcePathRegex. rewrite Hpat. reflexivity.
  - intros entryName.
    unfold relativeFileName, RegExp.test, RegExp.replace, RegExp.exec.
    cbn. destruct entryName; reflexivity.
Qed.

(** X5: for a source path without pattern syntax characters, an entry is
    in scope exactly when its name is the source path followed by some
    rest, and that rest is its relative name. *)
Theorem plain_sourcePath_strips_prefix (ow : option bool) (p : string) :
  plainPath p = true ->
  exists re,
    newSourcePathRegex (mkOptions ow (Some p)) = Some re
    /\ forall entryName r,
         relativeFileName re entryName = Some r <-> entryName = p +:+ r.
Proof.
  intros Hp.
  destruct (relativeFileName_plain ow p "" Hp) as (re & Hre & _).
  exists re. split; [exact Hre |].
  intros entryName r.
  destruct (relativeFileName_plain ow p entryName Hp) as (re' & Hre' & Hrel).
  rewrite Hre in Hre'. injection Hre' as <-.
  rewrite Hrel. cbn [filter_spec]. apply stripPrefix_spec.
Qed.

Lemma dotted_not_anchor (c : ascii) :
  Ascii.eqb c "." || negb (RegExp.isSyntaxCharacter c) = true ->
  c <> "^"%char /\ c <> "$"%char.
Proof.
  intros H. split; intros ->; discriminate H.
Qed.

Lemma parseAtoms_dotted (p : string) :
  dottedPath p = true ->
  RegExp.parseAtoms p = Some (map atomOf (list_ascii_of_string p), false).
Proof.
  unfold dottedPath. induction p as [| c p IH]; cbn [list_ascii_of_string forallb map].
  - reflexivity.
  - intros H. apply andb_true_iff in H as [Hc Hp].
    cbn [RegExp.parseAtoms]. destruct (dotted_not_anchor c Hc) as [_ Hdollar].
    destruct (Ascii.eqb_spec c "$") as [E | _]; [contradiction |].
    unfold atomOf at 1.
    destruct (Ascii.eqb c ".") eqn:Hdot.
    + rewrite (IH Hp). reflexivity.
    + cbn [orb] in Hc. apply negb_true_iff in Hc. rewrite Hc, (IH Hp). reflexivity.
Qed.

Lemma atomOf_matches (c : ascii) : RegExp.atomMatches (atomOf c) c = true.
Proof.
  unfold atomOf. destruct (Ascii.eqb_spec c ".") as [-> | _].
  - reflexivity.
  - cbn. apply Ascii.eqb_refl.
Qed.

Lemma matchHere_own_text (p rest : string) :
  RegExp.matchHere (map atomOf (list_ascii_of_string p)) false (p +:+ rest) = Some rest.
Proof.
  induction p as [| c p IH].
  - reflexivity.
  - change (String c p +:+ rest) with (String c (p +:+ rest)).
    cbn [list_ascii_of_string map RegExp.matchHere].
    rewrite atomOf_matches. exact IH.
Qed.

(** A match consumes one character for each atom. *)
Lemma matchHere_consumes (ats : list RegExp.atom) (toEnd : bool) (s r : string) :
  RegExp.matchHere ats toEnd s = Some r ->
  exists q, s = q +:+ r /\ String.length q = length ats.
Proof.
  revert s. induction ats as [| a ats IH]; intros s; cbn.
  - destruct toEnd.
    + destruct s; [| discriminate]. intros H. injection H as <-. exists "". auto.
    + intros H. injection H as ->. exists "". auto.
  - destruct s as [| c s]; [discriminate |].
    destruct (RegExp.atomMatches a c); [| discriminate].
    intros H. destruct (IH _ H) as (q & -> & Hlen).
    exists (String c q). cbn. auto.
Qed.

(** X6: a source path with dots (and no other pattern character) never
    loses an entry that starts with it, and gives it the right relative
    name; and whatever entry it lets in loses exactly as many leading
    characters as the source path has. *)
Theorem dotted_sourcePath_keeps_its_entries (ow : option bool) (p : string) :
  dottedPath p = true ->
  exists re,
    newSourcePathRegex (mkOptions ow (Some p)) = Some re
    /\ (forall rest, relativeFileName re (p +:+ rest) = Some rest)
    /\ (forall entryName r,
          relativeFileName re entryName = Some r ->
          exists q, entryName = q +:+ r /\ String.length q = String.length p).
Proof.
  intros Hp. destruct p as [| c p].
  - exists (RegExp.mk false [] false). split; [reflexivity |]. split.
    + intros rest. unfold relativeFileName, RegExp.test, RegExp.replace, RegExp.exec.
      cbn. destruct rest; reflexivity.
    + intros entryName r.
      unfold relativeFileName, RegExp.test, RegExp.replace, RegExp.exec.
      cbn. destruct entryName; cbn; intros H; injection H as <-; exists ""; auto.
  - exists (RegExp.mk true (map atomOf (list_ascii_of_string (String c p))) false).
    split; [| split].
    + unfold newSourcePathRegex, sourcePathPattern. cbn [sourcePath JS.truthy_string].
      cbn [String.eqb negb]. change ("^" +:+ String c p) with (String "^" (String c p)).
      cbn [RegExp.new]. rewrite (parseAtoms_dotted _ Hp). reflexivity.
    + intros rest. unfold relativeFileName, RegExp.test, RegExp.replace, RegExp.exec.
      cbn [RegExp.anchorStart RegExp.atoms RegExp.anchorEnd].
      rewrite matchHere_own_text. reflexivity.
    + intros entryName r.
      unfold relativeFileName, RegExp.test, RegExp.replace, RegExp.exec.
      cbn [RegExp.anchorStart RegExp.atoms RegExp.anchorEnd].
      destruct (RegExp.matchHere _ false entryName) as [rest |] eqn:Hm; [| discriminate].
      cbn [negb]. intros H. injection H as <-.
      destruct (matchHere_consumes _ _ _ _ Hm) as (q & -> & Hlen).
      exists q. split; [reflexivity |].
      rewrite Hlen, length_map. clear. generalize (String c p). intros s.
      induction s; cbn; congruence.
Qed.

(** One step of the search for [/\/$/]. *)
Lemma search_slash_cons (c : ascii) (s : string) :
  RegExp.search [RegExp.Lit "/"] true (String c s)
    = if Ascii.eqb c "/" && String.eqb s ""
      then Some ("", "")
      else match RegExp.search [RegExp.Lit "/"] true s with
           | Some (before, after) => Some (String c before, after)
           | None => None
           end.
Proof.
  cbn [RegExp.search RegExp.matchHere RegExp.atomMatches].
  destruct (Ascii.eqb c "/"); [| reflexivity].
  destruct s; reflexivity.
Qed.

Lemma search_slash_end (s b a : string) :
  RegExp.search [RegExp.Lit "/"] true s = Some (b, a) -> s = b +:+ "/" /\ a = "".
Proof.
  revert b a. induction s as [| c s IH]; intros b a.
  - discriminate.
  - rewrite search_slash_cons.
    destruct (Ascii.eqb_spec c "/") as [-> | Hne]; cbn [andb].
    + destruct (String.eqb_spec s "") as [-> | Hs].
      * intros H. injection H as <- <-. auto.
      * destruct (RegExp.search [RegExp.Lit "/"] true s) as [[b' a'] |]; [| discriminate].
        intros H. injection H as <- <-. destruct (IH _ _ eq_refl) as [-> ->]. auto.
    + destruct (RegExp.search [RegExp.Lit "/"] true s) as [[b' a'] |]; [| discriminate].
      intros H. injection H as <- <-. destruct (IH _ _ eq_refl) as [-> ->]. auto.
Qed.

Lemma search_slash_found (s' : string) :
  RegExp.search [RegExp.Lit "/"] true (s' +:+ "/") <> None.
Proof.
  induction s' as [| c s' IH].
  - discriminate.
  - change (String c s' +:+ "/") with (String c (s' +:+ "/")).
    rewrite search_slash_cons.
    destruct (Ascii.eqb c "/" && String.eqb (s' +:+ "/") ""); [discriminate |].
    destruct (RegExp.search [RegExp.Lit "/"] true (s' +:+ "/")) as [[b a] |];
      [discriminate | contradiction].
Qed.

(** X7: the directory test [/\/$/] holds exactly for the names that end
    with a slash. *)
Theorem endsWithSlash_iff (s : string) :
  RegExp.test endsWithSlash s = true <-> exists s', s = s' +:+ "/".
Proof.
  unfold RegExp.test, RegExp.exec, endsWithSlash.
  cbn [RegExp.anchorStart RegExp.atoms RegExp.anchorEnd]. split.
  - destruct (RegExp.search [RegExp.Lit "/"] true s) as [[b a] |] eqn:Hs; [| discriminate].
    intros _. destruct (search_slash_end _ _ _ Hs) as [-> _]. exists b. reflexivity.
  - intros [s' ->]. pose proof (search_slash_found s') as H.
    destruct (RegExp.search [RegExp.Lit "/"] true (s' +:+ "/")); [reflexivity | contradiction].
Qed.

(** ** Single-entry reader and buffer reader *)

Lemma readRun_snoc (filePath : string) (evs : list readEvent) (ev : readEvent) (st : readState) :
  readRun filePath (evs ++ [ev]) st = readStep filePath (readRun filePath evs st) ev.
Proof. unfold readRun. rewrite fold_left_app. reflexivity. Qed.

Lemma readRun_app (filePath : string) (evs1 evs2 : list readEvent) (st : readState) :
  readRun filePath (evs1 ++ evs2) st = readRun filePath evs2 (readRun filePath evs1 st).
Proof. unfold readRun. apply fold_left_app. Qed.

(** A settled promise of [read] is not touched again. *)
Lemma readPromise_settled_step (filePath : string) (st : readState) (ev : readEvent)
    (o : outcome nat) :
  readPromise st = Settled o -> readPromise (readStep filePath st ev) = Settled o.
Proof.
  intros Hr. destruct ev as [entry | | k r | k b | k | k err]; cbn [readStep].
  - destruct (String.eqb _ _); first [exact Hr | reflexivity].
  - destruct (readCloseFired st); [first [exact Hr | reflexivity] |].
    unfold settleRead. cbn. rewrite Hr. first [exact Hr | reflexivity].
  - destruct (Nat.ltb k (opened st)); [| first [exact Hr | reflexivity]].
    destruct r; unfold settleRead; rewrite Hr; first [exact Hr | reflexivity].
  - destruct (listening k st); first [exact Hr | reflexivity].
  - destruct (listening k st); [| first [exact Hr | reflexivity]].
    unfold settleBuffer. destruct (bufferPromise st); first [exact Hr | reflexivity].
  - destruct (listening k st && negb (streamErrorFired st)); [| first [exact Hr | reflexivity]].
    unfold settleBuffer. cbn. destruct (bufferPromise st); first [exact Hr | reflexivity].
Qed.

Lemma readPromise_settled_run (filePath : string) (evs : list readEvent) (st : readState)
    (o : outcome nat) :
  readPromise st = Settled o -> readPromise (readRun filePath evs st) = Settled o.
Proof.
  revert st. induction evs as [| ev evs IH]; intros st Hr.
  - first [exact Hr | reflexivity].
  - rewrite readRun_cons. apply IH, readPromise_settled_step, Hr.
Qed.

(** A settled promise of [buffer] is not touched again. *)
Lemma bufferPromise_settled_step (filePath : string) (st : readState) (ev : readEvent)
    (ro : outcome nat) (o : outcome Buffer) :
  readPromise st = Settled ro -> bufferPromise st = Settled o ->
  bufferPromise (readStep filePath st ev) = Settled o.
Proof.
  intros Hr Hb. destruct ev as [entry | | k r | k b | k | k err]; cbn [readStep].
  - destruct (String.eqb _ _); first [exact Hb | reflexivity].
  - destruct (readCloseFired st); [first [exact Hb | reflexivity] |].
    unfold settleRead. cbn. rewrite Hr. first [exact Hb | reflexivity].
  - destruct (Nat.ltb k (opened st)); [| first [exact Hb | reflexivity]].
    destruct r; unfold settleRead; rewrite Hr; first [exact Hb | reflexivity].
  - destruct (listening k st); first [exact Hb | reflexivity].
  - destruct (listening k st); [| first [exact Hb | reflexivity]].
    unfold settleBuffer. rewrite Hb. first [exact Hb | reflexivity].
  - destruct (listening k st && negb (streamErrorFired st)); [| first [exact Hb | reflexivity]].
    unfold settleBuffer. cbn. rewrite Hb. first [exact Hb | reflexivity].
Qed.

Lemma bufferPromise_settled_run (filePath : string) (evs : list readEvent) (st : readState)
    (ro : outcome nat) (o : outcome Buffer) :
  readPromise st = Settled ro -> bufferPromise st = Settled o ->
  bufferPromise (readRun filePath evs st) = Settled o.
Proof.
  revert st. induction evs as [| ev evs IH]; intros st Hr Hb.
  - first [exact Hb | reflexivity].
  - rewrite readRun_cons. apply IH.
    + apply readPromise_settled_step. first [exact Hr | reflexivity].
    + eapply bufferPromise_settled_step; eassumption.
Qed.

(** X8: one read stream is asked for per entry named exactly [filePath],
    and none for any other entry. *)
Theorem read_opens_one_stream_per_match (filePath : string) (evs : list readEvent) :
  opened (readRun filePath evs readInitial) = matchCount filePath evs.
Proof.
  induction evs as [| ev evs IH] using rev_ind.
  - reflexivity.
  - rewrite readRun_snoc. unfold matchCount in *.
    rewrite List.filter_app, length_app. cbn [List.filter].
    set (st := readRun filePath evs readInitial) in *.
    destruct ev as [entry | | k r | k b | k | k err]; cbn [readStep noMatch negb].
    + rewrite negb_involutive.
      destruct (String.eqb (fileName entry) filePath); cbn [opened length]; lia.
    + destruct (readCloseFired st); [cbn; lia |].
      unfold settleRead. cbn. destruct (readPromise st); cbn; lia.
    + destruct (Nat.ltb k (opened st)); [| cbn; lia].
      destruct r; unfold settleRead; destruct (readPromise st); cbn; lia.
    + destruct (listening k st); cbn; lia.
    + destruct (listening k st); [| cbn; lia].
      unfold settleBuffer. destruct (bufferPromise st); cbn; lia.
    + destruct (listening k st && negb (streamErrorFired st)); [| cbn; lia].
      unfold settleBuffer. cbn. destruct (bufferPromise st); cbn; lia.
Qed.

(** X9: when the read stream of a matching entry opens while [read] is
    pending, [read] resolves with it, and nothing that comes later (the
    close of the archive, another matching entry) changes that. *)
Theorem read_resolves_with_match (filePath : string) (pre post : list readEvent) (k : nat) :
  readPromise (readRun filePath pre readInitial) = Pending ->
  (k < opened (readRun filePath pre readInitial))%nat ->
  read None (pre ++ ROpened k None :: post) filePath = Settled (Fulfilled k).
Proof.
  intros Hp Hk.
  unfold read. cbn [openZip ofCallback wrapExtractError].
  change (fold_left (readStep filePath) (pre ++ ROpened k None :: post) readInitial)
    with (readRun filePath (pre ++ ROpened k None :: post) readInitial).
  rewrite readRun_app, readRun_cons.
  apply readPromise_settled_run. cbn [readStep].
  apply Nat.ltb_lt in Hk. rewrite Hk. unfold settleRead. rewrite Hp. reflexivity.
Qed.

(** While [read] is pending the [close] handler has not run. *)
Lemma pending_not_closed (filePath : string) (evs : list readEvent) :
  readPromise (readRun filePath evs readInitial) = Pending ->
  readCloseFired (readRun filePath evs readInitial) = false.
Proof.
  induction evs as [| ev evs IH] using rev_ind.
  - reflexivity.
  - rewrite readRun_snoc. set (st := readRun filePath evs readInitial) in *.
    destruct (readPromise st) as [| o] eqn:Hr.
    + specialize (IH eq_refl).
      destruct ev as [entry | | k r | k b | k | k err]; cbn [readStep].
      * destruct (String.eqb _ _); intros _; first [exact IH | reflexivity].
      * rewrite IH. unfold settleRead. cbn. rewrite Hr. cbn. discriminate.
      * destruct (Nat.ltb k (opened st)); [| intros _; first [exact IH | reflexivity]].
        destruct r; unfold settleRead; rewrite Hr; cbn; discriminate.
      * destruct (listening k st); intros _; first [exact IH | reflexivity].
      * destruct (listening k st); [| intros _; first [exact IH | reflexivity]].
        unfold settleBuffer. destruct (bufferPromise st); intros _; first [exact IH | reflexivity].
      * destruct (listening k st && negb (streamErrorFired st)); [| intros _; first [exact IH | reflexivity]].
        unfold settleBuffer. cbn. destruct (bufferPromise st); intros _; first [exact IH | reflexivity].
    + intros H. rewrite (readPromise_settled_step filePath st ev o Hr) in H. discriminate H.
Qed.

(** X10: when the archive closes while [read] is pending, [read] and
    [buffer] reject with the not-found error and stay so, also when an
    entry has matched and its read stream is still being opened. *)
Theorem read_close_while_pending (filePath : string) (pre post : list readEvent) :
  readPromise (readRun filePath pre readInitial) = Pending ->
  read None (pre ++ RClose :: post) filePath = Settled (Rejected (notFound filePath))
  /\ buffer None (pre ++ RClose :: post) filePath = Settled (Rejected (notFound filePath)).
Proof.
  intros Hp. pose proof (pending_not_closed filePath pre Hp) as Hc.
  unfold read, buffer. cbn [openZip ofCallback wrapExtractError].
  change (fold_left (readStep filePath) (pre ++ RClose :: post) readInitial)
    with (readRun filePath (pre ++ RClose :: post) readInitial).
  rewrite readRun_app, readRun_cons.
  set (st := readRun filePath pre readInitial) in *.
  assert (H1 : readPromise (readStep filePath st RClose) = Settled (Rejected (notFound filePath))
               /\ bufferPromise (readStep filePath st RClose)
                  = Settled (Rejected (notFound filePath))).
  { cbn [readStep]. rewrite Hc. unfold settleRead. cbn. rewrite Hp. cbn. auto. }
  destruct H1 as [Hr Hb]. split.
  - apply readPromise_settled_run. exact Hr.
  - eapply bufferPromise_settled_run; eassumption.
Qed.

(** X11: when the read stream of the matching entry cannot be opened,
    [read] and [buffer] reject with the error of [openReadStream] as it
    is: unlike [extract], they do not wrap it. *)
Theorem read_stream_open_failure (filePath : string) (pre post : list readEvent)
    (k : nat) (err : Error) :
  readPromise (readRun filePath pre readInitial) = Pending ->
  (k < opened (readRun filePath pre readInitial))%nat ->
  read None (pre ++ ROpened k (Some err) :: post) filePath = Settled (Rejected err)
  /\ buffer None (pre ++ ROpened k (Some err) :: post) filePath = Settled (Rejected err).
Proof.
  intros Hp Hk.
  unfold read, buffer. cbn [openZip ofCallback wrapExtractError].
  change (fold_left (readStep filePath) (pre ++ ROpened k (Some err) :: post) readInitial)
    with (readRun filePath (pre ++ ROpened k (Some err) :: post) readInitial).
  rewrite readRun_app, readRun_cons.
  set (st := readRun filePath pre readInitial) in *.
  assert (H1 : readPromise (readStep filePath st (ROpened k (Some err)))
                 = Settled (Rejected err)
               /\ bufferPromise (readStep filePath st (ROpened k (Some err)))
                  = Settled (Rejected err)).
  { cbn [readStep]. apply Nat.ltb_lt in Hk. rewrite Hk.
    unfold settleRead. rewrite Hp. cbn. auto. }
  destruct H1 as [Hr Hb]. split.
  - apply readPromise_settled_run. exact Hr.
  - eapply bufferPromise_settled_run; eassumption.
Qed.

Lemma explained_snoc (filePath : string) (evs : list readEvent) (ev : readEvent) (e : Error) :
  explained filePath evs e -> explained filePath (evs ++ [ev]) e.
Proof.
  intros [H | [[k H] | [k H]]].
  - left. exact H.
  - right. left. exists k. apply in_or_app. left. exact H.
  - right. right. exists k. apply in_or_app. left. exact H.
Qed.

(** The state is as before, for what the promises are concerned. *)
Ltac unchanged :=
  cbn [readPromise bufferPromise];
  repeat match goal with
         | E : readPromise ?st = Settled ?o |- _ => rewrite <- E in *; clear E
         | E : bufferPromise ?st = Settled ?o |- _ => rewrite <- E in *; clear E
         end;
  repeat split; assumption.

(** Every rejection of the two promises is explained by the events. *)
Lemma rejections_explained (filePath : string) (evs : list readEvent) :
  let st := readRun filePath evs readInitial in
  (forall e, readPromise st = Settled (Rejected e) -> explained filePath evs e)
  /\ (forall e, bufferPromise st = Settled (Rejected e) -> explained filePath evs e).
Proof.
  induction evs as [| ev evs IH] using rev_ind; cbv zeta.
  - cbn. repeat split; discriminate.
  - cbv zeta in IH. destruct IH as (IHr & IHb).
    rewrite readRun_snoc. set (st := readRun filePath evs readInitial) in *.
    assert (Hold : (forall e, readPromise st = Settled (Rejected e) ->
                      explained filePath (evs ++ [ev]) e)
                   /\ (forall e, bufferPromise st = Settled (Rejected e) ->
                      explained filePath (evs ++ [ev]) e)).
    { split; intros e H; apply explained_snoc; auto. }
    destruct Hold as [Hr Hb].
    destruct ev as [entry | | k r | k b | k | k err]; cbn [readStep].
    + destruct (String.eqb _ _); unchanged.
    + destruct (readCloseFired st); [unchanged |].
      unfold settleRead. cbn [readPromise bufferPromise].
      destruct (readPromise st) as [| o] eqn:E; cbn.
      * repeat split; try discriminate;
          intros e H; injection H as <-; left; reflexivity.
      * unchanged.
    + destruct (Nat.ltb k (opened st)); [| unchanged].
      destruct r as [err |]; unfold settleRead;
        destruct (readPromise st) as [| o] eqn:E; cbn;
        try (unchanged).
      * repeat split; try discriminate;
          intros e H; injection H as <-; right; left; exists k;
          apply in_or_app; right; left; reflexivity.
      * cbn [readPromise bufferPromise]; repeat split;
          first [assumption | discriminate | (intros e H; discriminate H)].
    + destruct (listening k st); unchanged.
    + destruct (listening k st); [| unchanged].
      unfold settleBuffer. destruct (bufferPromise st) as [| o] eqn:E; cbn.
      * cbn [readPromise bufferPromise]; repeat split;
          first [assumption | discriminate | (intros e H; discriminate H)].
      * unchanged.
    + destruct (listening k st && negb (streamErrorFired st)); [| unchanged].
      unfold settleBuffer. cbn [bufferPromise readPromise].
      destruct (bufferPromise st) as [| o] eqn:E; cbn.
      * cbn [readPromise bufferPromise]; repeat split; try discriminate; try assumption.
        intros e H. injection H as <-. right. right. exists k.
        apply in_or_app. right. left. reflexivity.
      * unchanged.
Qed.

(** X12: [buffer] rejects only with the wrapped error of a failed open of
    the archive, with the not-found error, with the error of a failed
    [openReadStream], or with an error event of a read stream. *)
Theorem buffer_rejections (r : option Error) (evs : list readEvent) (filePath : string)
    (e : Error) :
  buffer r evs filePath = Settled (Rejected e) ->
  (exists err, r = Some err /\ e = toExtractError err)
  \/ (r = None /\ explained filePath evs e).
Proof.
  destruct (rejections_explained filePath evs) as (_ & Hb).
  unfold buffer. destruct r as [err |]; cbn [openZip ofCallback wrapExtractError].
  - intros H. injection H as <-. left. exists err. auto.
  - intros H. right. split; [reflexivity |]. apply Hb. exact H.
Qed.

(** ** The extraction driver *)

Section DriverFacts.

Variable join : string -> string -> string.
Variable dirname : string -> string.
Variable targetPath : string.
Variable options : IOptions.

Local Abbreviation fstep := (step join dirname targetPath options).
Local Abbreviation frun := (run join dirname targetPath options).

Lemma run_snoc (evs : list event) (ev : event) (st : state) :
  frun (evs ++ [ev]) st = fstep (frun evs st) ev.
Proof. unfold run. rewrite fold_left_app. reflexivity. Qed.

(** X13: a promise settles once.  Whatever arrives afterwards (a second
    error, a late close, a cancellation, a completion reported twice), the
    promise of [extractZip] and the promise of every scheduled operation
    keep the outcome they have, and so does the promise returned. *)
Theorem settled_stays_settled (evs : list event) (st : state) :
  (forall o, outer st = Settled o ->
     outer (frun evs st) = Settled o /\ returned (frun evs st) = returned st)
  /\ (forall id o, promiseAt st id = Settled o -> promiseAt (frun evs st) id = Settled o).
Proof.
  pose proof (extends_run join dirname targetPath options evs st) as E. split.
  - intros o Ho. pose proof (ext_outer _ _ E _ Ho) as Ho'.
    split; [exact Ho' |]. unfold returned. rewrite Ho, Ho'. reflexivity.
  - exact (ext_settled _ _ E).
Qed.

(** What the [entry] handler does to the control state: nothing, or a new
    operation joins, the scheduled operations move, and [last] is set. *)
Lemma onEntry_shape (entry : Entry) (st : state) :
  onEntry join dirname entry targetPath options st = st
  \/ exists st1 st2,
       onEntry join dirname entry targetPath options st
         = setLast (Some (length (ops st))) st2
       /\ advances st1 st2
       /\ isCanceled st1 = isCanceled st /\ closeFired st1 = closeFired st
       /\ errorFired st1 = errorFired st /\ joined st1 = joined st
       /\ outer st1 = outer st
       /\ (forall id, (id < length (ops st))%nat -> promiseAt st1 id = promiseAt st id)
       /\ length (ops st1) = S (length (ops st)).
Proof.
  unfold onEntry. cbv zeta.
  destruct (isCanceled st) eqn:Hc; [left; reflexivity |].
  destruct (relativeFileName _ _) as [name |]; [| left; reflexivity].
  assert (Hsnoc : forall x e id, (id < length (ops st))%nat ->
            promiseAt (setOps (ops st ++ [x]) (emit e st)) id = promiseAt st id).
  { intros x e id Hid. unfold promiseAt. cbn [ops setOps emit].
    rewrite lookup_app_l by exact Hid. reflexivity. }
  destruct (RegExp.test endsWithSlash name); unfold newOp; cbn [ops emit]; right.
  - eexists _, _. split; [reflexivity |]. split; [apply advances_refl |].
    repeat split; try (cbn; assumption || reflexivity).
    + apply Hsnoc.
    + cbn. rewrite length_app. cbn. lia.
  - eexists _, _. split; [reflexivity |].
    split; [apply (advances_throttlerQueue join dirname targetPath) |].
    repeat split; try (cbn; assumption || reflexivity).
    + apply Hsnoc.
    + cbn. rewrite length_app. cbn. lia.
Qed.

Lemma promiseAt_settled_bound (st : state) (id : nat) (o : outcome unit) :
  promiseAt st id = Settled o -> (id < length (ops st))%nat.
Proof.
  unfold promiseAt. destruct (ops st !! id) eqn:E; [| discriminate].
  intros _. eapply lookup_lt_Some. exact E.
Qed.

(** Events other than [close] leave the [close] handler and its
    subscription as they are. *)
Lemma close_fields_step (ev : event) (st : state) :
  notClose ev = true ->
  closeFired (fstep st ev) = closeFired st /\ joined (fstep st ev) = joined st.
Proof.
  intros Hev. destruct (isCompletion ev) eqn:Hc.
  - pose proof (advances_completion join dirname targetPath options ev st Hc) as A.
    split; [apply (adv_close _ _ A) | apply (adv_joined _ _ A)].
  - destruct ev; try discriminate; cbn [step].
    + destruct (onEntry_shape entry st) as [-> | (st1 & st2 & -> & A & _ & Hcl & _ & Hj & _)];
        [auto |].
      cbn [closeFired joined setLast].
      rewrite (adv_close _ _ A), (adv_joined _ _ A). auto.
    + unfold onError. destruct (errorFired st); [auto |].
      unfold settleOuter. destruct (outer _); cbn; auto.
    + unfold onCancel. destruct (outer st); [| auto].
      cbn [closeFired joined setOuter emit].
      destruct (last (setCanceled true st)) as [l |]; [| auto].
      pose proof (advances_cancelOp join dirname targetPath l (setCanceled true st)) as A.
      rewrite (adv_close _ _ A), (adv_joined _ _ A). auto.
Qed.

(** Events other than [close] fulfil the promise of [extractZip] only
    through the operation it waits for. *)
Lemma fulfilled_step (ev : event) (st : state) :
  notClose ev = true ->
  outer (fstep st ev) = Settled (Fulfilled tt) ->
  outer st = Settled (Fulfilled tt)
  \/ exists l, joined st = Some l /\ promiseAt (fstep st ev) l = Settled (Fulfilled tt).
Proof.
  intros Hev.
  assert (Hadv : forall st1 st2, advances st1 st2 ->
            outer st2 = Settled (Fulfilled tt) ->
            outer st1 = Settled (Fulfilled tt)
            \/ exists l, joined st1 = Some l /\ promiseAt st2 l = Settled (Fulfilled tt)).
  { intros st1 st2 A H.
    destruct (outer st1) as [| o] eqn:Ho.
    - destruct (adv_link _ _ A Ho) as [[Hp _] | (l & o & Hj & _ & Hl & Ho2)].
      + rewrite Hp in H. discriminate H.
      + right. exists l. split; [exact Hj |]. rewrite Hl. congruence.
    - left. rewrite (adv_outer _ _ A _ Ho) in H. exact H. }
  destruct (isCompletion ev) eqn:Hc.
  - apply Hadv. apply advances_completion. exact Hc.
  - destruct ev; try discriminate; cbn [step].
    + destruct (onEntry_shape entry st)
        as [-> | (st1 & st2 & -> & A & _ & _ & _ & Hj & Ho & _)]; [auto |].
      cbn [outer setLast]. intros H.
      destruct (Hadv _ _ A H) as [H1 | (l & Hl & Hp)].
      * left. rewrite <- Ho. exact H1.
      * right. exists l. rewrite <- Hj. split; [exact Hl | exact Hp].
    + unfold onError. destruct (errorFired st); [auto |].
      unfold settleOuter. cbn [outer setErrorFired].
      destruct (outer st) eqn:Ho; cbn [outer setOuter setErrorFired].
      * discriminate.
      * rewrite Ho. intros H. left. exact H.
    + unfold onCancel. destruct (outer st) eqn:Ho.
      * cbn. discriminate.
      * rewrite Ho. intros H. left. exact H.
Qed.

Lemma beforeFirstClose_run (evs : list event) (log : list effect) :
  forallb notClose evs = true -> beforeFirstClose (frun evs (initial log)).
Proof.
  induction evs as [| ev evs IH] using rev_ind; intros Hall.
  - repeat split. discriminate.
  - rewrite forallb_app in Hall. apply andb_true_iff in Hall as [Hevs Hev].
    cbn in Hev. rewrite andb_true_r in Hev.
    destruct (IH Hevs) as (Hc & Hj & Ho). rewrite run_snoc.
    set (st := frun evs (initial log)) in *.
    destruct (close_fields_step ev st Hev) as [Hc' Hj'].
    split; [congruence |]. split; [congruence |].
    intros H. destruct (fulfilled_step ev st Hev H) as [H1 | (l & Hl & _)].
    + contradiction.
    + rewrite Hj in Hl. discriminate Hl.
Qed.

Lemma afterFirstClose_step (l0 : option nat) (ev : event) (st : state) :
  afterFirstClose l0 st -> afterFirstClose l0 (fstep st ev).
Proof.
  intros (Hc & Hj & Ho).
  destruct (notClose ev) eqn:Hev.
  - destruct (close_fields_step ev st Hev) as [Hc' Hj'].
    split; [congruence |]. split; [rewrite Hj'; exact Hj |].
    intros H. destruct (fulfilled_step ev st Hev H) as [H1 | (l & Hl & Hp)].
    + specialize (Ho H1). destruct l0 as [l |]; [| reflexivity].
      cbn [promiseOf] in *.
      apply (ext_settled _ _ (extends_step join dirname targetPath options ev st)). exact Ho.
    + rewrite (Hj _ Hl). exact Hp.
  - destruct ev; try discriminate. cbn [step]. unfold onClose. rewrite Hc.
    repeat split; assumption.
Qed.

Lemma afterFirstClose_run (l0 : option nat) (evs : list event) (st : state) :
  afterFirstClose l0 st -> afterFirstClose l0 (frun evs st).
Proof.
  revert st. induction evs as [| ev evs IH]; intros st H.
  - exact H.
  - rewrite run_cons. apply IH, afterFirstClose_step, H.
Qed.

Lemma afterFirstClose_onClose (st : state) :
  beforeFirstClose st -> afterFirstClose (last st) (onClose st).
Proof.
  intros (Hc & Hj & Ho). unfold onClose. rewrite Hc.
  change (lastPromise (setCloseFired true st)) with (promiseOf st (last st)).
  destruct (promiseOf st (last st)) as [| o] eqn:Hl.
  - split; [reflexivity |]. split.
    + cbn. intros l H. exact H.
    + cbn. intros H. contradiction.
  - unfold settleOuter. cbn [outer setCloseFired].
    destruct (outer st) as [| oo] eqn:Hout.
    + split; [reflexivity |]. split.
      * cbn. rewrite Hj. discriminate.
      * cbn [outer setOuter]. intros H. injection H as ->.
        destruct (last st); exact Hl.
    + split; [reflexivity |]. split.
      * cbn. rewrite Hj. discriminate.
      * cbn. rewrite Hout. intros H. rewrite H in Ho. contradiction.
Qed.

(** The events split at the first [close]. *)
Lemma first_close (evs : list event) :
  forallb notClose evs = true
  \/ exists pre post, evs = pre ++ ZipClose :: post /\ forallb notClose pre = true.
Proof.
  induction evs as [| ev evs IH].
  - left. reflexivity.
  - destruct (notClose ev) eqn:Hev.
    + destruct IH as [H | (pre & post & -> & Hpre)].
      * left. cbn. rewrite Hev. exact H.
      * right. exists (ev :: pre), post. split; [reflexivity |]. cbn. rewrite Hev. exact Hpre.
    + destruct ev; try discriminate. right. exists [], evs. auto.
Qed.

(** When the promise of [extractZip] is fulfilled, the archive has closed
    and the operation [last] referred to at the first [close] is
    fulfilled. *)
Lemma fulfilled_after_close (log : list effect) (evs : list event) :
  outer (frun evs (initial log)) = Settled (Fulfilled tt) ->
  exists pre post,
    evs = pre ++ ZipClose :: post
    /\ forallb notClose pre = true
    /\ promiseOf (frun evs (initial log)) (last (frun pre (initial log)))
       = Settled (Fulfilled tt).
Proof.
  intros H. destruct (first_close evs) as [Hall | (pre & post & -> & Hpre)].
  - destruct (beforeFirstClose_run evs log Hall) as (_ & _ & Hno). contradiction.
  - exists pre, post. split; [reflexivity |]. split; [exact Hpre |].
    pose proof (beforeFirstClose_run pre log Hpre) as Hb.
    pose proof (afterFirstClose_onClose _ Hb) as Ha.
    rewrite run_app, run_cons in *. cbn [step] in *.
    destruct (afterFirstClose_run _ post _ Ha) as (_ & _ & Hf).
    apply Hf. exact H.
Qed.

(** X14: [extractZip] reports success only after the archive has closed,
    and only if the operation [last] referred to at the first [close] has
    succeeded, whatever the order in which the other events arrive. *)
Theorem success_only_after_close (log : list effect) (evs : list event) :
  returned (frun evs (initial log)) = Settled (Fulfilled tt) ->
  exists pre post,
    evs = pre ++ ZipClose :: post
    /\ forallb notClose pre = true
    /\ promiseOf (frun evs (initial log)) (last (frun pre (initial log)))
       = Settled (Fulfilled tt).
Proof.
  intros H. apply fulfilled_after_close.
  unfold returned, wrapExtractError in H.
  destruct (outer (frun evs (initial log))) as [| [[] | e |]]; try discriminate H.
  reflexivity.
Qed.

(** Only a cancellation touches [isCanceled]. *)
Lemma canceled_step (ev : event) (st : state) :
  notCancel ev = true -> isCanceled (fstep st ev) = isCanceled st.
Proof.
  intros Hev. destruct (isCompletion ev) eqn:Hc.
  - apply (adv_canceled _ _ (advances_completion join dirname targetPath options ev st Hc)).
  - destruct ev; try discriminate; cbn [step].
    + destruct (onEntry_shape entry st) as [-> | (st1 & st2 & -> & A & Hcan & _)];
        [reflexivity |].
      cbn [isCanceled setLast]. rewrite (adv_canceled _ _ A). exact Hcan.
    + unfold onClose. destruct (closeFired st); [reflexivity |].
      destruct (lastPromise _); [reflexivity |].
      unfold settleOuter. destruct (outer _); reflexivity.
    + unfold onError. destruct (errorFired st); [reflexivity |].
      unfold settleOuter. destruct (outer _); reflexivity.
Qed.

(** X15: nothing but a cancellation sets [isCanceled].  As long as the
    extraction is not cancelled, every entry in scope that arrives is
    scheduled and becomes [last], also after an error of the archive or
    the failure of an operation has already rejected the extraction. *)
Theorem only_cancel_stops_scheduling (log : list effect) (evs : list event) :
  forallb notCancel evs = true ->
  let st := frun evs (initial log) in
  isCanceled st = false
  /\ forall entry name,
       relativeFileName (sourcePathRegex options) (fileName entry) = Some name ->
       length (ops (fstep st (ZipEntry entry))) = S (length (ops st))
       /\ last (fstep st (ZipEntry entry)) = Some (length (ops st)).
Proof.
  intros Hall st.
  assert (Hc : isCanceled st = false).
  { subst st. induction evs as [| ev evs IH] using rev_ind; [reflexivity |].
    rewrite forallb_app in Hall. apply andb_true_iff in Hall as [Hevs Hev].
    cbn in Hev. rewrite andb_true_r in Hev.
    rewrite run_snoc, (canceled_step ev _ Hev). apply IH. exact Hevs. }
  split; [exact Hc |].
  intros entry name Hname. cbn [step]. unfold onEntry. cbv zeta.
  rewrite Hc, Hname.
  destruct (RegExp.test endsWithSlash name); unfold newOp; cbn [ops emit].
  - cbn. rewrite length_app. cbn. split; [lia | reflexivity].
  - cbn [ops last setLast].
    rewrite (adv_length _ _ (advances_throttlerQueue join dirname targetPath _ _)).
    cbn. rewrite length_app. cbn. split; [lia | reflexivity].
Qed.

(** *** The first [close] *)

(** Progress of the scheduled operations keeps the subscription. *)
Lemma follows_advances (l0 : option nat) (st st' : state) :
  advances st st' -> follows l0 st -> follows l0 st'.
Proof.
  intros A (Hc & Hb & H).
  split; [rewrite (adv_close _ _ A); exact Hc |].
  split; [intros l Hl; rewrite (adv_length _ _ A); apply Hb; exact Hl |].
  destruct H as [(Ho & Hj & Hp) | (o & Ho & Hp)].
  - destruct l0 as [l |]; [| discriminate Hp]. cbn [promiseOf] in *.
    destruct (adv_link _ _ A Ho) as [[Ho' Hkeep] | (l' & o & Hj' & _ & Hl' & Ho')].
    + left. split; [exact Ho' |]. split; [rewrite (adv_joined _ _ A); exact Hj |].
      apply Hkeep; assumption.
    + right. rewrite Hj in Hj'. injection Hj' as <-. exists o. split; assumption.
  - right. exists o. split; [apply (adv_outer _ _ A _ Ho) |].
    destruct l0 as [l |]; [apply (adv_settled _ _ A); exact Hp | exact Hp].
Qed.

Lemma follows_step (l0 : option nat) (ev : event) (st : state) :
  undisturbed ev = true -> follows l0 st -> follows l0 (fstep st ev).
Proof.
  intros Hev F. destruct (isCompletion ev) eqn:Hc.
  - eapply follows_advances; [apply advances_completion; exact Hc | exact F].
  - destruct ev; try discriminate; cbn [step].
    + destruct (onEntry_shape entry st)
        as [-> | (st1 & st2 & -> & A & _ & Hcl & _ & Hj & Ho & Hp & Hlen)]; [exact F |].
      assert (F1 : follows l0 st1).
      { destruct F as (Hc' & Hb & H).
        split; [rewrite Hcl; exact Hc' |].
        split; [intros l Hl; rewrite Hlen; specialize (Hb l Hl); lia |].
        assert (Hsame : promiseOf st1 l0 = promiseOf st l0).
        { destruct l0 as [l |]; [| reflexivity]. cbn [promiseOf].
          apply Hp, Hb. reflexivity. }
        rewrite Ho, Hj, Hsame. exact H. }
      destruct (follows_advances l0 _ _ A F1) as (H1 & H2 & H3).
      split; [exact H1 |]. split; [exact H2 | exact H3].
    + unfold onClose. rewrite (proj1 F). exact F.
Qed.

Lemma follows_run (l0 : option nat) (evs : list event) (st : state) :
  forallb undisturbed evs = true -> follows l0 st -> follows l0 (frun evs st).
Proof.
  revert st. induction evs as [| ev evs IH]; intros st Hall F.
  - exact F.
  - cbn in Hall. apply andb_true_iff in Hall as [Hev Hevs].
    rewrite run_cons. apply IH; [exact Hevs |]. apply follows_step; assumption.
Qed.

(** The [close] handler subscribes a pending promise to [last]. *)
Lemma follows_onClose (st : state) :
  outer st = Pending -> closeFired st = false -> lastValid st ->
  follows (last st) (onClose st).
Proof.
  intros Ho Hc Hv. unfold onClose. rewrite Hc.
  change (lastPromise (setCloseFired true st)) with (promiseOf st (last st)).
  destruct (promiseOf st (last st)) as [| o] eqn:Hl.
  - split; [reflexivity |]. split; [exact Hv |].
    left. split; [exact Ho |]. split; [reflexivity |].
    destruct (last st); exact Hl.
  - unfold settleOuter. cbn [outer setCloseFired]. rewrite Ho.
    split; [reflexivity |]. split; [exact Hv |].
    right. exists o. split; [reflexivity |].
    destruct (last st); exact Hl.
Qed.

(** Events other than an error of the archive leave the [error] handler
    as it is. *)
Lemma error_field_step (ev : event) (st : state) :
  (forall err, ev <> ZipError err) -> errorFired (fstep st ev) = errorFired st.
Proof.
  intros Hev. destruct (isCompletion ev) eqn:Hc.
  - apply (adv_error _ _ (advances_completion join dirname targetPath options ev st Hc)).
  - destruct ev; try discriminate; cbn [step].
    + destruct (onEntry_shape entry st)
        as [-> | (st1 & st2 & -> & A & _ & _ & He & _)]; [reflexivity |].
      cbn [errorFired setLast]. rewrite (adv_error _ _ A). exact He.
    + unfold onClose. destruct (closeFired st); [reflexivity |].
      destruct (lastPromise _); [reflexivity |].
      unfold settleOuter. destruct (outer _); reflexivity.
    + exfalso. apply (Hev err). reflexivity.
    + unfold onCancel. destruct (outer st); [| reflexivity].
      cbn [errorFired setOuter emit].
      destruct (last (setCanceled true st)) as [l |]; [| reflexivity].
      apply (adv_error _ _ (advances_cancelOp join dirname targetPath l (setCanceled true st))).
Qed.

(** Once the [error] handler has run, the promise of [extractZip] is
    settled. *)
Lemma error_settles (evs : list event) (log : list effect) :
  errorFired (frun evs (initial log)) = true ->
  exists o, outer (frun evs (initial log)) = Settled o.
Proof.
  induction evs as [| ev evs IH] using rev_ind.
  - discriminate.
  - rewrite run_snoc. set (st := frun evs (initial log)) in *. intros H.
    assert (Hkeep : errorFired st = true -> exists o, outer (fstep st ev) = Settled o).
    { intros He. destruct (IH He) as [o Ho]. exists o.
      apply (ext_outer _ _ (extends_step join dirname targetPath options ev st)). exact Ho. }
    destruct ev; try (apply Hkeep; rewrite <- H; symmetry; apply error_field_step; discriminate).
    cbn [step] in *. unfold onError in *.
    destruct (errorFired st) eqn:He; [apply IH; reflexivity |].
    unfold settleOuter. cbn [outer setErrorFired].
    destruct (outer st) as [| o] eqn:Ho; cbn [outer setOuter setErrorFired]; eauto.
Qed.

(** C3: what the first [close] of the archive does to the promise
    [extractZip] returns.  A promise that is already settled, by an error
    of the archive or by a cancellation, keeps its outcome, whatever
    becomes of the operation [last] refers to.  A pending promise follows
    the operation [last] refers to at that moment, for as long as neither
    an error of the archive nor a cancellation arrives ([post]): it is
    pending while the operation is, fulfilled when the operation
    succeeds, and rejected with [toExtractError] of the error of the
    operation, not with that error, when it fails; and once the operation
    has settled nothing that comes later ([rest]) changes the outcome.  An
    error of the archive or a cancellation that arrives while the
    operation is pending settles the promise in its place. *)
Theorem close_settles_with_last (log : list effect) (pre post rest : list event) :
  let atClose := frun pre (initial log) in
  let final := frun (pre ++ ZipClose :: post) (initial log) in
  forallb notClose pre = true ->
  forallb undisturbed post = true ->
  (forall o, outer atClose = Settled o -> returned (frun rest final) = returned atClose)
  /\ (outer atClose = Pending ->
      returned final = wrapExtractError (promiseOf final (last atClose))
      /\ (forall o, promiseOf final (last atClose) = Settled o ->
          returned (frun rest final) = returned final)
      /\ (promiseOf final (last atClose) = Settled (Fulfilled tt) ->
          returned (frun rest final) = Settled (Fulfilled tt))
      /\ (forall err, promiseOf final (last atClose) = Settled (Rejected err) ->
          returned (frun rest final) = Settled (Rejected (toExtractError err)))
      /\ (promiseOf final (last atClose) = Pending ->
          returned final = Pending
          /\ (forall err, returned (frun (ZipError err :: rest) final)
                          = Settled (Rejected (toExtractError err)))
          /\ returned (frun (Cancel :: rest) final) = Settled Canceled)).
Proof.
  intros atClose final Hpre Hpost.
  assert (Hfinal : final = frun post (onClose atClose)).
  { subst final atClose. rewrite run_app, run_cons. reflexivity. }
  assert (Hstay : forall st o, outer st = Settled o ->
            returned (frun rest st) = wrapExtractError (Settled o)).
  { intros st o Ho. unfold returned.
    rewrite (ext_outer _ _ (extends_run join dirname targetPath options rest st) _ Ho).
    reflexivity. }
  split.
  - intros o Ho. rewrite (Hstay final o).
    + unfold returned. rewrite Ho. reflexivity.
    + rewrite Hfinal.
      apply (ext_outer _ _ (extends_run join dirname targetPath options
                              (ZipClose :: post) atClose)). exact Ho.
  - intros Ho.
    destruct (beforeFirstClose_run pre log Hpre) as (Hc & _ & _).
    fold atClose in Hc.
    assert (F : follows (last atClose) final).
    { rewrite Hfinal. apply follows_run; [exact Hpost |].
      apply follows_onClose; [exact Ho | exact Hc |].
      apply lastValid_run, lastValid_initial. }
    destruct F as (_ & _ & [(Hout & _ & Hp) | (o & Hout & Hp)]); rewrite Hp.
    + split; [unfold returned; rewrite Hout; reflexivity |].
      split; [discriminate |]. split; [discriminate |]. split; [discriminate |].
      intros _. split; [unfold returned; rewrite Hout; reflexivity |]. split.
      * intros err. rewrite run_cons. cbn [step].
        rewrite (Hstay _ (Rejected err)); [reflexivity |].
        unfold onError.
        destruct (errorFired final) eqn:He.
        -- destruct (error_settles _ log He) as [o Hset].
           fold final in Hset. rewrite Hout in Hset. discriminate Hset.
        -- unfold settleOuter. cbn [outer setErrorFired]. rewrite Hout. reflexivity.
      * rewrite run_cons. cbn [step].
        rewrite (Hstay _ Canceled); [reflexivity |].
        unfold onCancel. rewrite Hout. reflexivity.
    + split; [unfold returned; rewrite Hout; reflexivity |].
      split; [intros o' _; rewrite (Hstay final o Hout); unfold returned; rewrite Hout;
              reflexivity |].
      split; [intros E; injection E as ->; apply (Hstay final _ Hout) |].
      split; [intros err E; injection E as ->; apply (Hstay final _ Hout) |].
      discriminate.
Qed.

End DriverFacts.

(** ** Where the effects of an extraction come from *)

Section Accounting.

Variable join : string -> string -> string.
Variable dirname : string -> string.
Variable targetPath : string.
Variable options : IOptions.

Local Abbreviation re := (sourcePathRegex options).
Local Abbreviation okEffect := (accountedEffect join dirname targetPath re).
Local Abbreviation ok := (accounted join dirname targetPath re).

Lemma fromEntry_same (seen : list Entry) (t t' : fileTask) :
  taskFileName t' = taskFileName t -> taskMode t' = taskMode t ->
  fromEntry re seen t -> fromEntry re seen t'.
Proof.
  intros Hn Hm (entry & Hin & Hrel & Hdir & Hmode).
  exists entry. rewrite Hn, Hm. auto.
Qed.

Lemma ok_emit (seen : list Entry) (e : effect) (st : state) :
  okEffect seen e -> ok seen st -> ok seen (emit e st).
Proof.
  intros He [Ht Heff]. split; [exact Ht |].
  cbn [effects emit]. apply Forall_app. split; [exact Heff |].
  constructor; [exact He | constructor].
Qed.

Lemma taskAt_setTask_any (id i : nat) (t' : fileTask) (st : state) :
  taskAt (setTask id t' st) i = Some t' \/ taskAt (setTask id t' st) i = taskAt st i.
Proof.
  unfold taskAt, setTask. cbn [ops setOps]. rewrite list_lookup_insert.
  destruct (decide (id = i /\ (id < length (ops st))%nat)); [left | right]; reflexivity.
Qed.

Lemma ok_setTask (seen : list Entry) (id : nat) (t' : fileTask) (st : state) :
  fromEntry re seen t' -> ok seen st -> ok seen (setTask id t' st).
Proof.
  intros Hft [Ht Heff]. split; [| exact Heff].
  intros i t Hi. destruct (taskAt_setTask_any id i t' st) as [E | E]; rewrite E in Hi.
  - injection Hi as <-. exact Hft.
  - exact (Ht _ _ Hi).
Qed.

Lemma ok_settleOp (seen : list Entry) (id : nat) (o : outcome unit) (st : state) :
  ok seen st -> ok seen (settleOp id o st).
Proof.
  intros [Ht Heff]. destruct (settleOp_view id o st) as (Hat & _ & _ & He & _).
  split; [| rewrite He; exact Heff].
  intros i t Hi. rewrite Hat in Hi.
  destruct (decide (id = i)) as [<- | _]; [| exact (Ht _ _ Hi)].
  destruct (taskAt st id) as [t0 |] eqn:E; [| discriminate Hi].
  cbn in Hi. injection Hi as <-.
  apply (fromEntry_same seen t0); [reflexivity | reflexivity | exact (Ht _ _ E)].
Qed.

Lemma ok_control (seen : list Entry) (st st' : state) :
  ops st' = ops st -> effects st' = effects st -> ok seen st -> ok seen st'.
Proof.
  intros Hops Heff [Ht He]. split.
  - intros i t. unfold taskAt. rewrite Hops. apply Ht.
  - rewrite Heff. exact He.
Qed.

Lemma ok_extractEntry (seen : list Entry) (id : nat) (t : fileTask) (st : state) :
  fromEntry re seen t -> ok seen st ->
  ok seen (extractEntry join dirname id t targetPath st).
Proof.
  intros Hft Hok. unfold extractEntry. cbv zeta.
  apply ok_setTask.
  - apply (fromEntry_same seen t); [reflexivity | reflexivity | exact Hft].
  - apply ok_emit; [| exact Hok].
    destruct Hft as (entry & Hin & Hrel & Hdir & _).
    exists entry, (taskFileName t). rewrite Hdir. auto.
Qed.

Lemma ok_openSink (seen : list Entry) (id : nat) (t : fileTask) (st : state) :
  fromEntry re seen t -> ok seen st ->
  ok seen (openSink join id t targetPath st).
Proof.
  intros Hft Hok. unfold openSink. cbv zeta.
  apply ok_setTask.
  - apply (fromEntry_same seen t); [reflexivity | reflexivity | exact Hft].
  - apply ok_emit; [exact I |]. apply ok_emit; [| exact Hok].
    destruct Hft as (entry & Hin & Hrel & Hdir & Hmode).
    exists entry, (taskFileName t). auto.
Qed.

Lemma ok_startTask (seen : list Entry) (id : nat) (st : state) :
  ok seen st -> ok seen (fst (startTask join dirname id targetPath st)).
Proof.
  intros Hok. unfold startTask.
  destruct (ops st !! id) as [[path p | t] |] eqn:Hlook; try exact Hok.
  assert (Hft : fromEntry re seen t).
  { apply (proj1 Hok id). apply taskAt_lookup. exact Hlook. }
  destruct (taskPhase t); try exact Hok.
  assert (Hok1 : ok seen (emit (ETaskStart id) st)) by (apply ok_emit; [exact I | exact Hok]).
  destruct (taskStream t) as [| [u | e |]]; cbn [fst].
  - apply ok_setTask; [| exact Hok1].
    apply (fromEntry_same seen t); [reflexivity | reflexivity | exact Hft].
  - apply ok_extractEntry; assumption.
  - apply ok_settleOp. exact Hok1.
  - apply ok_settleOp. exact Hok1.
Qed.

Lemma ok_throttlerNext (seen : list Entry) (q : list nat) (st : state) :
  ok seen st -> ok seen (throttlerNext join dirname q targetPath st).
Proof.
  revert st. induction q as [| id q IH]; intros st Hok; cbn [throttlerNext].
  - eapply ok_control; [| | exact Hok]; reflexivity.
  - assert (H0 : ok seen (setFifo q st)).
    { eapply ok_control; [| | exact Hok]; reflexivity. }
    pose proof (ok_startTask seen id _ H0) as Hs.
    destruct (startTask join dirname id targetPath (setFifo q st)) as [st' busy].
    cbn [fst] in Hs. destruct busy; [exact Hs | apply IH; exact Hs].
Qed.

Lemma ok_throttlerQueue (seen : list Entry) (id : nat) (st : state) :
  ok seen st -> ok seen (throttlerQueue join dirname id targetPath st).
Proof.
  intros Hok. unfold throttlerQueue. destruct (running st).
  - eapply ok_control; [| | exact Hok]; reflexivity.
  - assert (H0 : ok seen (setRunning true st)).
    { eapply ok_control; [| | exact Hok]; reflexivity. }
    pose proof (ok_startTask seen id _ H0) as Hs.
    destruct (startTask join dirname id targetPath (setRunning true st)) as [st' busy].
    cbn [fst] in Hs. destruct busy; [exact Hs | apply ok_throttlerNext; exact Hs].
Qed.

Lemma ok_taskDone (seen : list Entry) (id : nat) (o : outcome unit) (st : state) :
  ok seen st -> ok seen (taskDone join dirname id o targetPath st).
Proof.
  intros Hok. unfold taskDone. apply ok_throttlerNext, ok_settleOp, Hok.
Qed.

Lemma ok_cancelOp (seen : list Entry) (id : nat) (st : state) :
  ok seen st -> ok seen (cancelOp join dirname id targetPath st).
Proof.
  intros Hok. unfold cancelOp.
  destruct (ops st !! id) as [[path p | t] |]; try exact Hok.
  - destruct p; [apply ok_settleOp |]; exact Hok.
  - destruct (taskPhase t); try exact Hok.
    + apply ok_settleOp. eapply ok_control; [| | exact Hok]; reflexivity.
    + apply ok_taskDone. exact Hok.
    + apply ok_taskDone. exact Hok.
    + apply ok_taskDone. apply ok_emit; [exact I | exact Hok].
Qed.

Lemma ok_more (seen : list Entry) (entry : Entry) (st : state) :
  ok seen st -> ok (seen ++ [entry]) st.
Proof.
  intros [Ht Heff]. split.
  - intros i t Hi. destruct (Ht _ _ Hi) as (e0 & Hin & H).
    exists e0. split; [apply in_or_app; left; exact Hin | exact H].
  - eapply Forall_impl; [exact Heff |].
    intros e He. destruct e; cbn in *; try exact I.
    + destruct He as (e0 & name & Hin & H). exists e0, name.
      split; [apply in_or_app; left; exact Hin | exact H].
    + destruct He as (e0 & name & Hin & H). exists e0, name.
      split; [apply in_or_app; left; exact Hin | exact H].
    + destruct He as (e0 & name & Hin & H). exists e0, name.
      split; [apply in_or_app; left; exact Hin | exact H].
Qed.

Lemma ok_newOp (seen : list Entry) (x : op) (st : state) :
  (forall t, x = FileOp t -> fromEntry re seen t) ->
  ok seen st -> ok seen (setOps (ops st ++ [x]) st).
Proof.
  intros Hx [Ht Heff]. split; [| exact Heff].
  intros i t Hi. rewrite taskAt_snoc in Hi.
  destruct (decide (i = length (ops st))) as [-> | _]; [| exact (Ht _ _ Hi)].
  destruct x as [path p | t0]; [discriminate Hi |].
  injection Hi as <-. apply Hx. reflexivity.
Qed.

Lemma ok_onEntry (seen : list Entry) (entry : Entry) (st : state) :
  ok seen st ->
  ok (seen ++ [entry]) (onEntry join dirname entry targetPath options st).
Proof.
  intros Hok0. pose proof (ok_more seen entry st Hok0) as Hok.
  assert (Hin : In entry (seen ++ [entry])) by (apply in_or_app; right; left; reflexivity).
  unfold onEntry. cbv zeta.
  destruct (isCanceled st); [exact Hok |].
  destruct (relativeFileName _ _) as [name |] eqn:Hrel; [| exact Hok].
  destruct (RegExp.test endsWithSlash name) eqn:Hdir; unfold newOp; cbn [ops emit].
  - eapply ok_control; [reflexivity | reflexivity |].
    apply (ok_newOp _ _ (emit _ st)); [intros t E; discriminate E |].
    apply ok_emit; [| exact Hok].
    exists entry, name. rewrite Hdir. auto.
  - eapply ok_control; [reflexivity | reflexivity |].
    apply ok_throttlerQueue.
    apply (ok_newOp _ _ (emit _ st)).
    + intros t E. injection E as <-. exists entry. cbn. auto.
    + apply ok_emit; [| exact Hok]. exists entry, name. auto.
Qed.

Lemma ok_step (seen : list Entry) (ev : event) (st : state) :
  ok seen st ->
  ok (seen ++ entriesOf [ev]) (step join dirname targetPath options st ev).
Proof.
  intros Hok.
  assert (Hft : forall id t, ops st !! id = Some (FileOp t) -> fromEntry re seen t).
  { intros id t H. apply (proj1 Hok id). apply taskAt_lookup. exact H. }
  destruct ev; cbn [step entriesOf flat_map app]; rewrite ?app_nil_r.
  - apply ok_onEntry. exact Hok.
  - unfold onClose. destruct (closeFired st); [exact Hok |].
    destruct (lastPromise _).
    + eapply ok_control; [| | exact Hok]; reflexivity.
    + unfold settleOuter. destruct (outer _);
        (eapply ok_control; [| | exact Hok]; reflexivity).
  - unfold onError. destruct (errorFired st); [exact Hok |].
    unfold settleOuter. destruct (outer _);
      (eapply ok_control; [| | exact Hok]; reflexivity).
  - unfold onStreamOpened.
    destruct (ops st !! id) as [[path p | t] |] eqn:Hlook; try exact Hok.
    specialize (Hft _ _ Hlook).
    destruct (taskStream t); [| exact Hok].
    assert (Hft' : forall s, fromEntry re seen (withStream s t)).
    { intros s. apply (fromEntry_same seen t); [reflexivity | reflexivity | exact Hft]. }
    cbn [taskPhase withStream].
    destruct (taskPhase t); try (apply ok_setTask; [apply Hft' | exact Hok]).
    destruct r as [e |].
    + apply ok_taskDone. apply ok_setTask; [apply Hft' | exact Hok].
    + apply ok_extractEntry; [apply Hft' | exact Hok].
  - unfold onMkdirpDone.
    destruct (ops st !! id) as [[path p | t] |] eqn:Hlook; try exact Hok.
    + destruct p; [apply ok_settleOp |]; exact Hok.
    + specialize (Hft _ _ Hlook). destruct (taskPhase t); try exact Hok.
      destruct r as [e |]; [apply ok_taskDone | apply ok_openSink]; assumption.
  - unfold onSinkClose.
    destruct (ops st !! id) as [[path p | t] |]; try exact Hok.
    destruct (taskPhase t); try exact Hok. apply ok_taskDone. exact Hok.
  - unfold onPipeError.
    destruct (ops st !! id) as [[path p | t] |]; try exact Hok.
    destruct (taskPhase t); try exact Hok. apply ok_taskDone. exact Hok.
  - unfold onPipeError.
    destruct (ops st !! id) as [[path p | t] |]; try exact Hok.
    destruct (taskPhase t); try exact Hok. apply ok_taskDone. exact Hok.
  - unfold onCancel. destruct (outer st); [| exact Hok].
    eapply ok_control; [reflexivity | reflexivity |].
    apply ok_emit; [exact I |].
    assert (H1 : ok seen (setCanceled true st)).
    { eapply ok_control; [| | exact Hok]; reflexivity. }
    destruct (last (setCanceled true st)); [apply ok_cancelOp |]; exact H1.
Qed.

Lemma ok_run (evs : list event) (log : list effect) :
  Forall (okEffect []) log ->
  ok (entriesOf evs) (run join dirname targetPath options evs (initial log)).
Proof.
  intros Hlog. induction evs as [| ev evs IH] using rev_ind.
  - split; [| exact Hlog]. intros id t H. unfold taskAt in H. cbn in H. discriminate H.
  - unfold run. rewrite fold_left_app. cbn [fold_left].
    unfold entriesOf. rewrite flat_map_app. apply ok_step. exact IH.
Qed.

End Accounting.

(** ** Where the errors of an extraction come from *)

Lemma known_control (known : list Error) (st st' : state) :
  ops st' = ops st -> outer st' = outer st ->
  knownErrors known st -> knownErrors known st'.
Proof.
  intros Hops Hout (Ho & Hp & Hs). unfold knownErrors, promiseAt, taskAt.
  rewrite Hops, Hout. auto.
Qed.

Lemma known_settleOuter (known : list Error) (o : outcome unit) (st : state) :
  (forall e, o = Rejected e -> In e known) ->
  knownErrors known st -> knownErrors known (settleOuter o st).
Proof.
  intros Hin (Ho & Hp & Hs). unfold settleOuter.
  destruct (outer st) eqn:E; [| split; [rewrite E; exact Ho | auto]].
  split; [| split; [exact Hp | exact Hs]].
  cbn. intros e H. injection H as ->. apply Hin. reflexivity.
Qed.

Lemma known_settleOp (known : list Error) (id : nat) (o : outcome unit) (st : state) :
  (forall e, o = Rejected e -> In e known) ->
  knownErrors known st -> knownErrors known (settleOp id o st).
Proof.
  intros Hin K. destruct (settleOp_view id o st) as (Hat & _).
  unfold settleOp in *. destruct (ops st !! id) as [x |] eqn:Hlook; [| exact K].
  assert (Hlt : (id < length (ops st))%nat) by (eapply lookup_lt_Some; exact Hlook).
  set (st1 := setOps (<[id := withOutcome o x]> (ops st)) st) in *.
  assert (K1 : knownErrors known st1).
  { destruct K as (Ho & Hp & Hs). split; [exact Ho |]. split.
    - intros i e. subst st1. rewrite promiseAt_insert by exact Hlt.
      destruct (decide (id = i)); [| apply Hp].
      replace (opPromise (withOutcome o x)) with (Settled o) by (destruct x; reflexivity).
      intros H. injection H as ->. apply Hin. reflexivity.
    - intros i t e Hi. subst st1. rewrite taskAt_insert in Hi by exact Hlt.
      destruct (decide (id = i)) as [<- | _]; [| apply (Hs _ _ _ Hi)].
      destruct x as [path p | t0]; [discriminate Hi |].
      cbn in Hi. injection Hi as <-. cbn.
      apply (Hs id t0). unfold taskAt. rewrite Hlook. reflexivity. }
  destruct (decide (joined st1 = Some id)); [| exact K1].
  apply known_settleOuter; assumption.
Qed.

Lemma known_setTask (known : list Error) (id : nat) (t' : fileTask) (st : state) :
  (forall e, opPromise (FileOp t') = Settled (Rejected e) -> In e known) ->
  (forall e, taskStream t' = Settled (Rejected e) -> In e known) ->
  knownErrors known st -> knownErrors known (setTask id t' st).
Proof.
  intros Hp' Hs' (Ho & Hp & Hs). split; [exact Ho |]. split.
  - intros i e. unfold promiseAt, setTask. cbn [ops setOps]. rewrite list_lookup_insert.
    destruct (decide (id = i /\ (id < length (ops st))%nat)); [apply Hp' | apply Hp].
  - intros i t e Hi. destruct (taskAt_setTask_any id i t' st) as [E | E]; rewrite E in Hi.
    + injection Hi as <-. apply Hs'.
    + apply (Hs _ _ _ Hi).
Qed.

Lemma known_more (known more : list Error) (st : state) :
  knownErrors known st -> knownErrors (known ++ more) st.
Proof.
  intros (Ho & Hp & Hs). split; [| split].
  - intros e H. apply in_or_app. left. auto.
  - intros id e H. apply in_or_app. left. eauto.
  - intros id t e Hi H. apply in_or_app. left. eauto.
Qed.

Section ErrorSources.

Variable join : string -> string -> string.
Variable dirname : string -> string.
Variable targetPath : string.
Variable options : IOptions.

(** A task that has not ended is moved to a phase that is not the end. *)
Lemma known_phase (known : list Error) (id : nat) (t : fileTask) (ph : phase) (st : state) :
  (forall o, ph <> Done o) ->
  (forall e, taskStream t = Settled (Rejected e) -> In e known) ->
  knownErrors known st -> knownErrors known (setTask id (withPhase ph t) st).
Proof.
  intros Hph Hs. apply known_setTask; [| exact Hs].
  intros e H. cbn in H. destruct ph; try discriminate H. exfalso. eapply Hph. reflexivity.
Qed.

Lemma known_extractEntry (known : list Error) (id : nat) (t : fileTask) (st : state) :
  (forall e, taskStream t = Settled (Rejected e) -> In e known) ->
  knownErrors known st ->
  knownErrors known (extractEntry join dirname id t targetPath st).
Proof.
  intros Hs K. unfold extractEntry. cbv zeta.
  apply known_phase; [discriminate | exact Hs |].
  eapply known_control; [| | exact K]; reflexivity.
Qed.

Lemma known_openSink (known : list Error) (id : nat) (t : fileTask) (st : state) :
  (forall e, taskStream t = Settled (Rejected e) -> In e known) ->
  knownErrors known st ->
  knownErrors known (openSink join id t targetPath st).
Proof.
  intros Hs K. unfold openSink. cbv zeta.
  apply known_phase; [discriminate | exact Hs |].
  eapply known_control; [| | exact K]; reflexivity.
Qed.

Lemma known_startTask (known : list Error) (id : nat) (st : state) :
  knownErrors known st ->
  knownErrors known (fst (startTask join dirname id targetPath st)).
Proof.
  intros K. unfold startTask.
  destruct (ops st !! id) as [[path p | t] |] eqn:Hlook; try exact K.
  assert (Hs : forall e, taskStream t = Settled (Rejected e) -> In e known).
  { intros e. apply (proj2 (proj2 K) id). apply taskAt_lookup. exact Hlook. }
  destruct (taskPhase t); try exact K.
  assert (K1 : knownErrors known (emit (ETaskStart id) st)).
  { eapply known_control; [| | exact K]; reflexivity. }
  destruct (taskStream t) as [| [u | e |]] eqn:Hst; cbn [fst].
  - apply known_phase; [discriminate | | exact K1]. rewrite Hst. discriminate.
  - apply known_extractEntry; [| exact K1]. rewrite Hst. discriminate.
  - apply known_settleOp; [| exact K1]. intros e' H. injection H as <-.
    apply Hs. reflexivity.
  - apply known_settleOp; [discriminate | exact K1].
Qed.

Lemma known_throttlerNext (known : list Error) (q : list nat) (st : state) :
  knownErrors known st ->
  knownErrors known (throttlerNext join dirname q targetPath st).
Proof.
  revert st. induction q as [| id q IH]; intros st K; cbn [throttlerNext].
  - eapply known_control; [| | exact K]; reflexivity.
  - assert (K0 : knownErrors known (setFifo q st)).
    { eapply known_control; [| | exact K]; reflexivity. }
    pose proof (known_startTask known id _ K0) as Hs.
    destruct (startTask join dirname id targetPath (setFifo q st)) as [st' busy].
    cbn [fst] in Hs. destruct busy; [exact Hs | apply IH; exact Hs].
Qed.

Lemma known_throttlerQueue (known : list Error) (id : nat) (st : state) :
  knownErrors known st ->
  knownErrors known (throttlerQueue join dirname id targetPath st).
Proof.
  intros K. unfold throttlerQueue. destruct (running st).
  - eapply known_control; [| | exact K]; reflexivity.
  - assert (K0 : knownErrors known (setRunning true st)).
    { eapply known_control; [| | exact K]; reflexivity. }
    pose proof (known_startTask known id _ K0) as Hs.
    destruct (startTask join dirname id targetPath (setRunning true st)) as [st' busy].
    cbn [fst] in Hs. destruct busy; [exact Hs | apply known_throttlerNext; exact Hs].
Qed.

Lemma known_taskDone (known : list Error) (id : nat) (o : outcome unit) (st : state) :
  (forall e, o = Rejected e -> In e known) ->
  knownErrors known st ->
  knownErrors known (taskDone join dirname id o targetPath st).
Proof.
  intros Hin K. unfold taskDone. apply known_throttlerNext, known_settleOp; assumption.
Qed.

Lemma known_cancelOp (known : list Error) (id : nat) (st : state) :
  knownErrors known st ->
  knownErrors known (cancelOp join dirname id targetPath st).
Proof.
  intros K. unfold cancelOp.
  destruct (ops st !! id) as [[path p | t] |]; try exact K.
  - destruct p; [apply known_settleOp; [discriminate |] |]; exact K.
  - destruct (taskPhase t); try exact K.
    + apply known_settleOp; [discriminate |].
      eapply known_control; [| | exact K]; reflexivity.
    + apply known_taskDone; [discriminate | exact K].
    + apply known_taskDone; [discriminate | exact K].
    + apply known_taskDone; [discriminate |].
      eapply known_control; [| | exact K]; reflexivity.
Qed.

Lemma known_newOp (known : list Error) (x : op) (st : state) :
  opPromise x = Pending ->
  (forall t, x = FileOp t -> taskStream t = Pending) ->
  knownErrors known st -> knownErrors known (setOps (ops st ++ [x]) st).
Proof.
  intros Hx Hxs (Ho & Hp & Hs). split; [exact Ho |]. split.
  - intros i e. unfold promiseAt. cbn [ops setOps].
    destruct (Nat.lt_ge_cases i (length (ops st))) as [Hlt | Hge].
    + rewrite lookup_app_l by exact Hlt. apply Hp.
    + destruct ((ops st ++ [x]) !! i) as [y |] eqn:E; [| discriminate].
      apply lookup_snoc_Some in E as [[Hlt _] | [_ <-]]; [lia |].
      rewrite Hx. discriminate.
  - intros i t e Hi. rewrite taskAt_snoc in Hi.
    destruct (decide (i = length (ops st))) as [-> | _]; [| apply (Hs _ _ _ Hi)].
    destruct x as [path p | t0]; [discriminate Hi |].
    injection Hi as <-. rewrite (Hxs t0 eq_refl). discriminate.
Qed.

Lemma known_onEntry (known : list Error) (entry : Entry) (st : state) :
  knownErrors known st ->
  knownErrors known (onEntry join dirname entry targetPath options st).
Proof.
  intros K. unfold onEntry. cbv zeta.
  destruct (isCanceled st); [exact K |].
  destruct (relativeFileName _ _) as [name |]; [| exact K].
  assert (K0 : forall e, knownErrors known (emit e st)).
  { intros e. eapply known_control; [| | exact K]; reflexivity. }
  destruct (RegExp.test endsWithSlash name); unfold newOp; cbn [ops emit].
  - eapply known_control; [reflexivity | reflexivity |].
    apply (known_newOp _ _ (emit _ st)); [reflexivity | intros t E; discriminate E | apply K0].
  - eapply known_control; [reflexivity | reflexivity |].
    apply known_throttlerQueue.
    apply (known_newOp _ _ (emit _ st)); [reflexivity | | apply K0].
    intros t E. injection E as <-. reflexivity.
Qed.

Lemma known_step (known : list Error) (ev : event) (st : state) :
  knownErrors known st ->
  knownErrors (known ++ deliveredErrors [ev]) (step join dirname targetPath options st ev).
Proof.
  intros K0.
  pose proof (known_more known (deliveredErrors [ev]) st K0) as K.
  assert (Hlast : forall e, deliveredErrors [ev] = [e] ->
            forall e', @Rejected unit e = Rejected e' -> In e' (known ++ deliveredErrors [ev])).
  { intros e E e' H. injection H as <-. rewrite E. apply in_or_app. right. left. reflexivity. }
  assert (Hs : forall id t, ops st !! id = Some (FileOp t) ->
            forall e, taskStream t = Settled (Rejected e) ->
            In e (known ++ deliveredErrors [ev])).
  { intros id t H e. apply (proj2 (proj2 K) id). apply taskAt_lookup. exact H. }
  destruct ev; cbn [step].
  - apply known_onEntry. exact K.
  - unfold onClose. destruct (closeFired st); [exact K |].
    change (lastPromise (setCloseFired true st)) with (promiseOf st (last st)).
    destruct (promiseOf st (last st)) as [| o] eqn:Hl.
    + eapply known_control; [| | exact K]; reflexivity.
    + apply known_settleOuter.
      * intros e ->. destruct (last st) as [l |]; [| discriminate Hl].
        apply (proj1 (proj2 K) l). exact Hl.
      * eapply known_control; [| | exact K]; reflexivity.
  - unfold onError. destruct (errorFired st); [exact K |].
    apply known_settleOuter; [apply (Hlast err); reflexivity |].
    eapply known_control; [| | exact K]; reflexivity.
  - unfold onStreamOpened.
    destruct (ops st !! id) as [[path p | t] |] eqn:Hlook; try exact K.
    destruct (taskStream t) eqn:Hst; [| exact K].
    assert (Hnew : forall e, taskStream (withStream (Settled (ofCallback r)) t)
                             = Settled (Rejected e) ->
                   In e (known ++ deliveredErrors [StreamOpened id r])).
    { intros e H. cbn in H. destruct r as [err |]; [| discriminate H].
      apply (Hlast err); [reflexivity |]. cbn in H. congruence. }
    assert (Hsame : forall e, opPromise (FileOp (withStream (Settled (ofCallback r)) t))
                              = Settled (Rejected e) ->
                    In e (known ++ deliveredErrors [StreamOpened id r])).
    { intros e H. apply (proj1 (proj2 K) id). unfold promiseAt. rewrite Hlook. exact H. }
    cbn [taskPhase withStream].
    destruct (taskPhase t) eqn:Hph;
      try (apply known_setTask; [exact Hsame | exact Hnew | exact K]).
    destruct r as [err |].
    + apply known_taskDone; [apply (Hlast err); reflexivity |].
      apply known_setTask; [exact Hsame | exact Hnew | exact K].
    + apply known_extractEntry; [exact Hnew | exact K].
  - unfold onMkdirpDone.
    destruct (ops st !! id) as [[path p | t] |] eqn:Hlook; try exact K.
    + destruct p; [| exact K]. apply known_settleOp; [| exact K].
      intros e H. destruct r as [err |]; [| discriminate H].
      apply (Hlast err); [reflexivity | exact H].
    + destruct (taskPhase t); try exact K.
      destruct r as [err |].
      * apply known_taskDone; [apply (Hlast err); reflexivity | exact K].
      * apply known_openSink; [apply (Hs _ _ Hlook) | exact K].
  - unfold onSinkClose.
    destruct (ops st !! id) as [[path p | t] |]; try exact K.
    destruct (taskPhase t); try exact K.
    apply known_taskDone; [discriminate | exact K].
  - unfold onPipeError.
    destruct (ops st !! id) as [[path p | t] |]; try exact K.
    destruct (taskPhase t); try exact K.
    apply known_taskDone; [apply (Hlast err); reflexivity | exact K].
  - unfold onPipeError.
    destruct (ops st !! id) as [[path p | t] |]; try exact K.
    destruct (taskPhase t); try exact K.
    apply known_taskDone; [apply (Hlast err); reflexivity | exact K].
  - unfold onCancel. destruct (outer st) eqn:Ho; [| exact K].
    assert (K1 : knownErrors (known ++ deliveredErrors [Cancel]) (setCanceled true st)).
    { eapply known_control; [| | exact K]; reflexivity. }
    assert (K2 : knownErrors (known ++ deliveredErrors [Cancel])
                   match last (setCanceled true st) with
                   | Some l => cancelOp join dirname l targetPath (setCanceled true st)
                   | None => setCanceled true st
                   end).
    { destruct (last (setCanceled true st)); [apply known_cancelOp |]; exact K1. }
    destruct K2 as (_ & Hp2 & Hs2). split; [| split].
    + cbn. discriminate.
    + exact Hp2.
    + exact Hs2.
Qed.

Lemma known_run (evs : list event) (log : list effect) :
  knownErrors (deliveredErrors evs) (run join dirname targetPath options evs (initial log)).
Proof.
  induction evs as [| ev evs IH] using rev_ind.
  - split; [| split]; cbn.
    + discriminate.
    + intros id e H. unfold promiseAt in H. cbn in H. discriminate H.
    + intros id t e H. unfold taskAt in H. cbn in H. discriminate H.
  - unfold run. rewrite fold_left_app. cbn [fold_left].
    unfold deliveredErrors. rewrite flat_map_app. apply known_step. exact IH.
Qed.

End ErrorSources.

(** ** [extract] as a whole *)

(** X16: [extract] reports success only if the archive was opened, the
    deletion asked for with [overwrite] succeeded, and the archive has
    closed. *)
Theorem extract_success_means_closed (join : string -> string -> string)
    (dirname : string -> string) (env : environment) (zipPath targetPath : string)
    (options : IExtractOptions) (log : list effect) :
  extract join dirname env zipPath targetPath options = Some (Settled (Fulfilled tt), log) ->
  openResult env = None
  /\ (JS.truthy_bool (overwrite options) = true -> rimrafResult env = None)
  /\ In ZipClose (events env).
Proof.
  unfold extract. destruct (newSourcePathRegex options) as [re |]; [| discriminate].
  intros H. injection H as H.
  assert (Hrun : forall l0,
            extractZip join dirname (events env) l0 targetPath (mkIOptions re)
              = (Settled (Fulfilled tt), log) ->
            In ZipClose (events env)).
  { intros l0 E. unfold extractZip in E. injection E as E _.
    assert (Ho : outer (run join dirname targetPath (mkIOptions re) (events env) (initial l0))
                 = Settled (Fulfilled tt)).
    { unfold returned, wrapExtractError in E.
      destruct (outer _) as [| [[] | e |]]; try discriminate E. reflexivity. }
    destruct (fulfilled_after_close join dirname targetPath (mkIOptions re) l0 _ Ho)
      as (pre & post & -> & _).
    apply in_or_app. right. left. reflexivity. }
  destruct (openResult env) as [err |]; [discriminate H |].
  cbn [openZip ofCallback wrapExtractError] in H.
  split; [reflexivity |].
  destruct (JS.truthy_bool (overwrite options)).
  - destruct (rimrafResult env) as [err |]; cbn [ofCallback] in H; [discriminate H |].
    split; [reflexivity |]. eapply Hrun. exact H.
  - split; [discriminate |]. eapply Hrun. exact H.
Qed.

(** X17: whatever [extract] does to the file system is accounted for by an
    entry of the archive that is in scope: directories are made only at the
    place of a directory entry or at the parent of a file entry, read
    streams are opened only for file entries, and a sink is created only
    at the place of a file entry, with the mode [modeFromEntry] gives for
    that entry.  An entry out of scope leaves no trace. *)
Theorem extract_touches_only_entries_in_scope (join : string -> string -> string)
    (dirname : string -> string) (env : environment) (zipPath targetPath : string)
    (options : IExtractOptions) (re : RegExp.t) (p : promise unit) (log : list effect) :
  newSourcePathRegex options = Some re ->
  extract join dirname env zipPath targetPath options = Some (p, log) ->
  forall e, In e log ->
    accountedEffect join dirname targetPath re (entriesOf (events env)) e.
Proof.
  intros Hre. unfold extract. rewrite Hre. intros H. injection H as H.
  assert (Hrun : forall l0,
            Forall (accountedEffect join dirname targetPath re []) l0 ->
            extractZip join dirname (events env) l0 targetPath (mkIOptions re) = (p, log) ->
            forall e, In e log ->
              accountedEffect join dirname targetPath re (entriesOf (events env)) e).
  { intros l0 Hl0 E. unfold extractZip in E. injection E as _ <-.
    destruct (ok_run join dirname targetPath (mkIOptions re) (events env) l0 Hl0)
      as [_ Heff].
    intros e Hin. rewrite Forall_forall in Heff. apply Heff.
    apply list_elem_of_In. exact Hin. }
  destruct (openZip (openResult env)) as [| [[] | err |]].
  - injection H as _ <-. intros e [<- | []]. exact I.
  - destruct (JS.truthy_bool (overwrite options)).
    + destruct (ofCallback (rimrafResult env)) as [[] | err |].
      * eapply Hrun; [| exact H]; repeat constructor.
      * injection H as _ <-. intros e [<- | [<- | []]]; exact I.
      * injection H as _ <-. intros e [<- | [<- | []]]; exact I.
    + eapply Hrun; [| exact H]; repeat constructor.
  - injection H as _ <-. intros e [<- | []]. exact I.
  - injection H as _ <-. intros e [<- | []]. exact I.
Qed.

(** X18: [extract] rejects only with errors it was given.  The error is
    either the error of the deletion asked for with [overwrite], as it
    is, or [toExtractError] of an error of the outside world: the failure
    to open the archive, or an error delivered to [extractZip] by the
    archive handle or by the file system. *)
Theorem extract_rejections (join : string -> string -> string)
    (dirname : string -> string) (env : environment) (zipPath targetPath : string)
    (options : IExtractOptions) (e : Error) (log : list effect) :
  extract join dirname env zipPath targetPath options = Some (Settled (Rejected e), log) ->
  (openResult env = None /\ JS.truthy_bool (overwrite options) = true
   /\ rimrafResult env = Some e)
  \/ (exists cause,
        e = toExtractError cause
        /\ (openResult env = Some cause
            \/ (openResult env = None /\ In cause (deliveredErrors (events env))))).
Proof.
  unfold extract. destruct (newSourcePathRegex options) as [re |]; [| discriminate].
  intros H. injection H as H.
  assert (Hrun : forall l0,
            extractZip join dirname (events env) l0 targetPath (mkIOptions re)
              = (Settled (Rejected e), log) ->
            exists cause, e = toExtractError cause /\ In cause (deliveredErrors (events env))).
  { intros l0 E. unfold extractZip in E. injection E as E _.
    destruct (known_run join dirname targetPath (mkIOptions re) (events env) l0)
      as (Ho & _).
    unfold returned, wrapExtractError in E.
    destruct (outer _) as [| [[] | cause |]]; try discriminate E.
    injection E as <-. exists cause. split; [reflexivity |]. apply Ho. reflexivity. }
  destruct (openResult env) as [err |].
  - cbn in H. injection H as <- _. right. exists err. auto.
  - cbn [openZip ofCallback wrapExtractError] in H.
    destruct (JS.truthy_bool (overwrite options)).
    + destruct (rimrafResult env) as [err |]; cbn [ofCallback] in H.
      * injection H as <- _. left. auto.
      * right. destruct (Hrun _ H) as (cause & -> & Hin). exists cause. auto.
    + right. destruct (Hrun _ H) as (cause & -> & Hin). exists cause. auto.
Qed.

(** * Concrete runs *)

(** The attribute word of a file of mode 100755 written on Unix: its top
    bit is set, so [>> 16] yields a negative number. *)
Lemma modeFromEntry_masks_witness :
  0 <= 2179792896 < 2 ^ 32
  /\ (let h := if Z.shiftr 2179792896 16 =? 0 then 33188 else Z.shiftr 2179792896 16 in
      modeFromEntry (mkEntry "bin/run" 2179792896)
        = Z.land h 61440 + Z.land h 448 + Z.land h 56 + Z.land h 7
      /\ modeFromEntry (mkEntry "bin/run" 2179792896) = Z.land h (61440 + 448 + 56 + 7)).
Proof.
  split; [lia |]. apply (modeFromEntry_masks "bin/run" 2179792896). lia.
Defined.

(** An error whose message matches the pattern of the classifier. *)
Lemma toExtractError_corrupt_witness :
  RegExp.test endOfCentralDirectoryRegex
    (message (mkError "end of central directory record signature not found")) = true
  /\ errorType (toExtractError
       (mkError "end of central directory record signature not found")) = Some CorruptZip
  /\ message (toExtractError
       (mkError "end of central directory record signature not found"))
     = "Corrupt ZIP: end of central directory record signature not found"
  /\ errorCause (toExtractError
       (mkError "end of central directory record signature not found"))
     = Some (mkError "end of central directory record signature not found").
Proof.
  split; [reflexivity |].
  apply (toExtractError_corrupt
           (mkError "end of central directory record signature not found") true).
  reflexivity.
Defined.

(** An archive with [a.txt] only, read for [missing.txt]. *)
Lemma read_not_found_witness :
  forallb (noMatch "missing.txt") [REntry (mkEntry "a.txt" 0)] = true
  /\ read None ([REntry (mkEntry "a.txt" 0)] ++ [RClose]) "missing.txt"
     = Settled (Rejected (notFound "missing.txt"))
  /\ buffer None ([REntry (mkEntry "a.txt" 0)] ++ [RClose]) "missing.txt"
     = Settled (Rejected (notFound "missing.txt"))
  /\ message (notFound "missing.txt") = "missing.txt" +:+ " not found inside zip.".
Proof.
  split; [reflexivity |].
  apply (read_not_found "missing.txt" [REntry (mkEntry "a.txt" 0)]). reflexivity.
Defined.

Lemma buffer_collects_witness :
  readPromise (readRun "a.txt" [REntry (mkEntry "a.txt" 0)] readInitial) = Pending
  /\ (0 < opened (readRun "a.txt" [REntry (mkEntry "a.txt" 0)] readInitial))%nat
  /\ streamTrace 0 twoChunks
     = map (RData 0) [[Byte.x61; Byte.x62]; [Byte.x63]] ++ [REnd 0]
  /\ buffer None ([REntry (mkEntry "a.txt" 0)] ++ ROpened 0 None :: twoChunks) "a.txt"
     = Settled (Fulfilled (concat [[Byte.x61; Byte.x62]; [Byte.x63]])).
Proof.
  split; [reflexivity |]. split; [cbn; lia |]. split; [reflexivity |].
  apply (buffer_collects "a.txt" [REntry (mkEntry "a.txt" 0)] twoChunks 0
           [[Byte.x61; Byte.x62]; [Byte.x63]]).
  - reflexivity.
  - cbn. lia.
  - reflexivity.
Defined.

(** The write of [d/a.txt], the operation [last] refers to at [close],
    fails after the archive has closed; an error of the archive, a second
    [close] and a cancellation follow. *)
Lemma close_settles_with_last_witness :
  forallb notClose beforeClose = true
  /\ forallb undisturbed afterClose = true
  /\ outer (run sampleJoin sampleDirname "out" everyEntry beforeClose (initial [])) = Pending
  /\ promiseOf (run sampleJoin sampleDirname "out" everyEntry (beforeClose ++ ZipClose :: afterClose) (initial []))
       (last (run sampleJoin sampleDirname "out" everyEntry beforeClose (initial [])))
     = Settled (Rejected (mkError "ENOSPC"))
  /\ returned (run sampleJoin sampleDirname "out" everyEntry lateEvents
                (run sampleJoin sampleDirname "out" everyEntry (beforeClose ++ ZipClose :: afterClose) (initial [])))
     = Settled (Rejected (toExtractError (mkError "ENOSPC"))).
Proof.
  split; [reflexivity |]. split; [reflexivity |]. split; [reflexivity |].
  split; [reflexivity |].
  destruct (close_settles_with_last sampleJoin sampleDirname "out" everyEntry []
              beforeClose afterClose lateEvents eq_refl eq_refl) as [_ Hpending].
  destruct (Hpending eq_refl) as (_ & _ & _ & Hrejected & _).
  apply Hrejected. reflexivity.
Defined.

(** C3, as stated, fails in two ways.  When the operation [last] refers to
    at [close] fails, the promise [extractZip] returns is rejected with an
    [ExtractError] that has the error of the operation as its cause, not
    with that error.  And when an error of the archive comes before
    [close], the promise is rejected although the operation [last] refers
    to at [close] has succeeded. *)
Lemma close_outcome_not_that_of_last :
  (promiseOf (run sampleJoin sampleDirname "out" everyEntry (beforeClose ++ ZipClose :: afterClose) (initial []))
     (last (run sampleJoin sampleDirname "out" everyEntry beforeClose (initial [])))
   = Settled (Rejected (mkError "ENOSPC"))
   /\ returned (run sampleJoin sampleDirname "out" everyEntry (beforeClose ++ ZipClose :: afterClose) (initial []))
      = Settled (Rejected
          (mkExtractError "Corrupt ZIP: ENOSPC" CorruptZip (mkError "ENOSPC")))
   /\ returned (run sampleJoin sampleDirname "out" everyEntry (beforeClose ++ ZipClose :: afterClose) (initial []))
      <> promiseOf (run sampleJoin sampleDirname "out" everyEntry (beforeClose ++ ZipClose :: afterClose) (initial []))
           (last (run sampleJoin sampleDirname "out" everyEntry beforeClose (initial []))))
  /\ (promiseOf (run sampleJoin sampleDirname "out" everyEntry (errorBeforeClose ++ [ZipClose]) (initial []))
        (last (run sampleJoin sampleDirname "out" everyEntry errorBeforeClose (initial [])))
      = Settled (Fulfilled tt)
      /\ returned (run sampleJoin sampleDirname "out" everyEntry (errorBeforeClose ++ [ZipClose]) (initial []))
         = Settled (Rejected
             (mkExtractError "Corrupt ZIP: EBADF" CorruptZip (mkError "EBADF")))
      /\ returned (run sampleJoin sampleDirname "out" everyEntry (errorBeforeClose ++ [ZipClose]) (initial []))
         <> promiseOf (run sampleJoin sampleDirname "out" everyEntry (errorBeforeClose ++ [ZipClose]) (initial []))
              (last (run sampleJoin sampleDirname "out" everyEntry errorBeforeClose (initial [])))).
Proof.
  split; (split; [reflexivity |]; split; [reflexivity | discriminate]).
Qed.

Lemma cancel_stops_extraction_witness :
  outer (run sampleJoin sampleDirname "out" everyEntry untilPiping (initial [])) = Pending
  /\ isCanceled
       (step sampleJoin sampleDirname "out" everyEntry
          (run sampleJoin sampleDirname "out" everyEntry untilPiping (initial [])) Cancel)
     = true
  /\ In (ECloseSink 0)
       (effects
          (step sampleJoin sampleDirname "out" everyEntry
             (run sampleJoin sampleDirname "out" everyEntry untilPiping (initial [])) Cancel)).
Proof.
  split; [reflexivity |].
  destruct (cancel_stops_extraction sampleJoin sampleDirname "out" everyEntry []
              untilPiping) as (Hflag & _ & _ & _ & Hsink); [reflexivity |].
  split; [exact Hflag |].
  apply (Hsink 0%nat (mkTask "a.txt" 33188 (Settled (Fulfilled tt)) Piping)); reflexivity.
Defined.

Lemma extract_rejects_wrapped_witness :
  newSourcePathRegex (mkOptions None None) = Some (RegExp.mk false [] false)
  /\ fst <$> extract sampleJoin sampleDirname mkdirpFails "a.zip" "out" (mkOptions None None)
     = Some (Settled (Rejected
         (mkExtractError ("Corrupt ZIP: " +:+ message (mkError "EACCES")) CorruptZip
            (mkError "EACCES")))).
Proof.
  split; [reflexivity |].
  destruct (extract_rejects_wrapped sampleJoin sampleDirname mkdirpFails "a.zip" "out"
              (mkOptions None None) (RegExp.mk false [] false))
    as (_ & _ & Hlast); [reflexivity | discriminate |].
  apply (Hlast [ZipEntry (mkEntry "d/" 0); MkdirpDone 0 (Some (mkError "EACCES"))] []);
    reflexivity.
Defined.

(** C1, as stated, fails: the error of [mkdirp] reaches the caller of
    [extract] wrapped in an [ExtractError] of type [CorruptZip], not as the
    raw error. *)
Lemma filesystem_error_not_raw :
  fst <$> extract sampleJoin sampleDirname mkdirpFails "a.zip" "out" (mkOptions None None)
    = Some (Settled (Rejected
        (mkExtractError "Corrupt ZIP: EACCES" CorruptZip (mkError "EACCES"))))
  /\ fst <$> extract sampleJoin sampleDirname mkdirpFails "a.zip" "out" (mkOptions None None)
     <> Some (Settled (Rejected (mkError "EACCES"))).
Proof.
  split; [reflexivity | discriminate].
Qed.

(** Only [last] is looked at when the archive closes: the failure of an
    operation scheduled before it is not reported at all. *)
Example earlier_failure_not_reported :
  fst <$> extract sampleJoin sampleDirname earlierMkdirpFails "a.zip" "out" (mkOptions None None)
    = Some (Settled (Fulfilled tt)).
Proof. reflexivity. Qed.

Lemma rimraf_only_after_open_witness :
  extract sampleJoin sampleDirname corruptArchive "a.zip" "out" (mkOptions (Some true) None)
    = Some (Settled (Rejected
              (toExtractError
                 (mkError "end of central directory record signature not found"))),
            [EOpenZip "a.zip"])
  /\ ~ In (ERimraf "out") [EOpenZip "a.zip"].
Proof.
  split; [reflexivity |].
  destruct (rimraf_only_after_open sampleJoin sampleDirname corruptArchive "a.zip" "out"
              (mkOptions (Some true) None) _ _ eq_refl) as (_ & Honly & _).
  intros Hin. destruct (Honly _ Hin) as (Hopen & _). discriminate Hopen.
Defined.

Lemma file_writes_serialized_witness :
  taskStarts [] = []
  /\ StronglySorted lt
       (taskStarts
          (effects (run sampleJoin sampleDirname "out" everyEntry twoFiles (initial [])))).
Proof.
  split; [reflexivity |].
  destruct (file_writes_serialized sampleJoin sampleDirname "out" everyEntry [] twoFiles)
    as (_ & Hsorted & _); [reflexivity |].
  exact Hsorted.
Defined.

(** ** Runs of the further properties *)

(** The attribute word of a file written on DOS: the archive bit only. *)
Lemma modeFromEntry_default_witness :
  0 <= 32 < 2 ^ 16 /\ modeFromEntry (mkEntry "README" 32) = 33188.
Proof.
  split; [lia |]. apply (modeFromEntry_default "README" 32). lia.
Defined.

Lemma modeFromEntry_no_special_bits_witness :
  0 <= setuidAttributes < 2 ^ 32
  /\ Z.shiftr setuidAttributes 16 = 35309
  /\ Z.land 35309 specialBits = 2048
  /\ Z.land (modeFromEntry (mkEntry "bin/su" setuidAttributes)) specialBits = 0
  /\ 0 <= modeFromEntry (mkEntry "bin/su" setuidAttributes) <= keptBits.
Proof.
  split; [unfold setuidAttributes; lia |]. split; [reflexivity |]. split; [reflexivity |].
  apply (modeFromEntry_no_special_bits "bin/su" setuidAttributes).
  unfold setuidAttributes. lia.
Defined.

Lemma modeFromEntry_projection_witness :
  0 <= setuidAttributes < 2 ^ 32
  /\ modeFromEntry (mkEntry "bin/su" setuidAttributes) = 33261
  /\ modeFromEntry
       (mkEntry "copy" (Z.shiftl (modeFromEntry (mkEntry "bin/su" setuidAttributes)) 16))
     = (if modeFromEntry (mkEntry "bin/su" setuidAttributes) =? 0
        then 33188
        else modeFromEntry (mkEntry "bin/su" setuidAttributes)).
Proof.
  split; [unfold setuidAttributes; lia |]. split; [reflexivity |].
  apply (modeFromEntry_projection "bin/su" "copy" setuidAttributes).
  unfold setuidAttributes. lia.
Defined.

(** The empty source path is falsy, like the absent one. *)
Lemma no_sourcePath_keeps_every_entry_witness :
  JS.truthy_string (Some "") = false
  /\ exists re,
       newSourcePathRegex (mkOptions (Some true) (Some "")) = Some re
       /\ forall entryName, relativeFileName re entryName = Some entryName.
Proof.
  split; [reflexivity |].
  apply (no_sourcePath_keeps_every_entry (Some true) (Some "")). reflexivity.
Defined.

Lemma plain_sourcePath_strips_prefix_witness :
  plainPath "src/" = true
  /\ exists re,
       newSourcePathRegex (mkOptions None (Some "src/")) = Some re
       /\ forall entryName r,
            relativeFileName re entryName = Some r <-> entryName = "src/" +:+ r.
Proof.
  split; [reflexivity |].
  apply (plain_sourcePath_strips_prefix None "src/"). reflexivity.
Defined.

Lemma dotted_sourcePath_keeps_its_entries_witness :
  dottedPath "a.b/" = true
  /\ plainPath "a.b/" = false
  /\ exists re,
       newSourcePathRegex (mkOptions None (Some "a.b/")) = Some re
       /\ (forall rest, relativeFileName re ("a.b/" +:+ rest) = Some rest)
       /\ (forall entryName r,
             relativeFileName re entryName = Some r ->
             exists q, entryName = q +:+ r /\ String.length q = String.length "a.b/").
Proof.
  split; [reflexivity |]. split; [reflexivity |].
  apply (dotted_sourcePath_keeps_its_entries None "a.b/"). reflexivity.
Defined.

(** The archive closes, and a second entry of the same name arrives, after
    the stream has been handed over. *)
Lemma read_resolves_with_match_witness :
  readPromise (readRun "a.txt" matched readInitial) = Pending
  /\ (0 < opened (readRun "a.txt" matched readInitial))%nat
  /\ read None (matched ++ ROpened 0 None :: [RClose; REntry (mkEntry "a.txt" 0)]) "a.txt"
     = Settled (Fulfilled 0%nat).
Proof.
  split; [reflexivity |]. split; [cbn; lia |].
  apply (read_resolves_with_match "a.txt" matched [RClose; REntry (mkEntry "a.txt" 0)] 0).
  - reflexivity.
  - cbn. lia.
Defined.

(** The archive closes before the read stream of the entry found has
    opened: the entry is reported as not found. *)
Lemma read_close_while_pending_witness :
  readPromise (readRun "a.txt" matched readInitial) = Pending
  /\ read None (matched ++ RClose :: [ROpened 0 None]) "a.txt"
     = Settled (Rejected (notFound "a.txt"))
  /\ buffer None (matched ++ RClose :: [ROpened 0 None]) "a.txt"
     = Settled (Rejected (notFound "a.txt")).
Proof.
  split; [reflexivity |].
  apply (read_close_while_pending "a.txt" matched [ROpened 0 None]). reflexivity.
Defined.

Lemma read_stream_open_failure_witness :
  readPromise (readRun "a.txt" matched readInitial) = Pending
  /\ (0 < opened (readRun "a.txt" matched readInitial))%nat
  /\ read None (matched ++ ROpened 0 (Some (mkError "EIO")) :: [RClose]) "a.txt"
     = Settled (Rejected (mkError "EIO"))
  /\ buffer None (matched ++ ROpened 0 (Some (mkError "EIO")) :: [RClose]) "a.txt"
     = Settled (Rejected (mkError "EIO")).
Proof.
  split; [reflexivity |]. split; [cbn; lia |].
  apply (read_stream_open_failure "a.txt" matched [RClose] 0 (mkError "EIO")).
  - reflexivity.
  - cbn. lia.
Defined.

(** The read stream fails after its first chunk. *)
Lemma buffer_rejections_witness :
  buffer None (matched ++ [ROpened 0 None; RData 0 [Byte.x61]; RError 0 (mkError "EIO")])
    "a.txt" = Settled (Rejected (mkError "EIO"))
  /\ ((exists err, None = Some err /\ mkError "EIO" = toExtractError err)
      \/ (None = (None : option Error)
          /\ explained "a.txt"
               (matched ++ [ROpened 0 None; RData 0 [Byte.x61]; RError 0 (mkError "EIO")])
               (mkError "EIO"))).
Proof.
  split; [reflexivity |].
  apply (buffer_rejections None
           (matched ++ [ROpened 0 None; RData 0 [Byte.x61]; RError 0 (mkError "EIO")])
           "a.txt" (mkError "EIO")).
  reflexivity.
Defined.

(** The failure of [d/] has been reported; an error, a second close, a
    completion and a cancellation follow. *)
Lemma settled_stays_settled_witness :
  outer (run sampleJoin sampleDirname "out" everyEntry (events mkdirpFails) (initial []))
    = Settled (Rejected (mkError "EACCES"))
  /\ outer (run sampleJoin sampleDirname "out" everyEntry lateEvents
              (run sampleJoin sampleDirname "out" everyEntry (events mkdirpFails)
                 (initial [])))
     = Settled (Rejected (mkError "EACCES")).
Proof.
  split; [reflexivity |].
  destruct (settled_stays_settled sampleJoin sampleDirname "out" everyEntry lateEvents
              (run sampleJoin sampleDirname "out" everyEntry (events mkdirpFails)
                 (initial []))) as [Houter _].
  apply (Houter (Rejected (mkError "EACCES"))). reflexivity.
Defined.

Lemma success_only_after_close_witness :
  returned (run sampleJoin sampleDirname "out" everyEntry oneDirectory (initial []))
    = Settled (Fulfilled tt)
  /\ exists pre post,
       oneDirectory = pre ++ ZipClose :: post
       /\ forallb notClose pre = true
       /\ promiseOf (run sampleJoin sampleDirname "out" everyEntry oneDirectory (initial []))
            (last (run sampleJoin sampleDirname "out" everyEntry pre (initial [])))
          = Settled (Fulfilled tt).
Proof.
  split; [reflexivity |].
  apply (success_only_after_close sampleJoin sampleDirname "out" everyEntry [] oneDirectory).
  reflexivity.
Defined.

(** The extraction has been rejected twice over, and the next entry is
    scheduled all the same. *)
Lemma only_cancel_stops_scheduling_witness :
  forallb notCancel twoFailures = true
  /\ outer (run sampleJoin sampleDirname "out" everyEntry twoFailures (initial []))
     = Settled (Rejected (mkError "EBADF"))
  /\ last (step sampleJoin sampleDirname "out" everyEntry
             (run sampleJoin sampleDirname "out" everyEntry twoFailures (initial []))
             (ZipEntry (mkEntry "a.txt" 0)))
     = Some (length (ops (run sampleJoin sampleDirname "out" everyEntry twoFailures
                            (initial [])))).
Proof.
  split; [reflexivity |]. split; [reflexivity |].
  destruct (only_cancel_stops_scheduling sampleJoin sampleDirname "out" everyEntry []
              twoFailures eq_refl) as [_ Hnext].
  apply (Hnext (mkEntry "a.txt" 0) "a.txt"). reflexivity.
Defined.

Lemma extract_success_means_closed_witness :
  extract sampleJoin sampleDirname (mkEnv None None oneDirectory) "a.zip" "out"
    (mkOptions (Some true) None)
    = Some (Settled (Fulfilled tt), [EOpenZip "a.zip"; ERimraf "out"; EMkdirp "out/d/"])
  /\ openResult (mkEnv None None oneDirectory) = None
  /\ (JS.truthy_bool (overwrite (mkOptions (Some true) None)) = true ->
      rimrafResult (mkEnv None None oneDirectory) = None)
  /\ In ZipClose (events (mkEnv None None oneDirectory)).
Proof.
  split; [reflexivity |].
  apply (extract_success_means_closed sampleJoin sampleDirname (mkEnv None None oneDirectory)
           "a.zip" "out" (mkOptions (Some true) None)
           [EOpenZip "a.zip"; ERimraf "out"; EMkdirp "out/d/"]).
  reflexivity.
Defined.

(** The sink of [src/run] is created under its relative name and with its
    mode; [other/b.txt] is out of scope. *)
Lemma extract_touches_only_entries_in_scope_witness :
  newSourcePathRegex (mkOptions None (Some "src/")) = Some underSrc
  /\ extract sampleJoin sampleDirname scopedArchive "a.zip" "out"
       (mkOptions None (Some "src/"))
     = Some (Settled (Fulfilled tt),
             [EOpenZip "a.zip"; EMkdirp "out/d/"; EOpenReadStream "src/run";
              ETaskStart 1; EMkdirp "out/"; ECreateWriteStream 1 "out/run" 33261;
              EPipe 1])
  /\ accountedEffect sampleJoin sampleDirname "out" underSrc
       (entriesOf (events scopedArchive)) (ECreateWriteStream 1 "out/run" 33261).
Proof.
  split; [reflexivity |]. split; [reflexivity |].
  apply (extract_touches_only_entries_in_scope sampleJoin sampleDirname scopedArchive
           "a.zip" "out" (mkOptions None (Some "src/")) underSrc (Settled (Fulfilled tt))
           [EOpenZip "a.zip"; EMkdirp "out/d/"; EOpenReadStream "src/run";
            ETaskStart 1; EMkdirp "out/"; ECreateWriteStream 1 "out/run" 33261;
            EPipe 1]).
  - reflexivity.
  - reflexivity.
  - cbn. tauto.
Defined.

(** The error of the deletion reaches the caller as it is. *)
Lemma extract_rejections_witness :
  extract sampleJoin sampleDirname rimrafFails "a.zip" "out" (mkOptions (Some true) None)
    = Some (Settled (Rejected (mkError "EPERM")), [EOpenZip "a.zip"; ERimraf "out"])
  /\ ((openResult rimrafFails = None
       /\ JS.truthy_bool (overwrite (mkOptions (Some true) None)) = true
       /\ rimrafResult rimrafFails = Some (mkError "EPERM"))
      \/ (exists cause,
            mkError "EPERM" = toExtractError cause
            /\ (openResult rimrafFails = Some cause
                \/ (openResult rimrafFails = None
                    /\ In cause (deliveredErrors (events rimrafFails)))))).
Proof.
  split; [reflexivity |].
  apply (extract_rejections sampleJoin sampleDirname rimrafFails "a.zip" "out"
           (mkOptions (Some true) None) (mkError "EPERM")
           [EOpenZip "a.zip"; ERimraf "out"]).
  reflexivity.
Defined.
